(** * Free rigid monoidal categories: the [rigidcat] module

    A shallow embedding of [src/rigidcat.py]: pregroup types ([Ob], [Ty]),
    planar diagrams with cups and caps ([Diagram], [Box], [Cup], [Cap]), the
    snake-removal normaliser ([Diagram.normalize]) and rigid functors
    ([RigidFunctor]).

    Python exceptions are values of [Exception]; a call that may raise
    returns a [result].  A generator is the list of the diagrams it yields
    together with the way it ends (normally, or by raising).  [OutOfFuel] is
    not a Python exception: it marks the exhaustion of the fuel that bounds
    the [while True] loop of [Diagram.normalize], and is shown never to
    occur. *)

From stdpp Require Import base list strings gmap sorting.
From Stdlib Require Import ZArith Lia.

(** ** Exceptions and fallible computations *)

Inductive Exception : Type :=
  | TypeError
  | AxiomError
  | ValueError
  | NotImplementedError
  | KeyError
  | IndexError
  | InterchangerError
  | OutOfFuel.

Inductive result (A : Type) : Type :=
  | Ok (a : A)
  | Raise (e : Exception).
Arguments Ok {A} a.
Arguments Raise {A} e.

#[global] Instance result_ret : MRet result := fun A a => Ok a.
#[global] Instance result_bind : MBind result := fun A B f m =>
  match m with
  | Ok a => f a
  | Raise e => Raise e
  end.

#[global] Instance Exception_eq_dec : EqDecision Exception.
Proof. solve_decision. Defined.

(** ** Simple pregroup types: [class Ob]

    An object is a name and a winding number [z].  [Ob.__init__] raises
    [TypeError] when [z] is not an [int]; here [z : Z] always is. *)

Record Ob : Type := mkOb { name : string; z : Z }.

#[global] Instance Ob_eq_dec : EqDecision Ob.
Proof. solve_decision. Defined.

#[global] Instance Ob_countable : Countable Ob.
Proof.
  apply (inj_countable' (fun o => (name o, z o)) (fun p => mkOb p.1 p.2)).
  by intros [].
Defined.

Module Ob.
(** [Ob.l]: left adjoint, [Ob(self.name, self.z - 1)]. *)
Definition l (o : Ob) : Ob := mkOb (name o) (z o - 1).

(** [Ob.r]: right adjoint, [Ob(self.name, self.z + 1)]. *)
Definition r (o : Ob) : Ob := mkOb (name o) (z o + 1).
End Ob.

(** ** Pregroup types: [class Ty], a list of simple types *)

Abbreviation Ty := (list Ob) (only parsing).

Module Ty.
(** [Ty.l]: the left adjoints [x.l] of the objects in reversed order. *)
Definition l (t : Ty) : Ty := Ob.l <$> reverse t.

(** [Ty.r]: the right adjoints [x.r] of the objects in reversed order. *)
Definition r (t : Ty) : Ty := Ob.r <$> reverse t.

(** [Ty.tensor], written [@] and [+] in the source: concatenation. *)
Definition tensor (t u : Ty) : Ty := t ++ u.

(** The slice [t[i:j]] for [0 <= i <= j]. *)
Definition slice (t : Ty) (i j : nat) : Ty := take (j - i) (drop i t).
End Ty.

(** ** Python values met by [Ob.__eq__]

    [other] in [Ob.__eq__] can be any Python value.  [PyOb] is an instance of
    the adjoint object class of this module; the lower layer's plain objects
    ([cat.Ob], which has a name only), types, numbers, strings and [None]
    are not. *)

Inductive PyValue : Type :=
  | PyOb (o : Ob)
  | PyCatOb (n : string)
  | PyTy (t : Ty)
  | PyInt (n : Z)
  | PyStr (s : string)
  | PyNone.

(** [isinstance(other, Ob)]. *)
Definition isinstance_Ob (v : PyValue) : bool :=
  match v with
  | PyOb _ => true
  | _ => false
  end.

(** [Ob.__eq__]. *)
Definition Ob_eq (self : Ob) (other : PyValue) : result bool :=
  match other with
  | PyOb o => Ok (bool_decide ((name self, z self) = (name o, z o)))
  | _ => Ok false
  end.

(** [n * s] for a string [s]: [s] repeated [n] times. *)
Fixpoint str_mul (n : nat) (s : string) : string :=
  match n with
  | 0 => ""
  | S n' => s +:+ str_mul n' s
  end.

(** [Ob.__str__], for a name that is a string: the name followed by [-z]
    times [.l] when [z] is negative, by [z] times [.r] otherwise. *)
Definition Ob_str (self : Ob) : string :=
  name self +:+
  (if bool_decide (z self < 0)%Z then str_mul (Z.to_nat (- z self)) ".l"
   else str_mul (Z.to_nat (z self)) ".r").

(** ** Boxes: [class Box], [class Cup], [class Cap]

    A [Cup] or [Cap] is a box whose class the normaliser and the functor test
    with [isinstance]; its two wires are kept as the two objects of its
    domain (codomain).  [_dagger] and [data] are the fields of a plain box. *)

Inductive Box : Type :=
  | MkBox (bname : string) (bdom bcod : Ty) (data : option string)
          (_dagger : bool)
  | MkCup (x y : Ob)
  | MkCap (x y : Ob).

#[global] Instance Box_eq_dec : EqDecision Box.
Proof. solve_decision. Defined.

Module Box.
Definition dom (b : Box) : Ty :=
  match b with
  | MkBox _ d _ _ _ => d
  | MkCup x y => [x; y]
  | MkCap _ _ => []
  end.

Definition cod (b : Box) : Ty :=
  match b with
  | MkBox _ _ c _ _ => c
  | MkCup _ _ => []
  | MkCap x y => [x; y]
  end.

(** [isinstance(box, Cup)] and [isinstance(box, Cap)]. *)
Definition is_Cup (b : Box) : bool :=
  match b with MkCup _ _ => true | _ => false end.

Definition is_Cap (b : Box) : bool :=
  match b with MkCap _ _ => true | _ => false end.
End Box.

(** ** Diagrams: [class Diagram]

    [boxes] and [offsets] are two lists of the same length in the source;
    they are kept zipped, one [(box, offset)] layer per box. *)

Record Diagram : Type := mkDiagram {
  dom : Ty;
  cod : Ty;
  layers : list (Box * Z)
}.

#[global] Instance Diagram_eq_dec : EqDecision Diagram.
Proof. solve_decision. Defined.

Definition boxes (d : Diagram) : list Box := fst <$> layers d.
Definition offsets (d : Diagram) : list Z := snd <$> layers d.

(** [class Id]: [Diagram(t, t, [], [])]. *)
Definition Id (t : Ty) : Diagram := mkDiagram t t [].

(** [Box.__init__]: a box is the diagram [Diagram(dom, cod, [self], [0])]. *)
Definition box_diagram (b : Box) : Diagram :=
  mkDiagram (Box.dom b) (Box.cod b) [(b, 0%Z)].

(** [Cup.__init__]. *)
Definition Cup (x y : Ty) : result Box :=
  if decide (Ty.r x ≠ y ∧ x ≠ Ty.r y) then Raise AxiomError
  else match x, y with
       | [x0], [y0] =>
           if decide (x = Ty.r y) then Raise NotImplementedError
           else Ok (MkCup x0 y0)
       | _, _ => Raise ValueError
       end.

(** [Cap.__init__]. *)
Definition Cap (x y : Ty) : result Box :=
  if decide (x ≠ Ty.r y ∧ Ty.r x ≠ y) then Raise AxiomError
  else match x, y with
       | [x0], [y0] =>
           if decide (Ty.r x = y) then Raise NotImplementedError
           else Ok (MkCap x0 y0)
       | _, _ => Raise ValueError
       end.

Module Diagram.
(** Modelled from the spec: [moncat.Diagram.then] is not part of the
    sources.  Sequential composition requires [self.cod == other.dom],
    else fails with the type-mismatch error ([AxiomError]); the boxes of
    [other] follow those of [self]. *)
Definition then_ (self other : Diagram) : result Diagram :=
  if decide (cod self = dom other)
  then Ok (mkDiagram (dom self) (cod other) (layers self ++ layers other))
  else Raise AxiomError.

(** Modelled from the spec: [moncat.Diagram.tensor] is not part of the
    sources.  Parallel composition puts [other] to the right of [self]:
    the offsets of [other] are shifted by the width of [self.cod]. *)
Definition tensor (self other : Diagram) : Diagram :=
  mkDiagram (dom self ++ dom other) (cod self ++ cod other)
    (layers self ++
     ((fun l : Box * Z => (l.1, (l.2 + Z.of_nat (length (cod self)))%Z))
        <$> layers other)).

(** The body of the loop of [Diagram.cups], for the indices [idx]. *)
Fixpoint cups_loop (x y : Ty) (idx : list nat) (cups : Diagram)
    : result Diagram :=
  match idx with
  | [] => Ok cups
  | i :: idx' =>
      let j := length x - i - 1 in
      cup ← Cup (Ty.slice x j (j + 1)) (Ty.slice y i (i + 1));
      cups' ← then_ cups
        (tensor (tensor (Id (take j x)) (box_diagram cup))
           (Id (drop (i + 1) y)));
      cups_loop x y idx' cups'
  end.

(** [Diagram.cups]. *)
Definition cups (x y : Ty) : result Diagram :=
  cups_loop x y (seq 0 (length x)) (Id (x ++ y)).

(** The body of the loop of [Diagram.caps]; [caps << layer] is
    [layer >> caps]. *)
Fixpoint caps_loop (x y : Ty) (idx : list nat) (caps : Diagram)
    : result Diagram :=
  match idx with
  | [] => Ok caps
  | i :: idx' =>
      let j := length x - i - 1 in
      cap ← Cap (Ty.slice x j (j + 1)) (Ty.slice y i (i + 1));
      caps' ← then_
        (tensor (tensor (Id (take j x)) (box_diagram cap))
           (Id (drop (i + 1) y)))
        caps;
      caps_loop x y idx' caps'
  end.

(** [Diagram.caps]. *)
Definition caps (x y : Ty) : result Diagram :=
  caps_loop x y (seq 0 (length x)) (Id (x ++ y)).

(** [Diagram.transpose_r]. *)
Definition transpose_r (self : Diagram) : result Diagram :=
  caps_ ← caps (Ty.r (dom self)) (dom self);
  d1 ← then_ (tensor caps_ (Id (Ty.r (cod self))))
         (tensor (tensor (Id (Ty.r (dom self))) self) (Id (Ty.r (cod self))));
  cups_ ← cups (cod self) (Ty.r (cod self));
  then_ d1 (tensor (Id (Ty.r (dom self))) cups_).

(** [Diagram.transpose_l]. *)
Definition transpose_l (self : Diagram) : result Diagram :=
  caps_ ← caps (dom self) (Ty.l (dom self));
  d1 ← then_ (tensor (Id (Ty.l (cod self))) caps_)
         (tensor (tensor (Id (Ty.l (cod self))) self) (Id (Ty.l (dom self))));
  cups_ ← cups (Ty.l (cod self)) (cod self);
  then_ d1 (tensor cups_ (Id (Ty.l (dom self)))).

(** *** Generators

    A generator that yields diagrams: the diagrams yielded so far and the
    outcome, a returned value or a raised exception. *)
Record Gen (A : Type) : Type := mkGen {
  yields : list Diagram;
  outcome : result A
}.
Arguments mkGen {A} yields outcome.
Arguments yields {A} g.
Arguments outcome {A} g.

#[global] Instance Gen_ret : MRet Gen := fun A a => mkGen [] (Ok a).
#[global] Instance Gen_bind : MBind Gen := fun A B f m =>
  match outcome m with
  | Ok a => mkGen (yields m ++ yields (f a)) (outcome (f a))
  | Raise e => mkGen (yields m) (Raise e)
  end.

(** [yield diagram]. *)
Definition yield (d : Diagram) : Gen unit := mkGen [d] (Ok tt).

(** A call that may raise, inside a generator. *)
Definition lift {A : Type} (r : result A) : Gen A := mkGen [] r.

(** [len(box.dom)] and [len(box.cod)] as Python integers. *)
Definition len_dom (b : Box) : Z := Z.of_nat (length (Box.dom b)).
Definition len_cod (b : Box) : Z := Z.of_nat (length (Box.cod b)).

(** *** Interchange *)

(** Modelled from the spec: [moncat.Diagram.interchange] is not part of the
    sources.  The boxes at positions [i] and [i + 1] are swapped when their
    wire footprints do not overlap, the offset of the box that sits to the
    right being corrected by the width change of the other; it fails when
    one box consumes outputs of the other.  When both readings apply, the
    upper box is taken to be on the right unless [left] is set: this is
    what the doctests of [Diagram.interchange] in [rigidcat.py] show for
    [Cup(x, x.r) >> Cap(x, x.l)]. *)
Definition interchange_adjacent (self : Diagram) (i : nat) (left : bool)
    : result Diagram :=
  match layers self !! i, layers self !! (i + 1) with
  | Some (box0, off0), Some (box1, off1) =>
      let swapped off1' off0' :=
        Ok (mkDiagram (dom self) (cod self)
              (take i (layers self) ++ [(box1, off1'); (box0, off0')]
               ++ drop (i + 2) (layers self))) in
      if left && bool_decide (off0 + len_cod box0 ≤ off1)%Z
      then swapped (off1 - len_cod box0 + len_dom box0)%Z off0
      else if bool_decide (off1 + len_dom box1 ≤ off0)%Z
      then swapped off1 (off0 - len_dom box1 + len_cod box1)%Z
      else if bool_decide (off0 + len_cod box0 ≤ off1)%Z
      then swapped (off1 - len_cod box0 + len_dom box0)%Z off0
      else Raise InterchangerError
  | _, _ => Raise IndexError
  end.

(** A sequence of adjacent swaps, at the positions [steps] in turn. *)
Fixpoint interchange_steps (self : Diagram) (steps : list nat) (left : bool)
    : result Diagram :=
  match steps with
  | [] => Ok self
  | p :: steps' =>
      result ← interchange_adjacent self p left;
      interchange_steps result steps' left
  end.

(** Modelled from the spec: [moncat.Diagram.interchange(i, j)], the box at
    position [i] is brought to position [j] by swapping it with each box
    on the way. *)
Definition moncat_interchange (self : Diagram) (i j : nat) (left : bool)
    : result Diagram :=
  let n := length (layers self) in
  if negb (bool_decide (i < n)) || negb (bool_decide (j < n))
  then Raise IndexError
  else if bool_decide (i = j) then Ok self
  else if bool_decide (j + 1 < i)
  then interchange_steps self ((fun k => i - k - 1) <$> seq 0 (i - j)) left
  else if bool_decide (i + 1 < j)
  then interchange_steps self ((fun k => i + k) <$> seq 0 (j - i)) left
  else interchange_adjacent self (i `min` j) left.

(** [Diagram.interchange]: the inherited interchange, re-typed. *)
Definition interchange (self : Diagram) (i j : nat) (left : bool)
    : result Diagram :=
  result ← moncat_interchange self i j left;
  Ok (mkDiagram (dom result) (cod result) (layers result)).

(** *** Snake removal: the local functions of [Diagram.normalize] *)

(** The [while] loop of [follow_wire]: [rest] holds the layers from index
    [i] on, and [n] is [len(diagram)]. *)
Fixpoint follow_wire_loop (rest : list (Box * Z)) (n i : nat) (j : Z)
    (left_obstruction right_obstruction : list nat)
    : nat * Z * (list nat * list nat) :=
  match rest with
  | [] => (n, j, (left_obstruction, right_obstruction))
  | (box, off) :: rest' =>
      if bool_decide (off ≤ j)%Z && bool_decide (j < off + len_dom box)%Z
      then (i, j, (left_obstruction, right_obstruction))
      else if bool_decide (off ≤ j)%Z
      then follow_wire_loop rest' n (i + 1) (j + len_cod box - len_dom box)%Z
             (left_obstruction ++ [i]) right_obstruction
      else follow_wire_loop rest' n (i + 1) j
             left_obstruction (right_obstruction ++ [i])
  end.

(** [follow_wire(diagram, i, j)]. *)
Definition follow_wire (diagram : Diagram) (i : nat) (j : Z)
    : nat * Z * (list nat * list nat) :=
  follow_wire_loop (drop (i + 1) (layers diagram))
    (length (layers diagram)) (i + 1) j [] [].

(** What [find_move] returns when it finds a yankable pair:
    [(cup, cap, obstructions, left_snake)]. *)
Definition Move : Type := nat * nat * (list nat * list nat) * bool.

(** The body of the inner loop of [find_move], for one leg of the cap. *)
Definition try_leg (diagram : Diagram) (cap : nat) (left_snake : bool)
    (wire : Z) : option Move :=
  let '(cup, wire, obstructions) := follow_wire diagram cap wire in
  let not_yankable :=
    bool_decide (cup = length (layers diagram))
    || match layers diagram !! cup with
       | Some (box, off) =>
           negb (Box.is_Cup box)
           || left_snake && negb (bool_decide (off + 1 = wire)%Z)
           || negb left_snake && negb (bool_decide (off = wire))
       | None => true
       end in
  if not_yankable then None else Some (cup, cap, obstructions, left_snake).

(** The outer loop of [find_move], over the layers from index [cap] on. *)
Fixpoint find_move_loop (diagram : Diagram) (rest : list (Box * Z))
    (cap : nat) : option Move :=
  match rest with
  | [] => None
  | (box, off) :: rest' =>
      if negb (Box.is_Cap box) then find_move_loop diagram rest' (cap + 1)
      else match try_leg diagram cap true off with
           | Some m => Some m
           | None =>
               match try_leg diagram cap false (off + 1)%Z with
               | Some m => Some m
               | None => find_move_loop diagram rest' (cap + 1)
               end
           end
  end.

(** [find_move(diagram)]. *)
Definition find_move (diagram : Diagram) : option Move :=
  find_move_loop diagram (layers diagram) 0.

(** [move], left snake, first loop: the left obstructions go above the
    cap. *)
Fixpoint move_left_snake_left (diagram : Diagram) (cap : nat)
    (left_obstruction right_obstruction : list nat)
    : Gen (Diagram * nat * list nat) :=
  match left_obstruction with
  | [] => mret (diagram, cap, right_obstruction)
  | box :: left_obstruction' =>
      diagram ← lift (interchange diagram box cap false);
      _ ← yield diagram;
      let right_obstruction :=
        (fun right_box =>
           if bool_decide (right_box < box) then right_box + 1
           else right_box) <$> right_obstruction in
      move_left_snake_left diagram (cap + 1) left_obstruction'
        right_obstruction
  end.

(** [move], left snake, second loop: the right obstructions, last first,
    go below the cup.  Indices are natural numbers, as they are in every call
    that [normalize] makes: there the obstructions are above the cup, so
    [cup] is at least their number and is never taken below zero.  A
    call with more obstructions than [cup] takes Python's [cup] below zero,
    which this definition does not follow. *)
Fixpoint move_left_snake_right (diagram : Diagram) (cup : nat)
    (right_obstruction_reversed : list nat) : Gen (Diagram * nat) :=
  match right_obstruction_reversed with
  | [] => mret (diagram, cup)
  | box :: rest =>
      diagram ← lift (interchange diagram box cup false);
      _ ← yield diagram;
      move_left_snake_right diagram (cup - 1) rest
  end.

(** [move], right snake, first loop: the left obstructions, last first, go
    below the cup; [cup] is a natural number, at least the number of the
    obstructions, as in the left snake. *)
Fixpoint move_right_snake_left (diagram : Diagram) (cup : nat)
    (left_obstruction_reversed right_obstruction : list nat)
    : Gen (Diagram * nat * list nat) :=
  match left_obstruction_reversed with
  | [] => mret (diagram, cup, right_obstruction)
  | box :: rest =>
      diagram ← lift (interchange diagram box cup false);
      _ ← yield diagram;
      let right_obstruction :=
        (fun right_box =>
           if bool_decide (box < right_box) then right_box - 1
           else right_box) <$> right_obstruction in
      move_right_snake_left diagram (cup - 1) rest right_obstruction
  end.

(** [move], right snake, second loop: the right obstructions go above the
    cap. *)
Fixpoint move_right_snake_right (diagram : Diagram) (cap : nat)
    (right_obstruction : list nat) : Gen (Diagram * nat) :=
  match right_obstruction with
  | [] => mret (diagram, cap)
  | box :: rest =>
      diagram ← lift (interchange diagram box cap false);
      _ ← yield diagram;
      move_right_snake_right diagram (cap + 1) rest
  end.

(** [move(diagram, cup, cap, obstructions, left_snake)]; the value returned
    is the last diagram yielded, the one without the snake. *)
Definition move (diagram : Diagram) (yankable : Move) : Gen Diagram :=
  let '(cup, cap, (left_obstruction, right_obstruction), left_snake) :=
    yankable in
  '(diagram, cup, cap) ←
    (if left_snake
     then
       '(diagram, cap, right_obstruction) ←
         move_left_snake_left diagram cap left_obstruction
           right_obstruction;
       '(diagram, cup) ←
         move_left_snake_right diagram cup (reverse right_obstruction);
       mret (diagram, cup, cap)
     else
       '(diagram, cup, right_obstruction) ←
         move_right_snake_left diagram cup (reverse left_obstruction)
           right_obstruction;
       '(diagram, cap) ←
         move_right_snake_right diagram cap right_obstruction;
       mret (diagram, cup, cap));
  let result :=
    mkDiagram (dom diagram) (cod diagram)
      (take cap (layers diagram) ++ drop (cup + 1) (layers diagram)) in
  _ ← yield result;
  mret result.

(** The [while True] loop of [Diagram.normalize]; every turn removes two
    boxes, so [fuel] above half the number of boxes is never used up. *)
Fixpoint snake_loop (fuel : nat) (diagram : Diagram) : Gen Diagram :=
  match fuel with
  | 0 => lift (Raise OutOfFuel)
  | S fuel' =>
      match find_move diagram with
      | None => mret diagram
      | Some yankable =>
          diagram ← move diagram yankable;
          snake_loop fuel' diagram
      end
  end.

Section Normalize.
(** The monoidal layer's normaliser, [moncat.Diagram.normalize], is not
    part of the sources: the diagrams it yields for a diagram and a
    [left] flag.  Only a run of it that yields finitely many diagrams and
    ends normally is described this way; whether it does so is decided by
    the monoidal layer, and is nowhere derived here. *)
Variable moncat_normalize : Diagram → bool → list Diagram.

(** [Diagram.normalize]. *)
Definition normalize (self : Diagram) (left : bool) : Gen unit :=
  diagram ← snake_loop (S (length (layers self))) self;
  mkGen (moncat_normalize diagram left) (Ok tt).

(** Modelled from the spec: [moncat.Diagram.normal_form] is not part of
    the sources; [Diagram.normal_form] forwards to it.  It drains the
    sequence of [normalize] and returns only the last diagram, the
    diagram itself when nothing is yielded. *)
Definition normal_form (self : Diagram) (left : bool) : result Diagram :=
  let g := normalize self left in
  _ ← outcome g;
  Ok (default self (last (yields g))).
End Normalize.
End Diagram.

(** ** Rigid functors: [class RigidFunctor]

    [ob] and [ar] are the two dictionaries given to the constructor, from
    types to types and from boxes to diagrams; [ob_cls] and [ar_cls] keep
    their defaults, [Ty] and [Diagram]. *)

#[global] Instance Box_countable : Countable Box.
Proof.
  apply (inj_countable'
    (fun b : Box => match b with
              | MkBox n d c p g => inl (n, d, c, p, g)
              | MkCup x y => inr (inl (x, y))
              | MkCap x y => inr (inr (x, y))
              end)
    (fun e => match e with
              | inl (n, d, c, p, g) => MkBox n d c p g
              | inr (inl (x, y)) => MkCup x y
              | inr (inr (x, y)) => MkCap x y
              end)).
  by intros [].
Defined.

Record RigidFunctor : Type := mkRigidFunctor {
  ob : gmap Ty Ty;
  ar : gmap Box Diagram
}.

(** What a functor is applied to, and what it returns. *)
Inductive FunctorArg : Type :=
  | ArgOb (o : Ob)
  | ArgTy (t : Ty)
  | ArgBox (b : Box)
  | ArgDiagram (d : Diagram)
  | ArgOther.

Inductive FunctorRes : Type :=
  | ResTy (t : Ty)
  | ResDiagram (d : Diagram).

Module RigidFunctor.
(** [__call__] on an [Ob]: the image of the base name, then [|z|] adjoints.
    A key that is missing from the dictionary [self.ob] raises
    [KeyError]. *)
Definition call_Ob (self : RigidFunctor) (diagram : Ob) : result Ty :=
  match ob self !! [mkOb (name diagram) 0] with
  | None => Raise KeyError
  | Some result =>
      if bool_decide (z diagram < 0)%Z
      then Ok (Nat.iter (Z.to_nat (- z diagram)) Ty.l result)
      else if bool_decide (0 < z diagram)%Z
      then Ok (Nat.iter (Z.to_nat (z diagram)) Ty.r result)
      else Ok result
  end.

(** [__call__] on a [Ty]: [sum([self(b) for b in diagram.objects], Ty())]. *)
Definition call_Ty (self : RigidFunctor) (diagram : Ty) : result Ty :=
  images ← mapM (call_Ob self) diagram;
  Ok (foldl Ty.tensor [] images).

Section Call.
(** The inherited [MonoidalFunctor.__call__], used for the diagrams that
    are neither cups nor caps, is not part of the sources. *)
Variable MonoidalFunctor_call : RigidFunctor → FunctorArg → result FunctorRes.

(** [RigidFunctor.__call__]. *)
Definition call (self : RigidFunctor) (diagram : FunctorArg)
    : result FunctorRes :=
  match diagram with
  | ArgOb o => t ← call_Ob self o; Ok (ResTy t)
  | ArgTy t => t' ← call_Ty self t; Ok (ResTy t')
  | ArgBox b =>
      if Box.is_Cup b then
        match Box.dom b !! 0, Box.dom b !! 1 with
        | Some x, Some y =>
            fx ← call_Ob self x;
            fy ← call_Ob self y;
            d ← Diagram.cups fx fy;
            Ok (ResDiagram d)
        | _, _ => Raise IndexError
        end
      else if Box.is_Cap b then
        match Box.cod b !! 0, Box.cod b !! 1 with
        | Some x, Some y =>
            fx ← call_Ob self x;
            fy ← call_Ob self y;
            d ← Diagram.caps fx fy;
            Ok (ResDiagram d)
        | _, _ => Raise IndexError
        end
      else MonoidalFunctor_call self diagram
  | ArgDiagram _ => MonoidalFunctor_call self diagram
  | ArgOther => Raise TypeError
  end.
End Call.
End RigidFunctor.

(** ** Notions used to state the properties *)

(** The objects that the arguments handled by [RigidFunctor.__call__] itself
    mention: an object, the objects of a type, the two wires of a cup or of
    a cap. *)
Definition mentions (arg : FunctorArg) (o : Ob) : Prop :=
  match arg with
  | ArgOb o' => o' = o
  | ArgTy t => o ∈ t
  | ArgBox (MkCup x y) | ArgBox (MkCap x y) => o = x ∨ o = y
  | _ => False
  end.

(** [same_type d d']: [d'] has the domain and the codomain of [d]. *)
Definition same_type (d d' : Diagram) : Prop :=
  dom d' = dom d ∧ cod d' = cod d.


(** What a generator yields and returns has the type of [d]. *)
Definition typed_gen {A : Type} (d : Diagram) (diagram_of : A → Diagram)
    (g : Diagram.Gen A) : Prop :=
  (∀ d', d' ∈ Diagram.yields g → same_type d d')
  ∧ (∀ a, Diagram.outcome g = Ok a → same_type d (diagram_of a)).

(** [box] goes past a box at [off]: the offset of the latter moves by the
    width change [len_cod box - len_dom box], in one direction or the
    other. *)
Definition shift_by (δ : Z) (l : Box * Z) : Box * Z := (l.1, (l.2 + δ)%Z).

Definition width_change (b : Box) : Z :=
  (Diagram.len_cod b - Diagram.len_dom b)%Z.

(** [Scan i j mid jf lo ro]: the layers [mid], at the indices from [i] on,
    all miss the wire that enters at offset [j]; the wire leaves at offset
    [jf]; [lo] and [ro] are the indices of the boxes to its left and to its
    right. *)
Inductive Scan : nat → Z → list (Box * Z) → Z → list nat → list nat → Prop :=
  | Scan_nil i j : Scan i j [] j [] []
  | Scan_left i j box off mid jf lo ro :
      (off + Diagram.len_dom box ≤ j)%Z →
      Scan (S i) (j + width_change box) mid jf lo ro →
      Scan i j ((box, off) :: mid) jf (i :: lo) ro
  | Scan_right i j box off mid jf lo ro :
      (j < off)%Z →
      Scan (S i) j mid jf lo ro →
      Scan i j ((box, off) :: mid) jf lo (i :: ro).

(** The sum of the winding numbers of a type. *)
Definition winding (t : Ty) : Z := foldr (λ o acc, (z o + acc)%Z) 0%Z t.

(** The layers of the staircase of cups on the wires [x]: the cup on wire
    [j], at offset [j], for [j] from the last wire down to the first. *)
Definition cup_stairs (x : Ty) : list (Box * Z) :=
  reverse (imap (λ j o, (MkCup o (Ob.r o), Z.of_nat j)) x).

(** The layers of the staircase of caps on the wires [x]: the cap on wire
    [j], at offset [j], for [j] from the first wire to the last. *)
Definition cap_stairs (x : Ty) : list (Box * Z) :=
  imap (λ j o, (MkCap o (Ob.l o), Z.of_nat j)) x.

(** The width changes of the boxes of [ls] at the indices [idx], summed. *)
Definition width_changes (ls : list (Box * Z)) (idx : list nat) : Z :=
  foldr (λ i acc,
           (from_option (λ l : Box * Z, width_change l.1) 0 (ls !! i) + acc)%Z)
    0%Z idx.

(** [yankable d cap left_snake]: the box at [cap] is a cap, and the wire
    that leaves it on the left, for a left snake, or on the right, runs past
    the boxes in between into a cup: into the right leg of the cup for a
    left snake, into its left leg otherwise. *)
Definition yankable (d : Diagram) (cap : nat) (left_snake : bool) : Prop :=
  ∃ capbox oc cup wire obstructions cupbox ou,
    layers d !! cap = Some (capbox, oc) ∧ Box.is_Cap capbox = true
    ∧ Diagram.follow_wire d cap (if left_snake then oc else oc + 1)%Z
      = (cup, wire, obstructions)
    ∧ layers d !! cup = Some (cupbox, ou) ∧ Box.is_Cup cupbox = true
    ∧ wire = (if left_snake then ou + 1 else ou)%Z.

(** The loops of [move], before the cap and the cup are deleted: the diagram
    they end on, with the indices of the cup and of the cap in it. *)
Definition move_loops (diagram : Diagram) (cup cap : nat)
    (left_obstruction right_obstruction : list nat) (left_snake : bool)
    : Diagram.Gen (Diagram * nat * nat) :=
  if left_snake
  then
    '(diagram, cap, right_obstruction) ←
      Diagram.move_left_snake_left diagram cap left_obstruction
        right_obstruction;
    '(diagram, cup) ←
      Diagram.move_left_snake_right diagram cup (reverse right_obstruction);
    mret (diagram, cup, cap)
  else
    '(diagram, cup, right_obstruction) ←
      Diagram.move_right_snake_left diagram cup (reverse left_obstruction)
        right_obstruction;
    '(diagram, cap) ←
      Diagram.move_right_snake_right diagram cap right_obstruction;
    mret (diagram, cup, cap).

(** [trace_of d n ys d']: the [n] diagrams [ys], yielded one after the other
    from [d], hold the boxes of [d] in some order and end on [d']. *)
Definition trace_of (d : Diagram) (n : nat) (ys : list Diagram)
    (d' : Diagram) : Prop :=
  length ys = n ∧ default d (last ys) = d'
  ∧ Forall (λ y, boxes y ≡ₚ boxes d ∧ same_type d y) ys.

(** [t] with every winding number moved by [k], in reversed order when [k]
    is odd: what [k] right adjoints, or [-k] left adjoints, make of [t]. *)
Definition adjoints (k : Z) (t : Ty) : Ty :=
  (λ o, mkOb (name o) (z o + k)) <$> (if Z.even k then t else reverse t).

(** ** Examples *)

(** A functor with an empty object mapping, and a stand-in for the inherited
    call, which the cases below never reach. *)
Definition empty_functor : RigidFunctor := mkRigidFunctor ∅ ∅.
Definition no_inherited_call (F : RigidFunctor) (arg : FunctorArg)
    : result FunctorRes := Raise TypeError.

(** The functor [RigidFunctor({Ty('n'): Ty('m')}, {})]. *)
Definition n_to_m : RigidFunctor :=
  mkRigidFunctor {[ [mkOb "n" 0] := [mkOb "m" 0] ]} ∅.

(** A monoidal layer whose normaliser finds no interchange to make. *)
Definition idle_normalize (d : Diagram) (left : bool) : list Diagram := [].

(** The diagram of the doctest of [Diagram.normalize],
    [g @ cap >> f.dagger() @ Id(n.r) @ f >> cup @ h] with [f : n -> n],
    [g : s @ n -> n], [h : n -> n @ s], [cap = Cap(n.r, n)] and
    [cup = Cup(n, n.r)], and the last diagram that its normalisation yields,
    [g >> f.dagger() >> f >> h]. *)
Definition doctest_diagram : Diagram :=
  let n := mkOb "n" 0 in
  let s := mkOb "s" 0 in
  mkDiagram [s; n] [n; s]
    [(MkBox "g" [s; n] [n] None false, 0%Z);
     (MkCap (Ob.r n) n, 1%Z);
     (MkBox "f" [n] [n] None true, 0%Z);
     (MkBox "f" [n] [n] None false, 2%Z);
     (MkCup n (Ob.r n), 0%Z);
     (MkBox "h" [n] [n; s] None false, 0%Z)].

Definition doctest_normal_form : Diagram :=
  let n := mkOb "n" 0 in
  let s := mkOb "s" 0 in
  mkDiagram [s; n] [n; s]
    [(MkBox "g" [s; n] [n] None false, 0%Z);
     (MkBox "f" [n] [n] None true, 0%Z);
     (MkBox "f" [n] [n] None false, 0%Z);
     (MkBox "h" [n] [n; s] None false, 0%Z)].

(** The right snake on the wire [n], [Cap(n, n.l) @ Id(n) >> Id(n) @ Cup(n.l, n)]. *)
Definition right_snake : Diagram :=
  let n := mkOb "n" 0 in
  mkDiagram [n] [n] [(MkCap n (Ob.l n), 0%Z); (MkCup (Ob.l n) n, 1%Z)].

(** * Properties *)

(** ** The doctests of [rigidcat.py] *)

(** [(Cup(x, x.r) >> Cap(x, x.l)).interchange(0, 1)] is
    [Cap(x, x.l) @ Id(x @ x.r) >> Id(x @ x.l) @ Cup(x, x.r)], and with
    [left=True] it is [Id(x @ x.r) @ Cap(x, x.l) >> Cup(x, x.r) @ Id(x @ x.l)]. *)
Example interchange_doctest_cup_cap (x : Ob) :
  let d := mkDiagram [x; Ob.r x] [x; Ob.l x]
             [(MkCup x (Ob.r x), 0%Z); (MkCap x (Ob.l x), 0%Z)] in
  Diagram.interchange d 0 1 false
  = Ok (mkDiagram [x; Ob.r x] [x; Ob.l x]
          [(MkCap x (Ob.l x), 0%Z); (MkCup x (Ob.r x), 2%Z)])
  ∧ Diagram.interchange d 0 1 true
    = Ok (mkDiagram [x; Ob.r x] [x; Ob.l x]
            [(MkCap x (Ob.l x), 2%Z); (MkCup x (Ob.r x), 0%Z)]).
Proof. by split. Qed.

(** [(f @ f.dagger()).interchange(0, 1)] is
    [Id(x.r) @ f.dagger() >> f @ Id(x.r)], for [f = Box('f', x.r, y.l)]. *)
Example interchange_doctest_boxes (x y : Ob) :
  let f := MkBox "f" [Ob.r x] [Ob.l y] None false in
  let f_dagger := MkBox "f" [Ob.l y] [Ob.r x] None true in
  Diagram.interchange
    (Diagram.tensor (box_diagram f) (box_diagram f_dagger)) 0 1 false
  = Ok (mkDiagram [Ob.r x; Ob.l y] [Ob.l y; Ob.r x]
          [(f_dagger, 1%Z); (f, 0%Z)]).
Proof. reflexivity. Qed.

(** The three diagrams that the doctest of [Diagram.normalize] prints. *)
Example normalize_doctest :
  let n := mkOb "n" 0 in
  let s := mkOb "s" 0 in
  let f := MkBox "f" [n] [n] None false in
  let f_dagger := MkBox "f" [n] [n] None true in
  let g := MkBox "g" [s; n] [n] None false in
  let h := MkBox "h" [n] [n; s] None false in
  Diagram.normalize idle_normalize doctest_diagram false
  = Diagram.mkGen
      [mkDiagram [s; n] [n; s]
         [(g, 0%Z); (f_dagger, 0%Z); (MkCap (Ob.r n) n, 1%Z); (f, 2%Z);
          (MkCup n (Ob.r n), 0%Z); (h, 0%Z)];
       mkDiagram [s; n] [n; s]
         [(g, 0%Z); (f_dagger, 0%Z); (MkCap (Ob.r n) n, 1%Z);
          (MkCup n (Ob.r n), 0%Z); (f, 0%Z); (h, 0%Z)];
       doctest_normal_form]
      (Ok ()).
Proof. reflexivity. Qed.

(** [Diagram.cups(a @ b, (a @ b).r)] is
    [Id(a) @ Cup(b, b.r) @ Id(a.r) >> Cup(a, a.r)]. *)
Example cups_doctest :
  let a := mkOb "a" 0 in
  let b := mkOb "b" 0 in
  Diagram.cups [a; b] (Ty.r [a; b])
  = Ok (mkDiagram [a; b; Ob.r b; Ob.r a] []
          [(MkCup b (Ob.r b), 1%Z); (MkCup a (Ob.r a), 0%Z)]).
Proof. reflexivity. Qed.

(** ** Adjoints of objects and types *)

Lemma Ob_l_r (o : Ob) : Ob.l (Ob.r o) = o.
Proof. destruct o as [n k]. unfold Ob.l, Ob.r. simpl. f_equal. lia. Qed.

Lemma Ob_r_l (o : Ob) : Ob.r (Ob.l o) = o.
Proof. destruct o as [n k]. unfold Ob.l, Ob.r. simpl. f_equal. lia. Qed.

Lemma Ob_r_ne (o : Ob) : Ob.r o ≠ o.
Proof. destruct o as [n k]. unfold Ob.r. simpl. intros [=]. lia. Qed.

Lemma Ob_r_r_ne (o : Ob) : Ob.r (Ob.r o) ≠ o.
Proof. destruct o as [n k]. unfold Ob.r. simpl. intros [=]. lia. Qed.

Lemma Ob_r_inj (o o' : Ob) : Ob.r o = Ob.r o' → o = o'.
Proof.
  destruct o as [n k], o' as [n' k']. unfold Ob.r. simpl.
  intros [= -> Hk]. f_equal. lia.
Qed.

Lemma Ty_r_singleton (o : Ob) : Ty.r [o] = [Ob.r o].
Proof. reflexivity. Qed.

Lemma Ty_l_singleton (o : Ob) : Ty.l [o] = [Ob.l o].
Proof. reflexivity. Qed.

Lemma Ty_r_length (t : Ty) : length (Ty.r t) = length t.
Proof. unfold Ty.r. by rewrite length_fmap, length_reverse. Qed.

Lemma Ty_l_length (t : Ty) : length (Ty.l t) = length t.
Proof. unfold Ty.l. by rewrite length_fmap, length_reverse. Qed.

(** C8: the left (right) adjoint of a tensor is the tensor, in reversed
    order, of the left (right) adjoints: [(x @ y).l == y.l @ x.l] and
    [(x @ y).r == y.r @ x.r]. *)
Theorem Ty_adjoint_tensor (x y : Ty) :
  Ty.l (Ty.tensor x y) = Ty.tensor (Ty.l y) (Ty.l x)
  ∧ Ty.r (Ty.tensor x y) = Ty.tensor (Ty.r y) (Ty.r x).
Proof.
  unfold Ty.l, Ty.r, Ty.tensor.
  by rewrite reverse_app, !fmap_app.
Qed.

(** ** Equality of objects *)

(** C9: [o == v] returns [False], without raising, for every value [v] that
    is not an instance of [Ob]; between two objects it returns [True]
    exactly when the names and the winding numbers coincide. *)
Theorem Ob_eq_spec (o : Ob) (v : PyValue) :
  (isinstance_Ob v = false → Ob_eq o v = Ok false)
  ∧ (∃ b, Ob_eq o v = Ok b)
  ∧ (∀ o', Ob_eq o (PyOb o') = Ok true ↔ name o = name o' ∧ z o = z o').
Proof.
  split_and!.
  - by destruct v.
  - destruct v; simpl; eauto.
  - intros o'. simpl. split.
    + intros [= H]. apply bool_decide_eq_true in H. by simplify_eq.
    + intros [-> ->]. by rewrite bool_decide_eq_true_2.
Qed.

Lemma Ob_eq_spec_witness :
  Ob_eq (mkOb "a" 0) PyNone = Ok false
  ∧ (Ob_eq (mkOb "a" 0) (PyOb (mkOb "a" 0)) = Ok true)
  ∧ (Ob_eq (mkOb "a" 0) (PyOb (mkOb "a" 1)) ≠ Ok true).
Proof.
  destruct (Ob_eq_spec (mkOb "a" 0) PyNone) as (H1 & _ & H3).
  split_and!.
  - apply H1. reflexivity.
  - apply H3. split; reflexivity.
  - intros H. apply H3 in H as [_ H]. discriminate H.
Defined.

(** ** The constructors of cups and caps *)

Lemma Cup_Ok_iff (x y : Ty) (b : Box) :
  Cup x y = Ok b ↔ ∃ x0, x = [x0] ∧ y = [Ob.r x0] ∧ b = MkCup x0 (Ob.r x0).
Proof.
  unfold Cup. split.
  - case_decide as H1; [done|].
    destruct x as [|x0 [|]], y as [|y0 [|]]; try done.
    case_decide as H2; [done|]. intros [= <-].
    rewrite !Ty_r_singleton in *.
    destruct (decide (Ob.r x0 = y0)) as [<-|Hne]; [eauto|].
    exfalso. apply H1. split; congruence.
  - intros (x0 & -> & -> & ->). rewrite !Ty_r_singleton.
    rewrite decide_False by (by intros [? _]).
    rewrite decide_False; [done|].
    intros [= H]. symmetry in H. by apply Ob_r_r_ne in H.
Qed.

Lemma Cap_Ok_iff (x y : Ty) (b : Box) :
  Cap x y = Ok b ↔ ∃ x0, x = [x0] ∧ y = [Ob.l x0] ∧ b = MkCap x0 (Ob.l x0).
Proof.
  unfold Cap. split.
  - case_decide as H1; [done|].
    destruct x as [|x0 [|]], y as [|y0 [|]]; try done.
    case_decide as H2; [done|]. intros [= <-].
    rewrite !Ty_r_singleton in *.
    destruct (decide (x0 = Ob.r y0)) as [->|Hne].
    + exists (Ob.r y0). by rewrite Ob_l_r.
    + exfalso. apply H1. split; congruence.
  - intros (x0 & -> & -> & ->). rewrite !Ty_r_singleton, Ob_r_l.
    rewrite decide_False by (by intros [? _]).
    rewrite decide_False; [done|].
    intros [= H]. lia.
Qed.

(** C5: on singleton types paired in the pivotal direction, [x = y.r] for
    [Cup(x, y)] and [x = y.l] for [Cap(x, y)], the constructor raises
    [NotImplementedError] and returns no box. *)
Theorem Cup_Cap_pivotal_not_implemented (x y : Ty) :
  length x = 1 → length y = 1 →
  (x = Ty.r y → Cup x y = Raise NotImplementedError)
  ∧ (x = Ty.l y → Cap x y = Raise NotImplementedError).
Proof.
  intros Hx Hy.
  destruct x as [|x0 [|]], y as [|y0 [|]]; try done.
  rewrite Ty_r_singleton, Ty_l_singleton. split; intros [= ->].
  - unfold Cup. rewrite !Ty_r_singleton.
    rewrite decide_False by (by intros [_ ?]). by rewrite decide_True.
  - unfold Cap. rewrite !Ty_r_singleton, Ob_r_l.
    rewrite decide_False by (by intros [_ ?]). by rewrite decide_True.
Qed.

Lemma Cup_Cap_pivotal_not_implemented_witness :
  Cup [mkOb "n" 1] [mkOb "n" 0] = Raise NotImplementedError
  ∧ Cap [mkOb "n" (-1)] [mkOb "n" 0] = Raise NotImplementedError.
Proof.
  split.
  - apply (Cup_Cap_pivotal_not_implemented [mkOb "n" 1] [mkOb "n" 0]);
      reflexivity.
  - apply (Cup_Cap_pivotal_not_implemented [mkOb "n" (-1)] [mkOb "n" 0]);
      reflexivity.
Defined.

(** ** The staircase constructors [cups] and [caps] *)

Lemma slice_one (t : Ty) (i : nat) :
  Ty.slice t i (i + 1) = option_list (t !! i).
Proof.
  unfold Ty.slice. replace (i + 1 - i) with 1 by lia.
  replace (t !! i) with (drop i t !! 0)
    by (by rewrite lookup_drop, Nat.add_0_r).
  by destruct (drop i t).
Qed.

Lemma bind_Ok {A B : Type} (m : result A) (f : A → result B) (b : B) :
  m ≫= f = Ok b ↔ ∃ a, m = Ok a ∧ f a = Ok b.
Proof.
  destruct m as [a|e]; simpl; split; try done.
  - eauto.
  - by intros (a' & [= ->] & ?).
  - by intros (a' & [=] & ?).
Qed.

Lemma then_Ok (d1 d2 d : Diagram) :
  Diagram.then_ d1 d2 = Ok d ↔
  cod d1 = dom d2 ∧ d = mkDiagram (dom d1) (cod d2) (layers d1 ++ layers d2).
Proof.
  unfold Diagram.then_. case_decide; split; try done.
  - by intros [= <-].
  - by intros [_ ->].
  - by intros [? _].
Qed.

(** The loops succeed exactly when every wire pair they visit is accepted
    by the elementary constructor. *)
Section Staircase.
Variables (x y : Ty).

Lemma cups_loop_Ok (k i : nat) (acc : Diagram) :
  i + k = length x →
  cod acc = take (length x - i) x ++ drop i y →
  (∃ d, Diagram.cups_loop x y (seq i k) acc = Ok d) ↔
  (∀ m, i ≤ m < length x → y !! m = Ob.r <$> x !! (length x - m - 1)).
Proof.
  revert i acc. induction k as [|k IH]; intros i acc Hik Hcod.
  { simpl. split; [intros _ m ?; lia | eauto]. }
  cbn [seq Diagram.cups_loop].
  destruct (lookup_lt_is_Some_2 x (length x - i - 1)) as [xj Hxj]; [lia|].
  assert (Htake : take (length x - i) x = take (length x - i - 1) x ++ [xj]).
  { rewrite <- (take_S_r x _ xj Hxj). f_equal. lia. }
  cbv zeta. rewrite !slice_one. rewrite Hxj. simpl option_list.
  split.
  - intros [d Hd]. apply bind_Ok in Hd as (cup & Hcup & Hd).
    apply bind_Ok in Hd as (acc' & Hthen & Hd).
    apply Cup_Ok_iff in Hcup as (x0 & [= <-] & Hy & ->).
    destruct (y !! i) as [yi|] eqn:Hyi; [|done]. injection Hy as ->.
    apply then_Ok in Hthen as [_ ->].
    set (acc' := mkDiagram _ _ _) in Hd.
    assert (Hrest : ∀ m, S i ≤ m < length x →
              y !! m = Ob.r <$> x !! (length x - m - 1)).
    { apply (IH (S i) acc' ltac:(lia)); [|eauto]. simpl.
      replace (length x - S i) with (length x - i - 1) by lia.
      by rewrite app_nil_r, Nat.add_1_r. }
    intros m Hm. destruct (decide (m = i)) as [->|].
    + by rewrite Hyi, Hxj.
    + apply Hrest. lia.
  - intros Hall. pose proof (Hall i ltac:(lia)) as Hyi.
    rewrite Hxj in Hyi. simpl in Hyi. rewrite Hyi. simpl option_list.
    destruct (Cup [xj] [Ob.r xj]) as [cup|] eqn:Hcup; last first.
    { assert (Cup [xj] [Ob.r xj] = Ok (MkCup xj (Ob.r xj))) as Hc
        by (apply Cup_Ok_iff; eauto). congruence. }
    apply Cup_Ok_iff in Hcup as (x0 & [= <-] & _ & ->). cbn [mbind result_bind].
    unfold Diagram.then_. rewrite decide_True; last first.
    { rewrite Hcod, Htake. simpl. rewrite <- !app_assoc. simpl.
      f_equal. f_equal. f_equal. rewrite Nat.add_1_r. by apply drop_S. }
    cbn [mbind result_bind].
    apply (IH (S i) _ ltac:(lia)).
    + simpl. replace (length x - S i) with (length x - i - 1) by lia.
      by rewrite app_nil_r, Nat.add_1_r.
    + intros m Hm. apply Hall. lia.
Qed.

Lemma caps_loop_Ok (k i : nat) (acc : Diagram) :
  i + k = length x →
  dom acc = take (length x - i) x ++ drop i y →
  (∃ d, Diagram.caps_loop x y (seq i k) acc = Ok d) ↔
  (∀ m, i ≤ m < length x → y !! m = Ob.l <$> x !! (length x - m - 1)).
Proof.
  revert i acc. induction k as [|k IH]; intros i acc Hik Hdom.
  { simpl. split; [intros _ m ?; lia | eauto]. }
  cbn [seq Diagram.caps_loop].
  destruct (lookup_lt_is_Some_2 x (length x - i - 1)) as [xj Hxj]; [lia|].
  assert (Htake : take (length x - i) x = take (length x - i - 1) x ++ [xj]).
  { rewrite <- (take_S_r x _ xj Hxj). f_equal. lia. }
  rewrite !slice_one, Hxj. simpl option_list.
  split.
  - intros [d Hd]. apply bind_Ok in Hd as (cap & Hcap & Hd).
    apply bind_Ok in Hd as (acc' & Hthen & Hd).
    apply Cap_Ok_iff in Hcap as (x0 & [= <-] & Hy & ->).
    destruct (y !! i) as [yi|] eqn:Hyi; [|done]. injection Hy as ->.
    apply then_Ok in Hthen as [_ ->].
    set (acc' := mkDiagram _ _ _) in Hd.
    assert (Hrest : ∀ m, S i ≤ m < length x →
              y !! m = Ob.l <$> x !! (length x - m - 1)).
    { apply (IH (S i) acc' ltac:(lia)); [|eauto]. simpl.
      replace (length x - S i) with (length x - i - 1) by lia.
      by rewrite app_nil_r, Nat.add_1_r. }
    intros m Hm. destruct (decide (m = i)) as [->|].
    + by rewrite Hyi, Hxj.
    + apply Hrest. lia.
  - intros Hall. pose proof (Hall i ltac:(lia)) as Hyi.
    rewrite Hxj in Hyi. simpl in Hyi. rewrite Hyi. simpl option_list.
    destruct (Cap [xj] [Ob.l xj]) as [cap|] eqn:Hcap; last first.
    { assert (Cap [xj] [Ob.l xj] = Ok (MkCap xj (Ob.l xj))) as Hc
        by (apply Cap_Ok_iff; eauto). congruence. }
    apply Cap_Ok_iff in Hcap as (x0 & [= <-] & _ & ->). cbn [mbind result_bind].
    unfold Diagram.then_. rewrite decide_True; last first.
    { rewrite Hdom, Htake. simpl. rewrite <- !app_assoc. simpl.
      f_equal. f_equal. f_equal. rewrite Nat.add_1_r. symmetry.
      by apply drop_S. }
    cbn [mbind result_bind].
    apply (IH (S i) _ ltac:(lia)).
    + simpl. replace (length x - S i) with (length x - i - 1) by lia.
      by rewrite app_nil_r, Nat.add_1_r.
    + intros m Hm. apply Hall. lia.
Qed.
End Staircase.

Lemma prefix_adjoint (f : Ob → Ob) (x y : Ty) :
  (∀ m, 0 ≤ m < length x → y !! m = f <$> x !! (length x - m - 1)) ↔
  take (length x) y = f <$> reverse x.
Proof.
  split.
  - intros H. apply list_eq. intros m.
    destruct (decide (m < length x)) as [Hm|Hm].
    + rewrite lookup_take_lt, list_lookup_fmap, reverse_lookup by done.
      rewrite H by lia. do 2 f_equal. lia.
    + rewrite lookup_take_ge by lia. symmetry. apply lookup_ge_None.
      rewrite length_fmap, length_reverse. lia.
  - intros H m Hm.
    rewrite <- (lookup_take_lt y (length x)) by lia.
    rewrite H, list_lookup_fmap, reverse_lookup by lia.
    do 2 f_equal. lia.
Qed.

(** C10, as the code has it: [Diagram.cups(x, y)] returns a diagram exactly
    when the first [len(x)] objects of [y] are [x.r], and [Diagram.caps(x, y)]
    exactly when they are [x.l]; what follows them in [y] is not checked. *)
Theorem cups_caps_succeed_iff (x y : Ty) :
  ((∃ d, Diagram.cups x y = Ok d) ↔ take (length x) y = Ty.r x)
  ∧ ((∃ d, Diagram.caps x y = Ok d) ↔ take (length x) y = Ty.l x).
Proof.
  unfold Diagram.cups, Diagram.caps, Ty.r, Ty.l. split.
  - rewrite <- prefix_adjoint. apply cups_loop_Ok; [done|].
    by rewrite Nat.sub_0_r, firstn_all.
  - rewrite <- prefix_adjoint. apply caps_loop_Ok; [done|].
    by rewrite Nat.sub_0_r, firstn_all.
Qed.

Lemma cups_caps_succeed_iff_witness :
  (∃ d, Diagram.cups [mkOb "a" 0; mkOb "b" 0] [mkOb "b" 1; mkOb "a" 1] = Ok d)
  ∧ (∃ d, Diagram.caps [mkOb "a" 0] [mkOb "a" (-1); mkOb "c" 0] = Ok d).
Proof.
  split.
  - apply (cups_caps_succeed_iff [mkOb "a" 0; mkOb "b" 0]
             [mkOb "b" 1; mkOb "a" 1]). reflexivity.
  - apply (cups_caps_succeed_iff [mkOb "a" 0]
             [mkOb "a" (-1); mkOb "c" 0]). reflexivity.
Defined.

(** C10 fails as stated: [Diagram.cups(Ty(), Ty('a'))] returns [Id(Ty('a'))]
    although [Ty('a')] is not [Ty().r], and likewise for [caps]. *)
Lemma cups_caps_accept_longer_y :
  Diagram.cups [] [mkOb "a" 0] = Ok (Id [mkOb "a" 0])
  ∧ [mkOb "a" 0] ≠ Ty.r []
  ∧ Diagram.caps [] [mkOb "a" 0] = Ok (Id [mkOb "a" 0])
  ∧ [mkOb "a" 0] ≠ Ty.l [].
Proof. by split_and!. Qed.

(** ** Rigid functors *)

Lemma call_Ob_absent (F : RigidFunctor) (o : Ob) :
  ob F !! [mkOb (name o) 0] = None → RigidFunctor.call_Ob F o = Raise KeyError.
Proof. intros H. unfold RigidFunctor.call_Ob. by rewrite H. Qed.

Lemma call_Ob_KeyError (F : RigidFunctor) (o : Ob) (e : Exception) :
  RigidFunctor.call_Ob F o = Raise e → e = KeyError.
Proof.
  unfold RigidFunctor.call_Ob. destruct (ob F !! _); [|congruence].
  by repeat case_bool_decide.
Qed.

Lemma mapM_call_Ob_absent (F : RigidFunctor) (t : Ty) (o : Ob) :
  o ∈ t → ob F !! [mkOb (name o) 0] = None →
  mapM (RigidFunctor.call_Ob F) t = Raise KeyError.
Proof.
  intros Hin Habs. induction t as [|o' t IH]; [by apply elem_of_nil in Hin|].
  simpl. destruct (RigidFunctor.call_Ob F o') as [t'|e] eqn:Ho'.
  - apply elem_of_cons in Hin as [->|Hin].
    + by rewrite call_Ob_absent in Ho'.
    + simpl. by rewrite IH.
  - simpl. f_equal. by eapply call_Ob_KeyError.
Qed.

Section FunctorProperties.
Variable MonoidalFunctor_call : RigidFunctor → FunctorArg → result FunctorRes.

Let call := RigidFunctor.call MonoidalFunctor_call.

(** C4, as the code has it: applied to an object, a type, a cup or a cap
    that mentions an object whose base name is missing from the object
    mapping, a functor fails with the [KeyError] of the dictionary
    lookup. *)
Theorem call_absent_object_KeyError (F : RigidFunctor) (arg : FunctorArg)
    (o : Ob) :
  mentions arg o → ob F !! [mkOb (name o) 0] = None →
  call F arg = Raise KeyError.
Proof.
  intros Hm Habs. unfold call.
  destruct arg as [o'|t|[| x y | x y]| |]; simpl in Hm; try done.
  - subst o'. simpl. by rewrite call_Ob_absent.
  - simpl. unfold RigidFunctor.call_Ty.
    by rewrite (mapM_call_Ob_absent F t o).
  - simpl. destruct (RigidFunctor.call_Ob F x) as [fx|e] eqn:Hx.
    + destruct Hm as [->| ->]; [by rewrite call_Ob_absent in Hx|].
      simpl. by rewrite call_Ob_absent.
    + simpl. f_equal. by eapply call_Ob_KeyError.
  - simpl. destruct (RigidFunctor.call_Ob F x) as [fx|e] eqn:Hx.
    + destruct Hm as [->| ->]; [by rewrite call_Ob_absent in Hx|].
      simpl. by rewrite call_Ob_absent.
    + simpl. f_equal. by eapply call_Ob_KeyError.
Qed.

(** C6: the image of [Cup(a, b)] is [Diagram.cups(F(a), F(b))] and the
    image of [Cap(a, b)] is [Diagram.caps(F(a), F(b))], whatever the arrow
    mapping holds. *)
Theorem call_Cup_Cap (F : RigidFunctor) (a b : Ty) (box : Box) :
  (Cup a b = Ok box →
   call F (ArgBox box) =
     (fa ← RigidFunctor.call_Ty F a; fb ← RigidFunctor.call_Ty F b;
      d ← Diagram.cups fa fb; Ok (ResDiagram d))
   ∧ ∀ ar', call (mkRigidFunctor (ob F) ar') (ArgBox box)
            = call F (ArgBox box))
  ∧ (Cap a b = Ok box →
     call F (ArgBox box) =
       (fa ← RigidFunctor.call_Ty F a; fb ← RigidFunctor.call_Ty F b;
        d ← Diagram.caps fa fb; Ok (ResDiagram d))
     ∧ ∀ ar', call (mkRigidFunctor (ob F) ar') (ArgBox box)
              = call F (ArgBox box)).
Proof.
  assert (Hty : ∀ x, RigidFunctor.call_Ty F [x] = RigidFunctor.call_Ob F x).
  { intros x. unfold RigidFunctor.call_Ty. simpl.
    by destruct (RigidFunctor.call_Ob F x). }
  split.
  - intros (x0 & -> & -> & ->)%Cup_Ok_iff. split; [|done].
    rewrite !Hty. unfold call. simpl.
    destruct (RigidFunctor.call_Ob F x0); [|done]. simpl.
    by destruct (RigidFunctor.call_Ob F (Ob.r x0)).
  - intros (x0 & -> & -> & ->)%Cap_Ok_iff. split; [|done].
    rewrite !Hty. unfold call. simpl.
    destruct (RigidFunctor.call_Ob F x0); [|done]. simpl.
    by destruct (RigidFunctor.call_Ob F (Ob.l x0)).
Qed.
End FunctorProperties.

Lemma call_absent_object_KeyError_witness :
  RigidFunctor.call no_inherited_call n_to_m (ArgTy [mkOb "n" 0; mkOb "x" 2])
  = Raise KeyError.
Proof.
  apply (call_absent_object_KeyError no_inherited_call n_to_m
           (ArgTy [mkOb "n" 0; mkOb "x" 2]) (mkOb "x" 2)).
  - simpl. repeat constructor.
  - reflexivity.
Defined.

(** C4 fails as stated: the functor with an empty object mapping, applied to
    [Cup(Ty('x'), Ty('x').r)], raises [KeyError] and not the type-mismatch
    error [AxiomError]. *)
Lemma call_absent_object_not_AxiomError :
  Cup [mkOb "x" 0] [mkOb "x" 1] = Ok (MkCup (mkOb "x" 0) (mkOb "x" 1))
  ∧ RigidFunctor.call no_inherited_call empty_functor
      (ArgBox (MkCup (mkOb "x" 0) (mkOb "x" 1))) = Raise KeyError
  ∧ RigidFunctor.call no_inherited_call empty_functor
      (ArgBox (MkCup (mkOb "x" 0) (mkOb "x" 1))) ≠ Raise AxiomError.
Proof. by split_and!. Qed.

Lemma call_Cup_Cap_witness :
  RigidFunctor.call no_inherited_call n_to_m
    (ArgBox (MkCup (mkOb "n" 0) (mkOb "n" 1)))
  = Ok (ResDiagram (mkDiagram [mkOb "m" 0; mkOb "m" 1] []
                      [(MkCup (mkOb "m" 0) (mkOb "m" 1), 0%Z)])).
Proof.
  destruct (call_Cup_Cap no_inherited_call n_to_m [mkOb "n" 0] [mkOb "n" 1]
              (MkCup (mkOb "n" 0) (mkOb "n" 1))) as [H _].
  destruct (H eq_refl) as [-> _]. reflexivity.
Defined.

(** ** Snakes *)

Lemma caps_singleton (x0 : Ob) :
  Diagram.caps [x0] [Ob.l x0] =
  Ok (mkDiagram [] [x0; Ob.l x0] [(MkCap x0 (Ob.l x0), 0%Z)]).
Proof.
  unfold Diagram.caps. simpl. unfold Ty.slice. simpl.
  assert (Cap [x0] [Ob.l x0] = Ok (MkCap x0 (Ob.l x0))) as ->
    by (apply Cap_Ok_iff; eauto).
  simpl. unfold Diagram.then_. simpl. by rewrite decide_True.
Qed.

Lemma cups_singleton (x0 : Ob) :
  Diagram.cups [x0] [Ob.r x0] =
  Ok (mkDiagram [x0; Ob.r x0] [] [(MkCup x0 (Ob.r x0), 0%Z)]).
Proof.
  unfold Diagram.cups. simpl. unfold Ty.slice. simpl.
  assert (Cup [x0] [Ob.r x0] = Ok (MkCup x0 (Ob.r x0))) as ->
    by (apply Cup_Ok_iff; eauto).
  simpl. unfold Diagram.then_. simpl. by rewrite decide_True.
Qed.

Lemma caps_pair (x0 x1 : Ob) :
  Diagram.caps [x0; x1] [Ob.l x1; Ob.l x0] =
  Ok (mkDiagram [] [x0; x1; Ob.l x1; Ob.l x0]
        [(MkCap x0 (Ob.l x0), 0%Z); (MkCap x1 (Ob.l x1), 1%Z)]).
Proof.
  unfold Diagram.caps. simpl. unfold Ty.slice. simpl.
  assert (∀ o, Cap [o] [Ob.l o] = Ok (MkCap o (Ob.l o))) as Hcap
    by (intros o; apply Cap_Ok_iff; eauto).
  rewrite !Hcap. simpl. unfold Diagram.then_. simpl.
  rewrite decide_True by done. simpl. by rewrite decide_True.
Qed.

Lemma cups_pair (x0 x1 : Ob) :
  Diagram.cups [x0; x1] [Ob.r x1; Ob.r x0] =
  Ok (mkDiagram [x0; x1; Ob.r x1; Ob.r x0] []
        [(MkCup x1 (Ob.r x1), 1%Z); (MkCup x0 (Ob.r x0), 0%Z)]).
Proof.
  unfold Diagram.cups. simpl. unfold Ty.slice. simpl.
  assert (∀ o, Cup [o] [Ob.r o] = Ok (MkCup o (Ob.r o))) as Hcup
    by (intros o; apply Cup_Ok_iff; eauto).
  rewrite !Hcup. simpl. unfold Diagram.then_. simpl.
  rewrite decide_True by done. simpl. by rewrite decide_True.
Qed.

(** [Id(x).transpose_l()] is [Id(x.l) @ Cap(x, x.l) >> Cup(x.l, x) @ Id(x.l)]. *)
Lemma transpose_l_wire (x : Ob) :
  Diagram.transpose_l (Id [x]) =
  Ok (mkDiagram [Ob.l x] [Ob.l x]
        [(MkCap x (Ob.l x), 1%Z); (MkCup (Ob.l x) x, 0%Z)]).
Proof.
  unfold Diagram.transpose_l. cbn [dom cod Id].
  rewrite !Ty_l_singleton.
  pose proof (cups_singleton (Ob.l x)) as Hcups. rewrite Ob_r_l in Hcups.
  rewrite Hcups, caps_singleton. cbn [mbind result_bind].
  unfold Diagram.then_. simpl. rewrite decide_True by done. simpl.
  by rewrite decide_True.
Qed.

(** [Id(x).transpose_r()] is [Cap(x.r, x) @ Id(x.r) >> Id(x.r) @ Cup(x, x.r)]. *)
Lemma transpose_r_wire (x : Ob) :
  Diagram.transpose_r (Id [x]) =
  Ok (mkDiagram [Ob.r x] [Ob.r x]
        [(MkCap (Ob.r x) x, 0%Z); (MkCup x (Ob.r x), 1%Z)]).
Proof.
  unfold Diagram.transpose_r. cbn [dom cod Id].
  rewrite !Ty_r_singleton.
  pose proof (caps_singleton (Ob.r x)) as Hcaps. rewrite Ob_l_r in Hcaps.
  rewrite Hcaps, cups_singleton. cbn [mbind result_bind].
  unfold Diagram.then_. simpl. rewrite decide_True by done. simpl.
  by rewrite decide_True.
Qed.

(** [Id(a @ b).transpose_r()], the double snake. *)
Lemma transpose_r_two_wires (a b : Ob) :
  Diagram.transpose_r (Id ([a] ++ [b])) =
  Ok (mkDiagram [Ob.r b; Ob.r a] [Ob.r b; Ob.r a]
        [(MkCap (Ob.r b) b, 0%Z); (MkCap (Ob.r a) a, 1%Z);
         (MkCup b (Ob.r b), 3%Z); (MkCup a (Ob.r a), 2%Z)]).
Proof.
  unfold Diagram.transpose_r. cbn [dom cod Id app].
  change (Ty.r [a; b]) with [Ob.r b; Ob.r a].
  pose proof (caps_pair (Ob.r b) (Ob.r a)) as Hcaps.
  rewrite !Ob_l_r in Hcaps.
  rewrite Hcaps, cups_pair. cbn [mbind result_bind].
  unfold Diagram.then_. simpl. rewrite decide_True by done. simpl.
  by rewrite decide_True.
Qed.

Section Snakes.
Variable moncat_normalize : Diagram → bool → list Diagram.

(** On a diagram without boxes the monoidal normaliser has no interchange
    to make and yields nothing. *)
Hypothesis moncat_normalize_Id :
  ∀ t left, moncat_normalize (Id t) left = [].

Let normal_form := Diagram.normal_form moncat_normalize.

(** C3: the left and the right snake on one wire normalise to the identity
    wire, [Id(n.r).transpose_l().normal_form() == Id(n)] and
    [Id(n.l).transpose_r().normal_form() == Id(n)]. *)
Theorem snake_normal_form (n : Ob) :
  (d ← Diagram.transpose_l (Id (Ty.r [n])); normal_form d false)
  = Ok (Id [n])
  ∧ (d ← Diagram.transpose_r (Id (Ty.l [n])); normal_form d false)
    = Ok (Id [n]).
Proof.
  rewrite Ty_r_singleton, Ty_l_singleton.
  rewrite transpose_l_wire, transpose_r_wire, Ob_l_r, Ob_r_l.
  unfold normal_form.
  unfold Diagram.normal_form, Diagram.normalize.
  assert (Hl : Diagram.snake_loop 3
            (mkDiagram [n] [n]
               [(MkCap (Ob.r n) n, 1%Z); (MkCup n (Ob.r n), 0%Z)])
          = Diagram.mkGen [Id [n]] (Ok (Id [n]))) by reflexivity.
  assert (Hr : Diagram.snake_loop 3
            (mkDiagram [n] [n]
               [(MkCap n (Ob.l n), 0%Z); (MkCup (Ob.l n) n, 1%Z)])
          = Diagram.mkGen [Id [n]] (Ok (Id [n]))) by reflexivity.
  cbn [mbind result_bind layers length]. rewrite Hl, Hr.
  cbn [mbind Diagram.Gen_bind Diagram.outcome Diagram.yields].
  rewrite moncat_normalize_Id. by split.
Qed.

(** C7: for two wires [a] and [b], [Id(a @ b).transpose_r()] is not equal
    to [Id(b).transpose_r() @ Id(a).transpose_r()], and the two diagrams
    have the same normal form. *)
Theorem double_snake_two_snakes (a b : Ob) :
  ∃ double_snake two_snakes,
    Diagram.transpose_r (Id ([a] ++ [b])) = Ok double_snake
    ∧ (tb ← Diagram.transpose_r (Id [b]);
       ta ← Diagram.transpose_r (Id [a]);
       Ok (Diagram.tensor tb ta)) = Ok two_snakes
    ∧ double_snake ≠ two_snakes
    ∧ normal_form double_snake false = normal_form two_snakes false
    ∧ normal_form double_snake false = Ok (Id (Ty.r ([a] ++ [b]))).
Proof.
  set (t := [Ob.r b; Ob.r a]).
  set (one_snake :=
         mkDiagram t t [(MkCap (Ob.r a) a, 1%Z); (MkCup a (Ob.r a), 2%Z)]).
  set (d2 := mkDiagram t t
               [(MkCap (Ob.r b) b, 0%Z); (MkCup b (Ob.r b), 1%Z);
                (MkCap (Ob.r a) a, 1%Z); (MkCup a (Ob.r a), 2%Z)]).
  set (d1 := mkDiagram t t
               [(MkCap (Ob.r b) b, 0%Z); (MkCap (Ob.r a) a, 1%Z);
                (MkCup b (Ob.r b), 3%Z); (MkCup a (Ob.r a), 2%Z)]).
  assert (H1 : Diagram.snake_loop 5 d1
            = Diagram.mkGen [d2; one_snake; Id t] (Ok (Id t)))
    by reflexivity.
  assert (H2 : Diagram.snake_loop 5 d2
            = Diagram.mkGen [one_snake; Id t] (Ok (Id t)))
    by reflexivity.
  assert (Hnf1 : normal_form d1 false = Ok (Id t)).
  { unfold normal_form, Diagram.normal_form, Diagram.normalize.
    cbn [layers length d1]. rewrite H1.
    cbn [mbind Diagram.Gen_bind Diagram.outcome Diagram.yields].
    by rewrite moncat_normalize_Id. }
  assert (Hnf2 : normal_form d2 false = Ok (Id t)).
  { unfold normal_form, Diagram.normal_form, Diagram.normalize.
    cbn [layers length d2]. rewrite H2.
    cbn [mbind Diagram.Gen_bind Diagram.outcome Diagram.yields].
    by rewrite moncat_normalize_Id. }
  exists d1, d2. split_and!.
  - apply transpose_r_two_wires.
  - by rewrite !transpose_r_wire.
  - intros [=].
  - by rewrite Hnf1, Hnf2.
  - apply Hnf1.
Qed.
End Snakes.

Lemma snake_normal_form_witness :
  (d ← Diagram.transpose_l (Id (Ty.r [mkOb "n" 0]));
   Diagram.normal_form idle_normalize d false) = Ok (Id [mkOb "n" 0])
  ∧ (d ← Diagram.transpose_r (Id (Ty.l [mkOb "n" 0]));
     Diagram.normal_form idle_normalize d false) = Ok (Id [mkOb "n" 0]).
Proof.
  apply (snake_normal_form idle_normalize). intros t left. reflexivity.
Defined.

Lemma double_snake_two_snakes_witness :
  ∃ double_snake two_snakes,
    Diagram.transpose_r (Id ([mkOb "a" 0] ++ [mkOb "b" 0])) = Ok double_snake
    ∧ (tb ← Diagram.transpose_r (Id [mkOb "b" 0]);
       ta ← Diagram.transpose_r (Id [mkOb "a" 0]);
       Ok (Diagram.tensor tb ta)) = Ok two_snakes
    ∧ double_snake ≠ two_snakes
    ∧ Diagram.normal_form idle_normalize double_snake false
      = Diagram.normal_form idle_normalize two_snakes false
    ∧ Diagram.normal_form idle_normalize double_snake false
      = Ok (Id (Ty.r ([mkOb "a" 0] ++ [mkOb "b" 0]))).
Proof.
  apply (double_snake_two_snakes idle_normalize). intros t left. reflexivity.
Defined.

(** ** Generators *)

Lemma Gen_bind_yields {A B : Type} (m : Diagram.Gen A)
    (f : A → Diagram.Gen B) (d : Diagram) :
  d ∈ Diagram.yields (m ≫= f) ↔
  d ∈ Diagram.yields m
  ∨ ∃ a, Diagram.outcome m = Ok a ∧ d ∈ Diagram.yields (f a).
Proof.
  unfold mbind, Diagram.Gen_bind. destruct (Diagram.outcome m) as [a|e]; simpl.
  - rewrite elem_of_app. split; [|by intros [?|(a' & [= <-] & ?)]; auto].
    intros [?|?]; eauto.
  - split; [auto|]. by intros [?|(a' & [=] & _)].
Qed.

Lemma Gen_bind_outcome {A B : Type} (m : Diagram.Gen A)
    (f : A → Diagram.Gen B) (b : B) :
  Diagram.outcome (m ≫= f) = Ok b ↔
  ∃ a, Diagram.outcome m = Ok a ∧ Diagram.outcome (f a) = Ok b.
Proof.
  unfold mbind, Diagram.Gen_bind. destruct (Diagram.outcome m) as [a|e]; simpl.
  - split; [eauto|]. by intros (a' & [= <-] & ?).
  - split; [done|]. by intros (a' & [=] & _).
Qed.

(** ** Interchange keeps the domain, the codomain and the number of boxes *)

Lemma same_type_refl (d : Diagram) : same_type d d.
Proof. done. Qed.

Lemma same_type_trans (d1 d2 d3 : Diagram) :
  same_type d1 d2 → same_type d2 d3 → same_type d1 d3.
Proof. intros [? ?] [? ?]. split; congruence. Qed.

Lemma interchange_adjacent_same_type (d d' : Diagram) (i : nat) (left : bool) :
  Diagram.interchange_adjacent d i left = Ok d' → same_type d d'.
Proof.
  unfold Diagram.interchange_adjacent.
  destruct (layers d !! i) as [[box0 off0]|]; [|done].
  destruct (layers d !! (i + 1)) as [[box1 off1]|]; [|done].
  repeat case_match; by intros [= <-].
Qed.

Lemma interchange_steps_same_type (steps : list nat) (d d' : Diagram)
    (left : bool) :
  Diagram.interchange_steps d steps left = Ok d' → same_type d d'.
Proof.
  revert d. induction steps as [|p steps IH]; intros d; simpl.
  - by intros [= <-].
  - destruct (Diagram.interchange_adjacent d p left) as [d1|] eqn:H1; [|done].
    simpl. intros H. eapply same_type_trans; [by eapply interchange_adjacent_same_type|eauto].
Qed.

Lemma interchange_same_type (d d' : Diagram) (i j : nat) (left : bool) :
  Diagram.interchange d i j left = Ok d' → same_type d d'.
Proof.
  unfold Diagram.interchange.
  destruct (Diagram.moncat_interchange d i j left) as [d1|] eqn:H1; [|done].
  simpl. intros [= <-]. unfold same_type. simpl.
  revert H1. unfold Diagram.moncat_interchange.
  repeat case_match; try done.
  - by intros [= <-].
  - apply interchange_steps_same_type.
  - apply interchange_steps_same_type.
  - apply interchange_adjacent_same_type.
Qed.

(** ** Every diagram yielded by the snake removal has the type of the input *)

Lemma typed_gen_bind {A B : Type} (d : Diagram) (pa : A → Diagram)
    (pb : B → Diagram) (m : Diagram.Gen A) (f : A → Diagram.Gen B) :
  typed_gen d pa m →
  (∀ a, Diagram.outcome m = Ok a → typed_gen (pa a) pb (f a)) →
  typed_gen d pb (m ≫= f).
Proof.
  intros [Hy Ho] Hf. split.
  - intros d' [?|(a & Ha & Hd')]%Gen_bind_yields; [auto|].
    eapply same_type_trans; [by apply Ho|]. by apply (Hf a Ha).
  - intros b (a & Ha & Hb)%Gen_bind_outcome.
    eapply same_type_trans; [by apply Ho|]. by apply (Hf a Ha).
Qed.

Lemma typed_gen_interchange_yield {B : Type} (d : Diagram) (i j : nat)
    (pb : B → Diagram) (k : Diagram → Diagram.Gen B) :
  (∀ d', same_type d d' → typed_gen d' pb (k d')) →
  typed_gen d pb
    (Diagram.lift (Diagram.interchange d i j false) ≫= λ d',
     Diagram.yield d' ≫= λ _, k d').
Proof.
  intros Hk.
  destruct (Diagram.interchange d i j false) as [d1|e] eqn:Hi.
  - apply interchange_same_type in Hi.
    apply (typed_gen_bind d id); [split; simpl|].
    + by intros d' ?%elem_of_nil.
    + by intros a [= <-].
    + simpl. intros a [= <-]. apply (typed_gen_bind _ (λ _, d1)).
      * split; simpl; [|done]. by intros d' ->%list_elem_of_singleton.
      * intros _ _. by apply Hk.
  - split; simpl; [|done]. by intros d' ?%elem_of_nil.
Qed.

Lemma typed_gen_ret {A : Type} (d : Diagram) (pa : A → Diagram) (a : A) :
  same_type d (pa a) → typed_gen d pa (mret a).
Proof.
  intros H. split; simpl.
  - by intros d' ?%elem_of_nil.
  - by intros a' [= <-].
Qed.

Lemma move_left_snake_left_typed (lo ro : list nat) (d : Diagram) (cap : nat) :
  typed_gen d (λ r, r.1.1) (Diagram.move_left_snake_left d cap lo ro).
Proof.
  revert d cap ro. induction lo as [|box lo IH]; intros d cap ro; simpl.
  - by apply typed_gen_ret.
  - apply typed_gen_interchange_yield. intros d' _. apply IH.
Qed.

Lemma move_left_snake_right_typed (ro : list nat) (d : Diagram) (cup : nat) :
  typed_gen d fst (Diagram.move_left_snake_right d cup ro).
Proof.
  revert d cup. induction ro as [|box ro IH]; intros d cup; simpl.
  - by apply typed_gen_ret.
  - apply typed_gen_interchange_yield. intros d' _. apply IH.
Qed.

Lemma move_right_snake_left_typed (lo ro : list nat) (d : Diagram)
    (cup : nat) :
  typed_gen d (λ r, r.1.1) (Diagram.move_right_snake_left d cup lo ro).
Proof.
  revert d cup ro. induction lo as [|box lo IH]; intros d cup ro; simpl.
  - by apply typed_gen_ret.
  - apply typed_gen_interchange_yield. intros d' _. apply IH.
Qed.

Lemma move_right_snake_right_typed (ro : list nat) (d : Diagram) (cap : nat) :
  typed_gen d fst (Diagram.move_right_snake_right d cap ro).
Proof.
  revert d cap. induction ro as [|box ro IH]; intros d cap; simpl.
  - by apply typed_gen_ret.
  - apply typed_gen_interchange_yield. intros d' _. apply IH.
Qed.

Lemma move_typed (d : Diagram) (yankable : Diagram.Move) :
  typed_gen d id (Diagram.move d yankable).
Proof.
  destruct yankable as [[[cup cap] [lo ro]] left_snake]. unfold Diagram.move.
  apply (typed_gen_bind d (λ r, r.1.1)).
  - destruct left_snake.
    + eapply typed_gen_bind; [apply move_left_snake_left_typed|].
      intros [[d1 cap1] ro1] _. simpl.
      eapply typed_gen_bind; [apply move_left_snake_right_typed|].
      intros [d2 cup2] _. by apply typed_gen_ret.
    + eapply typed_gen_bind; [apply move_right_snake_left_typed|].
      intros [[d1 cup1] ro1] _. simpl.
      eapply typed_gen_bind; [apply move_right_snake_right_typed|].
      intros [d2 cap2] _. by apply typed_gen_ret.
  - intros [[d1 cup1] cap1] _. simpl.
    apply (typed_gen_bind _ (λ _, mkDiagram (dom d1) (cod d1)
             (take cap1 (layers d1) ++ drop (cup1 + 1) (layers d1)))).
    + split; simpl; [|done]. by intros d' ->%list_elem_of_singleton.
    + intros _ _. by apply typed_gen_ret.
Qed.

Lemma snake_loop_typed (fuel : nat) (d : Diagram) :
  typed_gen d id (Diagram.snake_loop fuel d).
Proof.
  revert d. induction fuel as [|fuel IH]; intros d; simpl.
  - split; simpl; [|done]. by intros d' ?%elem_of_nil.
  - destruct (Diagram.find_move d) as [yankable|].
    + eapply typed_gen_bind; [apply move_typed|]. intros d' _. apply IH.
    + by apply typed_gen_ret.
Qed.

Section NormalizeType.
Variable moncat_normalize : Diagram → bool → list Diagram.

(** The monoidal normaliser rewrites by interchanges only: what it yields
    has the domain and the codomain of its input. *)
Hypothesis moncat_normalize_same_type :
  ∀ d left d', d' ∈ moncat_normalize d left → same_type d d'.

(** C2: every diagram yielded by [normalize], an intermediate one produced
    by an interchange or the one produced when a cup/cap pair is deleted,
    has the domain and the codomain of the input. *)
Theorem normalize_same_type (d : Diagram) (left : bool) (d' : Diagram) :
  d' ∈ Diagram.yields (Diagram.normalize moncat_normalize d left) →
  dom d' = dom d ∧ cod d' = cod d.
Proof.
  unfold Diagram.normalize.
  destruct (snake_loop_typed (S (length (layers d))) d) as [Hy Ho].
  intros [?|(d1 & H1 & Hd')]%Gen_bind_yields; [by apply Hy|].
  simpl in Hd'. change (same_type d d').
  eapply same_type_trans; [by apply Ho|].
  by eapply moncat_normalize_same_type.
Qed.
End NormalizeType.

Lemma normalize_same_type_witness :
  dom doctest_normal_form = dom doctest_diagram
  ∧ cod doctest_normal_form = cod doctest_diagram.
Proof.
  apply (normalize_same_type idle_normalize) with (left := false).
  - intros d left d' Hin. by apply elem_of_nil in Hin.
  - apply (list_elem_of_lookup_2 _ 2). reflexivity.
Defined.

(** ** Interchange, computed on explicit lists of layers *)

Lemma len_dom_nonneg (b : Box) : (0 ≤ Diagram.len_dom b)%Z.
Proof. unfold Diagram.len_dom. lia. Qed.

Lemma len_cod_nonneg (b : Box) : (0 ≤ Diagram.len_cod b)%Z.
Proof. unfold Diagram.len_cod. lia. Qed.

Lemma interchange_adjacent_layers (dm cd : Ty) (pre post : list (Box * Z))
    (box0 box1 : Box) (off0 off1 : Z) :
  Diagram.interchange_adjacent
    (mkDiagram dm cd (pre ++ (box0, off0) :: (box1, off1) :: post))
    (length pre) false =
  if bool_decide (off1 + Diagram.len_dom box1 ≤ off0)%Z
  then Ok (mkDiagram dm cd
             (pre ++ (box1, off1)
                  :: (box0, (off0 - Diagram.len_dom box1
                             + Diagram.len_cod box1)%Z) :: post))
  else if bool_decide (off0 + Diagram.len_cod box0 ≤ off1)%Z
  then Ok (mkDiagram dm cd
             (pre ++ (box1, (off1 - Diagram.len_cod box0
                             + Diagram.len_dom box0)%Z)
                  :: (box0, off0) :: post))
  else Raise InterchangerError.
Proof.
  unfold Diagram.interchange_adjacent. cbn [layers dom cod andb].
  rewrite lookup_app_r, Nat.sub_diag by lia. cbn [lookup list_lookup].
  rewrite lookup_app_r by lia.
  replace (length pre + 1 - length pre) with 1 by lia. cbn [lookup list_lookup].
  rewrite take_app_length.
  rewrite drop_app_ge by lia.
  replace (length pre + 2 - length pre) with 2 by lia. cbn [drop].
  reflexivity.
Qed.

(** Bringing a box from position [i] to a position [j] is a sequence of
    adjacent swaps, upwards or downwards. *)
Lemma moncat_interchange_up (d : Diagram) (i j : nat) :
  j < i < length (layers d) →
  Diagram.moncat_interchange d i j false =
  Diagram.interchange_steps d (reverse (seq j (i - j))) false.
Proof.
  intros Hij. unfold Diagram.moncat_interchange.
  rewrite !bool_decide_eq_true_2 by lia. cbn [negb orb].
  rewrite bool_decide_eq_false_2 by lia.
  case_bool_decide as Hfar.
  - f_equal. apply list_eq. intros k.
    rewrite list_lookup_fmap.
    destruct (decide (k < i - j)) as [Hk|Hk].
    + rewrite lookup_seq_lt by done. simpl.
      rewrite reverse_lookup by (rewrite length_seq; lia).
      rewrite length_seq, lookup_seq_lt by lia. f_equal. lia.
    + rewrite lookup_seq_ge by lia. simpl. symmetry.
      apply lookup_ge_None. rewrite length_reverse, length_seq. lia.
  - rewrite bool_decide_eq_false_2 by lia.
    replace (i - j) with 1 by lia. replace (i `min` j) with j by lia.
    simpl. by destruct (Diagram.interchange_adjacent d j false).
Qed.

Lemma moncat_interchange_down (d : Diagram) (i j : nat) :
  i < j < length (layers d) →
  Diagram.moncat_interchange d i j false =
  Diagram.interchange_steps d (seq i (j - i)) false.
Proof.
  intros Hij. unfold Diagram.moncat_interchange.
  rewrite !bool_decide_eq_true_2 by lia. cbn [negb orb].
  rewrite !bool_decide_eq_false_2 by lia.
  case_bool_decide as Hfar.
  - f_equal. apply list_eq. intros k.
    rewrite list_lookup_fmap.
    destruct (decide (k < j - i)) as [Hk|Hk].
    + by rewrite !lookup_seq_lt by done.
    + by rewrite !lookup_seq_ge by lia.
  - replace (j - i) with 1 by lia. replace (i `min` j) with i by lia.
    simpl. by destruct (Diagram.interchange_adjacent d i false).
Qed.

(** A box whose domain ends at or before the offset of every box of the
    block [X] above it goes up past the block. *)
Lemma interchange_steps_up (dm cd : Ty) (X pre post : list (Box * Z))
    (b : Box) (o : Z) :
  Forall (λ l, o + Diagram.len_dom b ≤ l.2)%Z X →
  Diagram.interchange_steps
    (mkDiagram dm cd (pre ++ X ++ (b, o) :: post))
    (reverse (seq (length pre) (length X))) false =
  Ok (mkDiagram dm cd
        (pre ++ (b, o) :: (shift_by (width_change b) <$> X) ++ post)).
Proof.
  revert post. induction X as [|[bx ox] X IH] using rev_ind; intros post HX.
  { reflexivity. }
  apply Forall_app in HX as [HX Hx]. rewrite Forall_singleton in Hx.
  simpl in Hx.
  rewrite length_app, seq_app, reverse_app. cbn [length seq reverse app].
  change (reverse [length pre + length X]) with [length pre + length X].
  cbn [app Diagram.interchange_steps].
  rewrite <- (length_app pre X).
  rewrite <- (app_assoc X), (app_assoc pre X). cbn [app].
  rewrite interchange_adjacent_layers.
  rewrite bool_decide_eq_true_2 by lia. cbn [mbind result_bind].
  rewrite <- app_assoc, IH by done.
  rewrite fmap_app, <- app_assoc. cbn [fmap list_fmap app].
  unfold shift_by at 3. unfold width_change at 2. cbn [fst snd].
  by replace (ox - Diagram.len_dom b + Diagram.len_cod b)%Z
    with (ox + (Diagram.len_cod b - Diagram.len_dom b))%Z by lia.
Qed.

(** A box that ends to the left of every box of the block [X] below it goes
    down past the block. *)
Lemma interchange_steps_down (dm cd : Ty) (X pre post : list (Box * Z))
    (b : Box) (o : Z) :
  Forall (λ l, o < l.2 + Diagram.len_dom l.1
               ∧ o + Diagram.len_cod b ≤ l.2)%Z X →
  Diagram.interchange_steps
    (mkDiagram dm cd (pre ++ (b, o) :: X ++ post))
    (seq (length pre) (length X)) false =
  Ok (mkDiagram dm cd
        (pre ++ (shift_by (- width_change b) <$> X) ++ (b, o) :: post)).
Proof.
  revert pre. induction X as [|[bx ox] X IH]; intros pre HX.
  { reflexivity. }
  apply Forall_cons in HX as [[Hx1 Hx2] HX]. simpl in Hx1, Hx2.
  cbn [length seq app Diagram.interchange_steps].
  rewrite interchange_adjacent_layers.
  rewrite bool_decide_eq_false_2 by lia.
  rewrite bool_decide_eq_true_2 by lia. cbn [mbind result_bind].
  specialize (IH (pre ++ [(bx, (ox - Diagram.len_cod b + Diagram.len_dom b)%Z)])
                HX).
  rewrite length_app, <- !app_assoc in IH. cbn [length app] in IH.
  rewrite Nat.add_1_r in IH. rewrite IH.
  cbn [fmap list_fmap app].
  unfold shift_by at 1. unfold width_change at 1. cbn [fst snd].
  by replace (ox - Diagram.len_cod b + Diagram.len_dom b)%Z
    with (ox + - (Diagram.len_cod b - Diagram.len_dom b))%Z by lia.
Qed.

Lemma interchange_up (dm cd : Ty) (X pre post : list (Box * Z))
    (b : Box) (o : Z) :
  X ≠ [] →
  Forall (λ l, o + Diagram.len_dom b ≤ l.2)%Z X →
  Diagram.interchange
    (mkDiagram dm cd (pre ++ X ++ (b, o) :: post))
    (length pre + length X) (length pre) false =
  Ok (mkDiagram dm cd
        (pre ++ (b, o) :: (shift_by (width_change b) <$> X) ++ post)).
Proof.
  intros HX Hall. unfold Diagram.interchange.
  assert (0 < length X) by (destruct X; [done|simpl; lia]).
  rewrite moncat_interchange_up
    by (cbn [layers]; rewrite !length_app; simpl; lia).
  replace (length pre + length X - length pre) with (length X) by lia.
  by rewrite interchange_steps_up.
Qed.

Lemma interchange_down (dm cd : Ty) (X pre post : list (Box * Z))
    (b : Box) (o : Z) :
  X ≠ [] →
  Forall (λ l, o < l.2 + Diagram.len_dom l.1
               ∧ o + Diagram.len_cod b ≤ l.2)%Z X →
  Diagram.interchange
    (mkDiagram dm cd (pre ++ (b, o) :: X ++ post))
    (length pre) (length pre + length X) false =
  Ok (mkDiagram dm cd
        (pre ++ (shift_by (- width_change b) <$> X) ++ (b, o) :: post)).
Proof.
  intros HX Hall. unfold Diagram.interchange.
  assert (0 < length X) by (destruct X; [done|simpl; lia]).
  rewrite moncat_interchange_down
    by (cbn [layers]; rewrite !length_app; simpl; rewrite length_app; lia).
  replace (length pre + length X - length pre) with (length X) by lia.
  by rewrite interchange_steps_down.
Qed.

(** ** What [follow_wire] finds between a cap and a cup *)

Lemma follow_wire_loop_Scan (rest : list (Box * Z)) (n i : nat) (j : Z)
    (lo0 ro0 : list nat) (u : nat) (jf : Z) (lo' ro' : list nat) :
  Diagram.follow_wire_loop rest n i j lo0 ro0 = (u, jf, (lo', ro')) →
  n = i + length rest → u ≠ n →
  ∃ mid t post lo ro,
    rest = mid ++ t :: post ∧ u = i + length mid ∧ Scan i j mid jf lo ro
    ∧ lo' = lo0 ++ lo ∧ ro' = ro0 ++ ro.
Proof.
  revert i j lo0 ro0.
  induction rest as [|[box off] rest IH]; intros i j lo0 ro0; simpl.
  { intros [= <- <- <- <-] _ Hu. done. }
  intros Hloop Hn Hu.
  destruct (decide (off ≤ j)%Z) as [Hle|Hle];
    [destruct (decide (j < off + Diagram.len_dom box)%Z) as [Hlt|Hlt]|].
  - rewrite !bool_decide_eq_true_2 in Hloop by done. simpl in Hloop.
    injection Hloop as <- <- <- <-.
    exists [], (box, off), rest, [], []. rewrite !app_nil_r. simpl.
    split_and!; first [done | lia | constructor].
  - rewrite (bool_decide_eq_false_2 (j < _)%Z) in Hloop by done.
    rewrite bool_decide_eq_true_2 in Hloop by done. simpl in Hloop.
    apply IH in Hloop as (mid & t & post & lo & ro & -> & -> & HS & -> & ->);
      [|lia|done].
    exists ((box, off) :: mid), t, post, (i :: lo), ro.
    rewrite <- !app_assoc. simpl. split_and!; try first [done | lia].
    apply Scan_left; [lia|].
    replace (S i) with (i + 1) by lia.
    by replace (j + width_change box)%Z
      with (j + Diagram.len_cod box - Diagram.len_dom box)%Z
      by (unfold width_change; lia).
  - rewrite !(bool_decide_eq_false_2 (off ≤ j)%Z) in Hloop by done.
    simpl in Hloop.
    apply IH in Hloop as (mid & t & post & lo & ro & -> & -> & HS & -> & ->);
      [|lia|done].
    exists ((box, off) :: mid), t, post, lo, (i :: ro).
    rewrite <- !app_assoc. simpl. split_and!; try first [done | lia].
    apply Scan_right; [lia|]. by replace (S i) with (i + 1) by lia.
Qed.

Lemma Scan_bounds (i : nat) (j : Z) (mid : list (Box * Z)) (jf : Z)
    (lo ro : list nat) :
  Scan i j mid jf lo ro →
  Forall (λ r, i ≤ r < i + length mid) lo
  ∧ Forall (λ r, i ≤ r < i + length mid) ro.
Proof.
  induction 1 as [| i j box off mid jf lo ro _ _ [IHl IHr]
                  | i j box off mid jf lo ro _ _ [IHl IHr]]; simpl.
  - by split.
  - split; [constructor; [lia|]|];
      (eapply Forall_impl; [eassumption|]); simpl; intros; lia.
  - split; [|constructor; [lia|]];
      (eapply Forall_impl; [eassumption|]); simpl; intros; lia.
Qed.

Lemma Scan_no_left (i : nat) (j : Z) (mid : list (Box * Z)) (jf : Z)
    (ro : list nat) :
  Scan i j mid jf [] ro →
  jf = j ∧ Forall (λ l, j < l.2)%Z mid ∧ ro = seq i (length mid).
Proof.
  intros H. remember [] as lo eqn:Hlo.
  induction H as [| |i j box off mid jf lo ro Hoff _ IH]; [done|done|].
  destruct (IH Hlo) as (-> & Hall & ->). simpl. split_and!; [done| |done].
  by constructor.
Qed.

Lemma Scan_all_right (i : nat) (j : Z) (mid : list (Box * Z)) :
  Forall (λ l, j < l.2)%Z mid → Scan i j mid j [] (seq i (length mid)).
Proof.
  revert i. induction mid as [|[box off] mid IH]; intros i Hall; simpl.
  - constructor.
  - apply Forall_cons in Hall as [Hoff Hall]. apply Scan_right; auto.
Qed.

Lemma Scan_app (i : nat) (j : Z) (m1 m2 : list (Box * Z)) (j1 jf : Z)
    (lo1 ro1 lo2 ro2 : list nat) :
  Scan i j m1 j1 lo1 ro1 →
  Scan (i + length m1) j1 m2 jf lo2 ro2 →
  Scan i j (m1 ++ m2) jf (lo1 ++ lo2) (ro1 ++ ro2).
Proof.
  induction 1 as [i j | i j box off mid j1 lo ro Hoff _ IH
                  | i j box off mid j1 lo ro Hoff _ IH]; simpl; intros H2.
  - by rewrite Nat.add_0_r in H2.
  - apply Scan_left; [done|]. apply IH.
    by replace (S i + length mid) with (i + S (length mid)) by lia.
  - apply Scan_right; [done|]. apply IH.
    by replace (S i + length mid) with (i + S (length mid)) by lia.
Qed.

(** The first box on the left of the wire, and the boxes on the right that
    come before it. *)
Lemma Scan_first_left (i : nat) (j : Z) (mid : list (Box * Z)) (jf : Z)
    (l : nat) (lo ro : list nat) :
  Scan i j mid jf (l :: lo) ro →
  ∃ Rs box off mid2 ro2,
    mid = Rs ++ (box, off) :: mid2 ∧ l = i + length Rs
    ∧ Forall (λ x, j < x.2)%Z Rs
    ∧ (off + Diagram.len_dom box ≤ j)%Z
    ∧ Scan (S l) (j + width_change box) mid2 jf lo ro2
    ∧ ro = seq i (length Rs) ++ ro2.
Proof.
  intros H. remember (l :: lo) as lo' eqn:Hlo.
  induction H as [| i j box off mid jf lo0 ro Hoff HS _
                  | i j box off mid jf lo0 ro Hoff _ IH]; [done| |].
  - injection Hlo as -> ->.
    exists [], box, off, mid, ro. simpl. rewrite Nat.add_0_r.
    split_and!; try done; constructor.
  - destruct (IH Hlo) as (Rs & b & o & mid2 & ro2 & -> & -> & Hall & Ho & HS & ->).
    exists ((box, off) :: Rs), b, o, mid2, ro2. simpl.
    split_and!; first [done | lia | by constructor].
Qed.

(** The last box on the left of the wire, and the boxes on the right that
    come after it. *)
Lemma Scan_last_left (i : nat) (j : Z) (mid : list (Box * Z)) (jf : Z)
    (l : nat) (lo ro : list nat) :
  Scan i j mid jf (lo ++ [l]) ro →
  ∃ mid1 box off Rs ro1 jl,
    mid = mid1 ++ (box, off) :: Rs ∧ l = i + length mid1
    ∧ Scan i j mid1 jl lo ro1
    ∧ (off + Diagram.len_dom box ≤ jl)%Z
    ∧ jf = (jl + width_change box)%Z
    ∧ Forall (λ x, jf < x.2)%Z Rs
    ∧ ro = ro1 ++ seq (S l) (length Rs).
Proof.
  intros H. remember (lo ++ [l]) as lo' eqn:Hlo. revert lo Hlo.
  induction H as [| i j box off mid jf lo0 ro Hoff HS IH
                  | i j box off mid jf lo0 ro Hoff _ IH]; intros lo Hlo.
  - by destruct lo.
  - destruct lo as [|l0 lo]; simpl in Hlo.
    + injection Hlo as -> ->.
      apply Scan_no_left in HS as (-> & Hall & ->).
      exists [], box, off, mid, [], j. simpl. rewrite Nat.add_0_r.
      split_and!; try done; constructor.
    + injection Hlo as <- ->.
      destruct (IH lo eq_refl)
        as (mid1 & b & o & Rs & ro1 & jl & -> & -> & HS1 & Ho & -> & Hall & ->).
      exists ((box, off) :: mid1), b, o, Rs, ro1, jl. simpl.
      split_and!; first [done | lia | by apply Scan_left].
  - destruct (IH lo Hlo)
      as (mid1 & b & o & Rs & ro1 & jl & -> & -> & HS1 & Ho & -> & Hall & ->).
    exists ((box, off) :: mid1), b, o, Rs, (i :: ro1), jl. simpl.
    split_and!; first [done | lia | by apply Scan_right].
Qed.

(** ** The loops of [move] never raise *)

Lemma Gen_bind_Ok {A B : Type} (m : Diagram.Gen A) (f : A → Diagram.Gen B)
    (a : A) :
  Diagram.outcome m = Ok a →
  m ≫= f = Diagram.mkGen (Diagram.yields m ++ Diagram.yields (f a))
             (Diagram.outcome (f a)).
Proof. intros H. unfold mbind, Diagram.Gen_bind. by rewrite H. Qed.

Lemma outcome_interchange_yield {B : Type} (d d1 : Diagram) (i j : nat)
    (k : Diagram → Diagram.Gen B) :
  Diagram.interchange d i j false = Ok d1 →
  Diagram.outcome
    (Diagram.lift (Diagram.interchange d i j false) ≫= λ d',
     Diagram.yield d' ≫= λ _, k d')
  = Diagram.outcome (k d1).
Proof. intros ->. unfold mbind, Diagram.Gen_bind. simpl. by destruct (k d1) as [? []]. Qed.

(** Two adjacent boxes are swapped, whichever of the two indices is given
    first. *)
Lemma interchange_right_over (dm cd : Ty) (pre post : list (Box * Z))
    (box0 box1 : Box) (off0 off1 : Z) (i j : nat) :
  (i = length pre ∧ j = length pre + 1) ∨ (i = length pre + 1 ∧ j = length pre) →
  (off1 + Diagram.len_dom box1 ≤ off0)%Z →
  Diagram.interchange
    (mkDiagram dm cd (pre ++ (box0, off0) :: (box1, off1) :: post)) i j false =
  Ok (mkDiagram dm cd
        (pre ++ (box1, off1)
             :: (box0, (off0 + width_change box1)%Z) :: post)).
Proof.
  intros Hij Hoff. unfold Diagram.interchange.
  destruct Hij as [[-> ->]|[-> ->]].
  - rewrite moncat_interchange_down
      by (cbn [layers]; rewrite length_app; simpl; lia).
    replace (length pre + 1 - length pre) with 1 by lia.
    cbn [seq Diagram.interchange_steps]. rewrite interchange_adjacent_layers.
    rewrite bool_decide_eq_true_2 by done. cbn [mbind result_bind dom cod layers].
    unfold width_change. do 5 f_equal; f_equal; lia.
  - rewrite moncat_interchange_up
      by (cbn [layers]; rewrite length_app; simpl; lia).
    replace (length pre + 1 - length pre) with 1 by lia.
    cbn [seq reverse Diagram.interchange_steps].
    change (reverse [length pre]) with [length pre].
    cbn [Diagram.interchange_steps]. rewrite interchange_adjacent_layers.
    rewrite bool_decide_eq_true_2 by done. cbn [mbind result_bind dom cod layers].
    unfold width_change. do 5 f_equal; f_equal; lia.
Qed.

Lemma interchange_left_over (dm cd : Ty) (pre post : list (Box * Z))
    (box0 box1 : Box) (off0 off1 : Z) (i j : nat) :
  (i = length pre ∧ j = length pre + 1) ∨ (i = length pre + 1 ∧ j = length pre) →
  (off0 < off1 + Diagram.len_dom box1)%Z →
  (off0 + Diagram.len_cod box0 ≤ off1)%Z →
  Diagram.interchange
    (mkDiagram dm cd (pre ++ (box0, off0) :: (box1, off1) :: post)) i j false =
  Ok (mkDiagram dm cd
        (pre ++ (box1, (off1 - width_change box0)%Z)
             :: (box0, off0) :: post)).
Proof.
  intros Hij Hoff1 Hoff2. unfold Diagram.interchange.
  destruct Hij as [[-> ->]|[-> ->]].
  - rewrite moncat_interchange_down
      by (cbn [layers]; rewrite length_app; simpl; lia).
    replace (length pre + 1 - length pre) with 1 by lia.
    cbn [seq Diagram.interchange_steps]. rewrite interchange_adjacent_layers.
    rewrite bool_decide_eq_false_2 by lia.
    rewrite bool_decide_eq_true_2 by done. cbn [mbind result_bind dom cod layers].
    unfold width_change. do 5 f_equal; f_equal; lia.
  - rewrite moncat_interchange_up
      by (cbn [layers]; rewrite length_app; simpl; lia).
    replace (length pre + 1 - length pre) with 1 by lia.
    cbn [seq reverse Diagram.interchange_steps].
    change (reverse [length pre]) with [length pre].
    cbn [Diagram.interchange_steps]. rewrite interchange_adjacent_layers.
    rewrite bool_decide_eq_false_2 by lia.
    rewrite bool_decide_eq_true_2 by done. cbn [mbind result_bind dom cod layers].
    unfold width_change. do 5 f_equal; f_equal; lia.
Qed.

(** The index updates that [move] makes on [right_obstruction]. *)
Lemma bump_below (l : nat) (a n : nat) (ro2 : list nat) :
  a + n ≤ l → Forall (λ r, l < r) ro2 →
  (λ right_box, if bool_decide (right_box < l) then right_box + 1
                else right_box) <$> (seq a n ++ ro2)
  = seq (S a) n ++ ro2.
Proof.
  intros Hl Hro. rewrite fmap_app. f_equal.
  - rewrite <- fmap_S_seq. apply list_fmap_ext. 
    intros k r [-> Hk]%lookup_seq. rewrite bool_decide_eq_true_2 by lia. lia.
  - rewrite <- (list_fmap_id ro2) at 2. apply Forall_fmap_ext_1.
    eapply Forall_impl; [done|]. simpl. intros r Hr.
    by rewrite bool_decide_eq_false_2 by lia.
Qed.

Lemma drop_above (l : nat) (a n : nat) (ro1 : list nat) :
  Forall (λ r, r ≤ l) ro1 → l ≤ a →
  (λ right_box, if bool_decide (l < right_box) then right_box - 1
                else right_box) <$> (ro1 ++ seq (S a) n)
  = ro1 ++ seq a n.
Proof.
  intros Hro Hl. rewrite fmap_app. f_equal.
  - rewrite <- (list_fmap_id ro1) at 2. apply Forall_fmap_ext_1.
    eapply Forall_impl; [done|]. simpl. intros r Hr.
    by rewrite bool_decide_eq_false_2 by lia.
  - rewrite <- fmap_S_seq, <- list_fmap_compose.
    rewrite <- (list_fmap_id (seq a n)) at 2. apply list_fmap_ext.
    intros k r [-> Hk]%lookup_seq. simpl.
    rewrite bool_decide_eq_true_2 by lia. lia.
Qed.

(** Left snake, first loop: every box on the left of the wire goes above the
    cap; the boxes that remain between the cap and the cup are on the right
    of the wire, which now runs straight down from the cap. *)
Lemma move_left_snake_left_outcome (lo : list nat) (dm cd : Ty)
    (capbox : Box) (rest : list (Box * Z)) (jf : Z) :
  ∀ (pre : list (Box * Z)) (oc : Z) (mid : list (Box * Z)) (ro : list nat),
  Scan (S (length pre)) oc mid jf lo ro →
  ∃ pre' mid',
    Diagram.outcome
      (Diagram.move_left_snake_left
         (mkDiagram dm cd (pre ++ (capbox, oc) :: mid ++ rest))
         (length pre) lo ro)
    = Ok (mkDiagram dm cd (pre' ++ (capbox, jf) :: mid' ++ rest),
          length pre', seq (S (length pre')) (length mid'))
    ∧ Forall (λ l, jf < l.2)%Z mid'
    ∧ length pre' + length mid' = length pre + length mid.
Proof.
  induction lo as [|l lo IH]; intros pre oc mid ro HS.
  { apply Scan_no_left in HS as (-> & Hall & ->). by exists pre, mid. }
  apply Scan_first_left in HS
    as (Rs & b & o & mid2 & ro2 & -> & -> & Hall & Ho & HS & ->).
  pose proof (Scan_bounds _ _ _ _ _ _ HS) as [_ Hro2].
  cbn [Diagram.move_left_snake_left].
  assert (Hi : Diagram.interchange
            (mkDiagram dm cd
               (pre ++ (capbox, oc) :: (Rs ++ (b, o) :: mid2) ++ rest))
            (S (length pre) + length Rs) (length pre) false
          = Ok (mkDiagram dm cd
                  ((pre ++ [(b, o)])
                   ++ (capbox, (oc + width_change b)%Z)
                      :: ((shift_by (width_change b) <$> Rs) ++ mid2)
                      ++ rest))).
  { pose proof (interchange_up dm cd ((capbox, oc) :: Rs) pre
                  (mid2 ++ rest) b o ltac:(done)) as H.
    cbn [length app fmap list_fmap] in H.
    rewrite <- !app_assoc. cbn [app].
    replace (S (length pre) + length Rs) with (length pre + S (length Rs))
      by lia.
    rewrite H; [done|].
    constructor; [simpl; lia|].
    eapply Forall_impl; [exact Hall|]. simpl. intros; lia. }
  rewrite (outcome_interchange_yield _ _ _ _ _ Hi).
  rewrite bump_below; [| lia | by eapply Forall_impl; [exact Hro2|]; simpl; lia].
  replace (length pre + 1) with (length (pre ++ [(b, o)]))
    by (by rewrite length_app).
  replace (seq (S (S (length pre))) (length Rs))
    with (seq (S (length (pre ++ [(b, o)])))
            (length (shift_by (width_change b) <$> Rs)))
    by (rewrite length_app, length_fmap; simpl; do 2 f_equal; lia).
  destruct (IH (pre ++ [(b, o)]) (oc + width_change b)%Z
              ((shift_by (width_change b) <$> Rs) ++ mid2)
              (seq (S (length (pre ++ [(b, o)])))
                 (length (shift_by (width_change b) <$> Rs)) ++ ro2))
    as (pre' & mid' & Hout & Hall' & Hlen).
  { eapply (Scan_app _ _ _ _ _ _ [] _ lo ro2).
    - apply Scan_all_right. apply Forall_fmap.
      eapply Forall_impl; [exact Hall|]. simpl. intros; lia.
    - rewrite length_app, length_fmap. simpl.
      by replace (S (length pre + 1 + length Rs))
        with (S (S (length pre) + length Rs)) by lia. }
  exists pre', mid'. split_and!; [done|done|].
  rewrite Hlen, !length_app, length_fmap. simpl. lia.
Qed.

(** Left snake, second loop: the boxes on the right of the wire, last first,
    go below the cup. *)
Lemma move_left_snake_right_outcome (mid : list (Box * Z)) (dm cd : Ty)
    (front : list (Box * Z)) (cupbox : Box) (ou : Z) :
  ∀ post : list (Box * Z),
  Forall (λ l, ou + Diagram.len_dom cupbox ≤ l.2)%Z mid →
  Diagram.outcome
    (Diagram.move_left_snake_right
       (mkDiagram dm cd (front ++ mid ++ (cupbox, ou) :: post))
       (length front + length mid)
       (reverse (seq (length front) (length mid))))
  = Ok (mkDiagram dm cd
          (front ++ (cupbox, ou)
                 :: (shift_by (width_change cupbox) <$> mid) ++ post),
        length front).
Proof.
  induction mid as [|[b o] mid IH] using rev_ind; intros post Hall.
  { simpl. by rewrite Nat.add_0_r. }
  apply Forall_app in Hall as [Hall Hb]. rewrite Forall_singleton in Hb.
  simpl in Hb.
  rewrite length_app, seq_app, reverse_app. cbn [length seq].
  change (reverse [length front + length mid])
    with [length front + length mid].
  cbn [app Diagram.move_left_snake_right].
  assert (Hi : Diagram.interchange
            (mkDiagram dm cd
               (front ++ (mid ++ [(b, o)]) ++ (cupbox, ou) :: post))
            (length front + length mid)
            (length front + (length mid + 1)) false
          = Ok (mkDiagram dm cd
                  (front ++ mid ++ (cupbox, ou)
                         :: (b, (o + width_change cupbox)%Z) :: post))).
  { pose proof (interchange_right_over dm cd (front ++ mid) post b cupbox o ou
                  (length front + length mid)
                  (length front + (length mid + 1))) as H.
    rewrite length_app, <- !app_assoc in H. cbn [app] in H.
    rewrite <- !app_assoc. cbn [app]. apply H; [left; lia|done]. }
  rewrite (outcome_interchange_yield _ _ _ _ _ Hi).
  replace (length front + (length mid + 1) - 1)
    with (length front + length mid) by lia.
  rewrite IH by done.
  by rewrite fmap_app, <- !app_assoc.
Qed.

(** Right snake, second loop: the boxes on the right of the wire go above
    the cap. *)
Lemma move_right_snake_right_outcome (mid : list (Box * Z)) (dm cd : Ty)
    (capbox : Box) (oc : Z) (rest : list (Box * Z)) :
  ∀ front : list (Box * Z),
  Forall (λ l, oc < l.2 + Diagram.len_dom l.1
               ∧ oc + Diagram.len_cod capbox ≤ l.2)%Z mid →
  Diagram.outcome
    (Diagram.move_right_snake_right
       (mkDiagram dm cd (front ++ (capbox, oc) :: mid ++ rest))
       (length front) (seq (S (length front)) (length mid)))
  = Ok (mkDiagram dm cd
          (front ++ (shift_by (- width_change capbox) <$> mid)
                 ++ (capbox, oc) :: rest),
        length front + length mid).
Proof.
  induction mid as [|[b o] mid IH]; intros front Hall.
  { simpl. by rewrite Nat.add_0_r. }
  apply Forall_cons in Hall as [[Hb1 Hb2] Hall]. simpl in Hb1, Hb2.
  cbn [length seq app Diagram.move_right_snake_right].
  assert (Hi : Diagram.interchange
            (mkDiagram dm cd (front ++ (capbox, oc) :: (b, o) :: mid ++ rest))
            (S (length front)) (length front) false
          = Ok (mkDiagram dm cd
                  ((front ++ [(b, (o - width_change capbox)%Z)])
                   ++ (capbox, oc) :: mid ++ rest))).
  { rewrite <- app_assoc. cbn [app].
    apply interchange_left_over; [right; lia|done|done]. }
  rewrite (outcome_interchange_yield _ _ _ _ _ Hi).
  specialize (IH (front ++ [(b, (o - width_change capbox)%Z)]) Hall).
  rewrite length_app in IH. cbn [length] in IH.
  replace (S (length front + 1)) with (S (S (length front))) in IH by lia.
  rewrite IH. rewrite <- !app_assoc. cbn [app fmap list_fmap].
  unfold shift_by at 2. cbn [fst snd].
  replace (o + - width_change capbox)%Z with (o - width_change capbox)%Z
    by lia.
  by replace (length front + S (length mid))
    with (length front + 1 + length mid) by lia.
Qed.

(** Right snake, first loop: every box on the left of the wire, last first,
    goes below the cup; the boxes that remain between the cap and the cup
    are on the right of the wire, which now runs straight down to the cup. *)
Lemma move_right_snake_left_outcome (lo : list nat) (dm cd : Ty)
    (front : list (Box * Z)) (cupbox : Box) (j0 : Z) :
  (0 < Diagram.len_dom cupbox)%Z →
  ∀ (mid : list (Box * Z)) (ro : list nat) (jf : Z) (post : list (Box * Z)),
  Scan (length front) j0 mid jf lo ro →
  ∃ mid' post',
    Diagram.outcome
      (Diagram.move_right_snake_left
         (mkDiagram dm cd (front ++ mid ++ (cupbox, jf) :: post))
         (length front + length mid) (reverse lo) ro)
    = Ok (mkDiagram dm cd (front ++ mid' ++ (cupbox, j0) :: post'),
          length front + length mid', seq (length front) (length mid'))
    ∧ Forall (λ l, j0 < l.2)%Z mid'
    ∧ length mid' + length post' = length mid + length post.
Proof.
  intros Hcup.
  induction lo as [|l lo IH] using rev_ind; intros mid ro jf post HS.
  { apply Scan_no_left in HS as (-> & Hall & ->). by exists mid, post. }
  apply Scan_last_left in HS
    as (mid1 & b & o & Rs & ro1 & jl & -> & -> & HS & Ho & -> & Hall & ->).
  pose proof (Scan_bounds _ _ _ _ _ _ HS) as [_ Hro1].
  rewrite reverse_app. change (reverse [length front + length mid1])
    with [length front + length mid1].
  cbn [app Diagram.move_right_snake_left].
  pose proof (len_cod_nonneg b) as Hcod.
  assert (Hi : Diagram.interchange
            (mkDiagram dm cd
               (front ++ (mid1 ++ (b, o) :: Rs)
                      ++ (cupbox, (jl + width_change b)%Z) :: post))
            (length front + length mid1)
            (length front + length (mid1 ++ (b, o) :: Rs)) false
          = Ok (mkDiagram dm cd
                  (front ++ (mid1 ++ (shift_by (- width_change b) <$> Rs))
                         ++ (cupbox, jl) :: (b, o) :: post))).
  { pose proof (interchange_down dm cd
                  (Rs ++ [(cupbox, (jl + width_change b)%Z)])
                  (front ++ mid1) post b o) as H.
    rewrite !length_app, fmap_app, <- !app_assoc in H.
    cbn [length app fmap list_fmap] in H.
    rewrite length_app, <- !app_assoc. cbn [length app].
    replace (length front + (length mid1 + S (length Rs)))
      with (length front + length mid1 + (length Rs + 1)) by lia.
    rewrite H.
    - unfold shift_by at 2. cbn [fst snd].
      by replace (jl + width_change b + - width_change b)%Z with jl by lia.
    - by destruct Rs.
    - unfold width_change in *. apply Forall_app. split.
      + eapply Forall_impl; [exact Hall|]. simpl. intros x Hx.
        pose proof (len_dom_nonneg x.1). lia.
      + apply Forall_singleton. simpl. lia. }
  rewrite (outcome_interchange_yield _ _ _ _ _ Hi).
  rewrite drop_above;
    [| by eapply Forall_impl; [exact Hro1|]; simpl; lia | lia].
  replace (length front + length (mid1 ++ (b, o) :: Rs) - 1)
    with (length front
          + length (mid1 ++ (shift_by (- width_change b) <$> Rs)))
    by (rewrite !length_app, length_fmap; simpl; lia).
  replace (seq (length front + length mid1) (length Rs))
    with (seq (length front + length mid1)
            (length (shift_by (- width_change b) <$> Rs)))
    by (by rewrite length_fmap).
  destruct (IH (mid1 ++ (shift_by (- width_change b) <$> Rs))
              (ro1 ++ seq (length front + length mid1)
                        (length (shift_by (- width_change b) <$> Rs)))
              jl ((b, o) :: post))
    as (mid' & post' & Hout & Hall' & Hlen).
  { rewrite <- (app_nil_r lo).
    eapply Scan_app; [exact HS|].
    apply Scan_all_right. apply Forall_fmap.
    eapply Forall_impl; [exact Hall|]. simpl. intros; lia. }
  exists mid', post'. split_and!; [done|done|].
  rewrite Hlen, !length_app, length_fmap. simpl. lia.
Qed.

(** ** What [find_move] returns *)

Lemma try_leg_Some (d : Diagram) (cap : nat) (left_snake : bool) (wire : Z)
    (m : Diagram.Move) :
  Diagram.try_leg d cap left_snake wire = Some m →
  ∃ cup wire' lo ro cupbox ou,
    m = (cup, cap, (lo, ro), left_snake)
    ∧ Diagram.follow_wire d cap wire = (cup, wire', (lo, ro))
    ∧ cup ≠ length (layers d)
    ∧ layers d !! cup = Some (cupbox, ou)
    ∧ Box.is_Cup cupbox = true
    ∧ (if left_snake then ou + 1 = wire' else ou = wire')%Z.
Proof.
  unfold Diagram.try_leg.
  destruct (Diagram.follow_wire d cap wire) as [[cup wire'] [lo ro]] eqn:Hfw.
  case_bool_decide as Hcup; [done|]. cbn [orb].
  destruct (layers d !! cup) as [[cupbox ou]|] eqn:Hlcup; [|done].
  destruct (Box.is_Cup cupbox) eqn:Hbox; [|done]. cbn [negb orb].
  intros Hm. exists cup, wire', lo, ro, cupbox, ou.
  destruct left_snake; simpl in Hm; case_bool_decide; simpl in Hm;
    simplify_eq; by split_and!.
Qed.

Lemma find_move_loop_Some (d : Diagram) (rest : list (Box * Z)) (cap : nat)
    (m : Diagram.Move) :
  Diagram.find_move_loop d rest cap = Some m →
  drop cap (layers d) = rest →
  ∃ cap' capbox oc left_snake,
    layers d !! cap' = Some (capbox, oc)
    ∧ Box.is_Cap capbox = true
    ∧ Diagram.try_leg d cap' left_snake
        (if left_snake then oc else oc + 1)%Z = Some m.
Proof.
  revert cap. induction rest as [|[box off] rest IH]; intros cap; [done|].
  intros Hm Hdrop.
  assert (Hcap : layers d !! cap = Some (box, off)).
  { rewrite <- (Nat.add_0_r cap), <- lookup_drop. by rewrite Hdrop. }
  assert (Hrest : drop (cap + 1) (layers d) = rest).
  { rewrite Nat.add_1_r. by rewrite (drop_S _ _ _ Hcap) in Hdrop; simplify_eq. }
  cbn [Diagram.find_move_loop] in Hm.
  destruct (Box.is_Cap box) eqn:Hbox; cbn [negb] in Hm; [|by eapply IH].
  destruct (Diagram.try_leg d cap true off) as [m1|] eqn:H1.
  { injection Hm as <-. by exists cap, box, off, true. }
  destruct (Diagram.try_leg d cap false (off + 1)%Z) as [m2|] eqn:H2.
  { injection Hm as <-. by exists cap, box, off, false. }
  by eapply IH.
Qed.

(** A yankable pair, as the layers of the diagram: a cap, the boxes [mid]
    that its leg passes by, and the cup that the leg enters. *)
Lemma find_move_Some (d : Diagram) (m : Diagram.Move) :
  Diagram.find_move d = Some m →
  ∃ pre capbox oc mid cupbox ou post lo ro left_snake wire,
    layers d = pre ++ (capbox, oc) :: mid ++ (cupbox, ou) :: post
    ∧ m = (length pre + 1 + length mid, length pre, (lo, ro), left_snake)
    ∧ Box.is_Cap capbox = true ∧ Box.is_Cup cupbox = true
    ∧ Scan (S (length pre)) (if left_snake then oc else oc + 1)%Z mid wire
        lo ro
    ∧ (if left_snake then ou + 1 = wire else ou = wire)%Z.
Proof.
  intros Hm. apply find_move_loop_Some in Hm
    as (cap & capbox & oc & left_snake & Hcap & Hbox & Hleg); [|done].
  apply try_leg_Some in Hleg
    as (cup & wire & lo & ro & cupbox & ou & -> & Hfw & Hcup & Hlcup & Hcbox
        & Hwire).
  pose proof (lookup_lt_Some _ _ _ Hcap) as Hlt.
  unfold Diagram.follow_wire in Hfw.
  apply follow_wire_loop_Scan in Hfw
    as (mid & t & post & lo' & ro' & Hdrop & -> & HS & -> & ->);
    [|rewrite length_drop; lia|done].
  assert (Hlayers : layers d
            = take cap (layers d) ++ (capbox, oc) :: mid ++ t :: post).
  { rewrite <- Hdrop, Nat.add_1_r. symmetry. by apply take_drop_middle. }
  assert (Hlen : length (take cap (layers d)) = cap)
    by (rewrite length_take; lia).
  assert (t = (cupbox, ou)) as ->.
  { rewrite Hlayers in Hlcup.
    change (take cap (layers d) ++ (capbox, oc) :: mid ++ t :: post)
      with (take cap (layers d) ++ ((capbox, oc) :: mid) ++ t :: post)
      in Hlcup.
    rewrite app_assoc in Hlcup.
    rewrite list_lookup_middle in Hlcup
      by (rewrite !length_app, Hlen; simpl; lia).
    by simplify_eq. }
  exists (take cap (layers d)), capbox, oc, mid, cupbox, ou, post, lo', ro',
    left_snake, wire.
  rewrite Hlen. split_and!; try done.
  by rewrite Nat.add_1_r in HS.
Qed.

Lemma is_Cap_widths (b : Box) :
  Box.is_Cap b = true → Diagram.len_dom b = 0%Z ∧ Diagram.len_cod b = 2%Z.
Proof. by destruct b. Qed.

Lemma is_Cup_widths (b : Box) :
  Box.is_Cup b = true → Diagram.len_dom b = 2%Z ∧ Diagram.len_cod b = 0%Z.
Proof. by destruct b. Qed.

(** ** Removing a snake *)

(** [move], called on what [find_move] returns, does not raise: it ends by
    yielding the diagram it returns, which has two boxes less. *)
Lemma move_find_move (d : Diagram) (m : Diagram.Move) :
  Diagram.find_move d = Some m →
  ∃ d', Diagram.outcome (Diagram.move d m) = Ok d'
        ∧ last (Diagram.yields (Diagram.move d m)) = Some d'
        ∧ length (layers d') + 2 = length (layers d).
Proof.
  intros (pre & capbox & oc & mid & cupbox & ou & post & lo & ro & left_snake
          & wire & Hlayers & -> & Hcap & Hcup & HS & Hwire)%find_move_Some.
  destruct d as [dm cd ls]. cbn [layers] in *. subst ls.
  apply is_Cap_widths in Hcap as [Hcapdom Hcapcod].
  apply is_Cup_widths in Hcup as [Hcupdom Hcupcod].
  assert (∃ ls2 cup2 cap2,
    Diagram.outcome
      (if left_snake
       then
         '(diagram, cap, right_obstruction) ←
           Diagram.move_left_snake_left
             (mkDiagram dm cd (pre ++ (capbox, oc) :: mid ++ (cupbox, ou) :: post))
             (length pre) lo ro;
         '(diagram, cup) ←
           Diagram.move_left_snake_right diagram
             (length pre + 1 + length mid) (reverse right_obstruction);
         mret (diagram, cup, cap)
       else
         '(diagram, cup, right_obstruction) ←
           Diagram.move_right_snake_left
             (mkDiagram dm cd (pre ++ (capbox, oc) :: mid ++ (cupbox, ou) :: post))
             (length pre + 1 + length mid) (reverse lo) ro;
         '(diagram, cap) ←
           Diagram.move_right_snake_right diagram (length pre)
             right_obstruction;
         mret (diagram, cup, cap))
    = Ok (mkDiagram dm cd ls2, cup2, cap2)
    ∧ length (take cap2 ls2 ++ drop (cup2 + 1) ls2) + 2
      = length (pre ++ (capbox, oc) :: mid ++ (cupbox, ou) :: post))
    as (ls2 & cup2 & cap2 & Hinner & Hlen).
  { destruct left_snake.
    - destruct (move_left_snake_left_outcome lo dm cd capbox
                  ((cupbox, ou) :: post) wire pre oc mid ro HS)
        as (pre' & mid' & H1 & Hall & Hlen).
      pose proof (move_left_snake_right_outcome mid' dm cd
                    (pre' ++ [(capbox, wire)]) cupbox ou post) as H2.
      rewrite length_app, <- !app_assoc in H2. cbn [length app] in H2.
      eexists _, _, _. split.
      + apply Gen_bind_outcome. eexists. split; [exact H1|].
        cbn beta iota. apply Gen_bind_outcome. eexists.
        split.
        { replace (length pre + 1 + length mid)
            with (length pre' + 1 + length mid') by lia.
          rewrite Nat.add_1_r. rewrite Nat.add_1_r in H2. apply H2.
          eapply Forall_impl; [exact Hall|]. simpl. intros; lia. }
        reflexivity.
      + rewrite length_app, length_take, length_drop.
        rewrite !length_app. cbn [length]. rewrite !length_app. cbn [length].
        rewrite length_fmap. lia.
    - destruct (move_right_snake_left_outcome lo dm cd
                  (pre ++ [(capbox, oc)]) cupbox (oc + 1)%Z ltac:(lia)
                  mid ro wire post) as (mid' & post' & H1 & Hall & Hlen).
      { rewrite length_app. simpl. by rewrite Nat.add_1_r. }
      subst wire. rewrite length_app, <- !app_assoc in H1.
      cbn [length app] in H1.
      pose proof (move_right_snake_right_outcome mid' dm cd capbox oc
                    ((cupbox, (oc + 1)%Z) :: post') pre) as H2.
      eexists _, _, _. split.
      + apply Gen_bind_outcome. eexists. split; [exact H1|].
        cbn beta iota. apply Gen_bind_outcome. eexists.
        split.
        { rewrite Nat.add_1_r. apply H2.
          eapply Forall_impl; [exact Hall|]. simpl. intros x Hx.
          pose proof (len_dom_nonneg x.1). lia. }
        reflexivity.
      + rewrite length_app, length_take, length_drop.
        rewrite !length_app. cbn [length]. rewrite !length_app. cbn [length].
        rewrite length_fmap. lia. }
  unfold Diagram.move. cbn beta iota.
  rewrite (Gen_bind_Ok _ _ _ Hinner). cbn beta iota.
  eexists. split_and!.
  - reflexivity.
  - cbn [Diagram.yields]. simpl. by rewrite last_snoc.
  - done.
Qed.

(** ** Termination of the snake removal *)

(** With more fuel than boxes the loop ends normally, on a diagram without
    yankable pair: the last diagram it yielded, or its input when it yielded
    none. *)
Lemma snake_loop_settles (fuel : nat) (d : Diagram) :
  length (layers d) < fuel →
  ∃ d', Diagram.outcome (Diagram.snake_loop fuel d) = Ok d'
        ∧ default d (last (Diagram.yields (Diagram.snake_loop fuel d))) = d'
        ∧ Diagram.find_move d' = None.
Proof.
  revert d. induction fuel as [|fuel IH]; intros d Hfuel; [lia|].
  cbn [Diagram.snake_loop].
  destruct (Diagram.find_move d) as [m|] eqn:Hfind; [|by exists d].
  destruct (move_find_move d m Hfind) as (d1 & Hout & Hlast & Hlen).
  destruct (IH d1 ltac:(lia)) as (d' & Hout' & Hlast' & Hnone).
  exists d'. rewrite (Gen_bind_Ok _ _ _ Hout). cbn [Diagram.outcome Diagram.yields].
  split_and!; [done| |done].
  rewrite last_app.
  destruct (last (Diagram.yields (Diagram.snake_loop fuel d1))); [done|].
  by rewrite Hlast.
Qed.

(** * Further properties *)

(** ** Adjoints are inverse to each other and change the winding number *)

Lemma winding_app (t u : Ty) : winding (t ++ u) = (winding t + winding u)%Z.
Proof. induction t as [|o t IH]; simpl; lia. Qed.

Lemma winding_r (t : Ty) :
  winding (Ty.r t) = (winding t + Z.of_nat (length t))%Z.
Proof.
  unfold Ty.r. induction t as [|o t IH]; [done|].
  rewrite reverse_cons, fmap_app, winding_app, IH. simpl. lia.
Qed.

Lemma winding_l (t : Ty) :
  winding (Ty.l t) = (winding t - Z.of_nat (length t))%Z.
Proof.
  unfold Ty.l. induction t as [|o t IH]; [done|].
  rewrite reverse_cons, fmap_app, winding_app, IH. simpl. lia.
Qed.

Lemma Ty_l_r (t : Ty) : Ty.l (Ty.r t) = t.
Proof.
  unfold Ty.l, Ty.r.
  rewrite <- fmap_reverse, reverse_involutive, <- list_fmap_compose.
  etrans; [|apply list_fmap_id]. apply list_fmap_ext.
  intros i o _. apply Ob_l_r.
Qed.

Lemma Ty_r_l (t : Ty) : Ty.r (Ty.l t) = t.
Proof.
  unfold Ty.l, Ty.r.
  rewrite <- fmap_reverse, reverse_involutive, <- list_fmap_compose.
  etrans; [|apply list_fmap_id]. apply list_fmap_ext.
  intros i o _. apply Ob_r_l.
Qed.

(** The doctest of [Ob]: [a.l.r == a.r.l == a] and [a != a.l.l != a.r.r];
    an adjoint is never the object itself, and [n] right adjoints add [n] to
    the winding number. *)
Theorem Ob_adjoints (a : Ob) :
  Ob.r (Ob.l a) = a ∧ Ob.l (Ob.r a) = a
  ∧ a ≠ Ob.l (Ob.l a) ∧ Ob.l (Ob.l a) ≠ Ob.r (Ob.r a)
  ∧ Ob.l a ≠ a ∧ Ob.r a ≠ a
  ∧ ∀ n, Nat.iter n Ob.r a = mkOb (name a) (z a + Z.of_nat n)
         ∧ Nat.iter n Ob.l a = mkOb (name a) (z a - Z.of_nat n).
Proof.
  split_and!; try (destruct a as [nm k]; unfold Ob.l, Ob.r; simpl;
                   first [f_equal; lia | intros [=]; lia]).
  intros n. induction n as [|n [IHr IHl]].
  - destruct a as [nm k]. simpl. split; f_equal; lia.
  - rewrite !Nat.iter_succ, IHr, IHl. unfold Ob.r, Ob.l. simpl.
    split; f_equal; lia.
Qed.

(** The doctests of [Ty]: [t.l.r == t == t.r.l]; the adjoints keep the
    length, and only the empty type is its own adjoint. *)
Theorem Ty_adjoints (t : Ty) :
  Ty.r (Ty.l t) = t ∧ Ty.l (Ty.r t) = t
  ∧ length (Ty.l t) = length t ∧ length (Ty.r t) = length t
  ∧ (Ty.l t = t ↔ t = []) ∧ (Ty.r t = t ↔ t = []).
Proof.
  split_and!.
  - apply Ty_r_l.
  - apply Ty_l_r.
  - apply Ty_l_length.
  - apply Ty_r_length.
  - split; [|by intros ->]. intros H.
    pose proof (winding_l t) as Hw. rewrite H in Hw.
    destruct t; [done|simpl in Hw; lia].
  - split; [|by intros ->]. intros H.
    pose proof (winding_r t) as Hw. rewrite H in Hw.
    destruct t; [done|simpl in Hw; lia].
Qed.

(** ** What the constructors of cups and caps raise *)

Ltac solve_outcome :=
  split_and!; try split; intros;
  repeat match goal with
         | H : _ ∧ _ |- _ => destruct H
         | H : _ ∨ _ |- _ => destruct H
         | H : ∃ _, _ |- _ => destruct H
         end;
  simplify_eq; eauto 6; try done;
  try (exfalso; unfold not in *; first [congruence | by eauto]).

Lemma Cup_cases (x y : Ty) :
  (Cup x y = Raise AxiomError ∧ Ty.r x ≠ y ∧ x ≠ Ty.r y)
  ∨ (Cup x y = Raise ValueError ∧ (Ty.r x = y ∨ x = Ty.r y) ∧ length x ≠ 1)
  ∨ (Cup x y = Raise NotImplementedError ∧ x = Ty.r y ∧ length x = 1)
  ∨ (∃ x0, Cup x y = Ok (MkCup x0 (Ob.r x0)) ∧ x = [x0] ∧ y = [Ob.r x0]).
Proof.
  unfold Cup.
  destruct (decide (Ty.r x ≠ y ∧ x ≠ Ty.r y)) as [Hna|Ha]; [by left|].
  assert (Hadj : Ty.r x = y ∨ x = Ty.r y).
  { destruct (decide (Ty.r x = y)); [by left|].
    destruct (decide (x = Ty.r y)); [by right|]. by destruct Ha. }
  assert (Hlen : length x = length y).
  { destruct Hadj as [<-| ->]; by rewrite Ty_r_length. }
  right.
  destruct x as [|x0 [|x1 x]], y as [|y0 [|y1 y]]; try done.
  - by left.
  - rewrite !Ty_r_singleton in *.
    destruct (decide ([x0] = [Ob.r y0])) as [Hpiv|Hnp].
    + right. by left.
    + right. right. exists x0. by destruct Hadj as [[= <-]|?].
  - by left.
Qed.

Lemma Cap_cases (x y : Ty) :
  (Cap x y = Raise AxiomError ∧ x ≠ Ty.r y ∧ Ty.r x ≠ y)
  ∨ (Cap x y = Raise ValueError ∧ (x = Ty.r y ∨ Ty.r x = y) ∧ length x ≠ 1)
  ∨ (Cap x y = Raise NotImplementedError ∧ Ty.r x = y ∧ length x = 1)
  ∨ (∃ x0, Cap x y = Ok (MkCap x0 (Ob.l x0)) ∧ x = [x0] ∧ y = [Ob.l x0]).
Proof.
  unfold Cap.
  destruct (decide (x ≠ Ty.r y ∧ Ty.r x ≠ y)) as [Hna|Ha]; [by left|].
  assert (Hadj : x = Ty.r y ∨ Ty.r x = y).
  { destruct (decide (x = Ty.r y)); [by left|].
    destruct (decide (Ty.r x = y)); [by right|]. by destruct Ha. }
  assert (Hlen : length x = length y).
  { destruct Hadj as [->| <-]; by rewrite Ty_r_length. }
  right.
  destruct x as [|x0 [|x1 x]], y as [|y0 [|y1 y]]; try done.
  - by left.
  - rewrite !Ty_r_singleton in *.
    destruct (decide ([Ob.r x0] = [y0])) as [Hpiv|Hnp].
    + right. by left.
    + right. right. exists x0. destruct Hadj as [[= ->]|?]; [|done].
      by rewrite Ob_l_r.
  - by left.
Qed.

(** [Cup(x, y)] checks adjointness first, then the lengths, then the
    direction: it raises [AxiomError] exactly when [x] and [y] are adjoint in
    neither direction, [ValueError] exactly when they are adjoint but not
    single wires, [NotImplementedError] exactly when they are single wires
    with [x == y.r], and returns a box, from [x @ y] to the unit, exactly
    when they are single wires with [x.r == y]. *)
Theorem Cup_outcome (x y : Ty) :
  (Cup x y = Raise AxiomError ↔ Ty.r x ≠ y ∧ x ≠ Ty.r y)
  ∧ (Cup x y = Raise ValueError ↔
     (Ty.r x = y ∨ x = Ty.r y) ∧ length x ≠ 1)
  ∧ (Cup x y = Raise NotImplementedError ↔ x = Ty.r y ∧ length x = 1)
  ∧ ((∃ b, Cup x y = Ok b) ↔ Ty.r x = y ∧ length x = 1)
  ∧ (∀ b, Cup x y = Ok b →
          Box.dom b = x ++ y ∧ Box.cod b = [] ∧ Box.is_Cup b = true)
  ∧ (∀ e, Cup x y = Raise e →
          e = AxiomError ∨ e = ValueError ∨ e = NotImplementedError).
Proof.
  assert (Hpiv : x = Ty.r y → length x = 1 → Ty.r x ≠ y).
  { intros -> Hy H. rewrite Ty_r_length in Hy.
    destruct y as [|y0 [|]]; try done. rewrite !Ty_r_singleton in H.
    injection H as H. by apply Ob_r_r_ne in H. }
  destruct (Cup_cases x y)
    as [(-> & H1 & H2)|[(-> & H1 & H2)|[(-> & H1 & H2)|(x0 & -> & -> & ->)]]].
  - solve_outcome.
  - solve_outcome.
  - solve_outcome.
  - solve_outcome.
Qed.

(** [Cap(x, y)] makes the same checks in the same order, with the supported
    direction [x == y.r]: it returns a box, from the unit to [x @ y],
    exactly when [x] and [y] are single wires with [y == x.l]. *)
Theorem Cap_outcome (x y : Ty) :
  (Cap x y = Raise AxiomError ↔ x ≠ Ty.r y ∧ Ty.r x ≠ y)
  ∧ (Cap x y = Raise ValueError ↔
     (x = Ty.r y ∨ Ty.r x = y) ∧ length x ≠ 1)
  ∧ (Cap x y = Raise NotImplementedError ↔ Ty.r x = y ∧ length x = 1)
  ∧ ((∃ b, Cap x y = Ok b) ↔ Ty.l x = y ∧ length x = 1)
  ∧ (∀ b, Cap x y = Ok b →
          Box.dom b = [] ∧ Box.cod b = x ++ y ∧ Box.is_Cap b = true)
  ∧ (∀ e, Cap x y = Raise e →
          e = AxiomError ∨ e = ValueError ∨ e = NotImplementedError).
Proof.
  assert (Hpiv : Ty.r x = y → length x = 1 → Ty.l x ≠ y).
  { intros <- Hx H. destruct x as [|[nm k] [|]]; try done.
    injection H as H. lia. }
  assert (Hadj : Ty.l x = y → x = Ty.r y).
  { intros <-. by rewrite Ty_r_l. }
  destruct (Cap_cases x y)
    as [(-> & H1 & H2)|[(-> & H1 & H2)|[(-> & H1 & H2)|(x0 & -> & -> & ->)]]].
  - solve_outcome.
  - solve_outcome.
  - solve_outcome.
  - solve_outcome.
Qed.

(** ** The diagrams that [cups] and [caps] build *)

Lemma stairs_layer (x y : Ty) (i : nat) (b : Box) :
  length x - i - 1 < length x →
  layers
    (Diagram.tensor
       (Diagram.tensor (Id (take (length x - i - 1) x)) (box_diagram b))
       (Id (drop (i + 1) y)))
  = [(b, Z.of_nat (length x - i - 1))].
Proof.
  intros Hj. simpl. rewrite length_take_le by lia. do 2 f_equal.
Qed.

Section StaircaseShape.
Variables (x y : Ty).

Lemma cups_loop_shape (k i : nat) (acc d : Diagram) :
  i + k = length x →
  cod acc = take (length x - i) x ++ drop i y →
  Diagram.cups_loop x y (seq i k) acc = Ok d →
  dom d = dom acc ∧ cod d = drop (length x) y
  ∧ layers d = layers acc ++ cup_stairs (take (length x - i) x).
Proof.
  revert i acc. induction k as [|k IH]; intros i acc Hik Hcod.
  { simpl. intros [= <-]. replace i with (length x) in * by lia.
    rewrite Nat.sub_diag in *. simpl in *.
    by rewrite app_nil_r. }
  cbn [seq Diagram.cups_loop]. cbv zeta.
  destruct (lookup_lt_is_Some_2 x (length x - i - 1)) as [xj Hxj]; [lia|].
  assert (Htake : take (length x - i) x = take (length x - i - 1) x ++ [xj]).
  { rewrite <- (take_S_r x _ xj Hxj). f_equal. lia. }
  intros Hd. apply bind_Ok in Hd as (cup & Hcup & Hd).
  apply bind_Ok in Hd as (acc' & Hthen & Hd).
  rewrite !slice_one, Hxj in Hcup. simpl option_list in Hcup.
  apply Cup_Ok_iff in Hcup as (x0 & [= <-] & Hy & ->).
  apply then_Ok in Hthen as [_ ->].
  apply IH in Hd as (Hdom & Hcod' & Hlayers); [|lia|].
  - split_and!; [done|done|].
    rewrite Hlayers. cbn [layers]. rewrite stairs_layer by lia.
    rewrite <- app_assoc. f_equal.
    replace (length x - S i) with (length x - i - 1) by lia.
    rewrite Htake. unfold cup_stairs.
    rewrite imap_app, reverse_app. cbn [imap reverse app].
    rewrite length_take_le, Nat.add_0_r by lia. reflexivity.
  - cbn [cod]. simpl.
    replace (length x - S i) with (length x - i - 1) by lia.
    by rewrite app_nil_r, Nat.add_1_r.
Qed.

Lemma caps_loop_shape (k i : nat) (acc d : Diagram) :
  i + k = length x →
  dom acc = take (length x - i) x ++ drop i y →
  Diagram.caps_loop x y (seq i k) acc = Ok d →
  dom d = drop (length x) y ∧ cod d = cod acc
  ∧ layers d = cap_stairs (take (length x - i) x) ++ layers acc.
Proof.
  revert i acc. induction k as [|k IH]; intros i acc Hik Hdom.
  { simpl. intros [= <-]. replace i with (length x) in * by lia.
    rewrite Nat.sub_diag in *. by simpl in *. }
  cbn [seq Diagram.caps_loop]. cbv zeta.
  destruct (lookup_lt_is_Some_2 x (length x - i - 1)) as [xj Hxj]; [lia|].
  assert (Htake : take (length x - i) x = take (length x - i - 1) x ++ [xj]).
  { rewrite <- (take_S_r x _ xj Hxj). f_equal. lia. }
  intros Hd. apply bind_Ok in Hd as (cap & Hcap & Hd).
  apply bind_Ok in Hd as (acc' & Hthen & Hd).
  rewrite !slice_one, Hxj in Hcap. simpl option_list in Hcap.
  apply Cap_Ok_iff in Hcap as (x0 & [= <-] & Hy & ->).
  apply then_Ok in Hthen as [_ ->].
  apply IH in Hd as (Hdom' & Hcod' & Hlayers); [|lia|].
  - split_and!; [done|done|].
    rewrite Hlayers. cbn [layers]. rewrite stairs_layer by lia.
    rewrite app_assoc. f_equal.
    replace (length x - S i) with (length x - i - 1) by lia.
    rewrite Htake. unfold cap_stairs.
    rewrite imap_app. cbn [imap].
    rewrite length_take_le, Nat.add_0_r by lia. reflexivity.
  - cbn [dom]. simpl.
    replace (length x - S i) with (length x - i - 1) by lia.
    by rewrite app_nil_r, Nat.add_1_r.
Qed.

Lemma cups_loop_Raise (k i : nat) (acc : Diagram) (e : Exception) :
  i + k = length x →
  Diagram.cups_loop x y (seq i k) acc = Raise e →
  e = AxiomError ∨ e = NotImplementedError.
Proof.
  revert i acc. induction k as [|k IH]; intros i acc Hik; [done|].
  cbn [seq Diagram.cups_loop]. cbv zeta.
  destruct (lookup_lt_is_Some_2 x (length x - i - 1)) as [xj Hxj]; [lia|].
  rewrite !slice_one, Hxj. simpl option_list.
  destruct (Cup_cases [xj] (option_list (y !! i)))
    as [(-> & _)|[(-> & _ & ?)|[(-> & _)|(x0 & -> & _)]]];
    simpl; try (intros [= <-]; auto); try done.
  unfold Diagram.then_. case_decide; simpl; [|intros [= <-]; auto].
  apply IH. lia.
Qed.

Lemma caps_loop_Raise (k i : nat) (acc : Diagram) (e : Exception) :
  i + k = length x →
  Diagram.caps_loop x y (seq i k) acc = Raise e →
  e = AxiomError ∨ e = NotImplementedError.
Proof.
  revert i acc. induction k as [|k IH]; intros i acc Hik; [done|].
  cbn [seq Diagram.caps_loop]. cbv zeta.
  destruct (lookup_lt_is_Some_2 x (length x - i - 1)) as [xj Hxj]; [lia|].
  rewrite !slice_one, Hxj. simpl option_list.
  destruct (Cap_cases [xj] (option_list (y !! i)))
    as [(-> & _)|[(-> & _ & ?)|[(-> & _)|(x0 & -> & _)]]];
    simpl; try (intros [= <-]; auto); try done.
  unfold Diagram.then_. case_decide; simpl; [|intros [= <-]; auto].
  apply IH. lia.
Qed.
End StaircaseShape.

Lemma cups_Ok_shape (x y : Ty) (d : Diagram) :
  Diagram.cups x y = Ok d →
  d = mkDiagram (x ++ y) (drop (length x) y) (cup_stairs x).
Proof.
  intros H. apply cups_loop_shape in H as (Hdom & Hcod & Hlayers);
    [|done|by rewrite Nat.sub_0_r, firstn_all].
  rewrite Nat.sub_0_r, firstn_all in Hlayers.
  destruct d. simpl in *. by subst.
Qed.

Lemma caps_Ok_shape (x y : Ty) (d : Diagram) :
  Diagram.caps x y = Ok d →
  d = mkDiagram (drop (length x) y) (x ++ y) (cap_stairs x).
Proof.
  intros H. apply caps_loop_shape in H as (Hdom & Hcod & Hlayers);
    [|done|by rewrite Nat.sub_0_r, firstn_all].
  rewrite Nat.sub_0_r, firstn_all, app_nil_r in Hlayers.
  destruct d. simpl in *. by subst.
Qed.

Lemma cups_adjoint (x rest : Ty) :
  Diagram.cups x (Ty.r x ++ rest)
  = Ok (mkDiagram (x ++ Ty.r x ++ rest) rest (cup_stairs x)).
Proof.
  assert (Hex : ∃ d, Diagram.cups x (Ty.r x ++ rest) = Ok d).
  { apply cups_loop_Ok; [done|by rewrite Nat.sub_0_r, firstn_all|].
    apply (prefix_adjoint Ob.r).
    rewrite <- (Ty_r_length x) at 1. apply take_app_length. }
  destruct Hex as [d Hd]. rewrite Hd. f_equal.
  apply cups_Ok_shape in Hd as ->. f_equal.
  rewrite <- (Ty_r_length x) at 1. apply drop_app_length.
Qed.

Lemma caps_adjoint (x rest : Ty) :
  Diagram.caps x (Ty.l x ++ rest)
  = Ok (mkDiagram rest (x ++ Ty.l x ++ rest) (cap_stairs x)).
Proof.
  assert (Hex : ∃ d, Diagram.caps x (Ty.l x ++ rest) = Ok d).
  { apply caps_loop_Ok; [done|by rewrite Nat.sub_0_r, firstn_all|].
    apply (prefix_adjoint Ob.l).
    rewrite <- (Ty_l_length x) at 1. apply take_app_length. }
  destruct Hex as [d Hd]. rewrite Hd. f_equal.
  apply caps_Ok_shape in Hd as ->. f_equal.
  rewrite <- (Ty_l_length x) at 1. apply drop_app_length.
Qed.

(** On adjoint types the staircases are always built: [cups(x, x.r)] goes from
    [x @ x.r] to the unit and [caps(x, x.l)] from the unit to [x @ x.l], with
    one cup (cap) per wire of [x], the cup on wire [j] at offset [j] and the
    innermost pair first (last for caps); the objects that follow the adjoint
    in the second argument are left as the codomain (domain). *)
Theorem cups_caps_on_adjoints (x rest : Ty) :
  Diagram.cups x (Ty.r x ++ rest)
  = Ok (mkDiagram (x ++ Ty.r x ++ rest) rest (cup_stairs x))
  ∧ Diagram.caps x (Ty.l x ++ rest)
    = Ok (mkDiagram rest (x ++ Ty.l x ++ rest) (cap_stairs x))
  ∧ length (cup_stairs x) = length x ∧ length (cap_stairs x) = length x
  ∧ Forall (λ l, Box.is_Cup l.1 = true) (cup_stairs x)
  ∧ Forall (λ l, Box.is_Cap l.1 = true) (cap_stairs x).
Proof.
  split_and!.
  - apply cups_adjoint.
  - apply caps_adjoint.
  - unfold cup_stairs. by rewrite length_reverse, length_imap.
  - unfold cap_stairs. by rewrite length_imap.
  - unfold cup_stairs. apply Forall_reverse, Forall_lookup.
    intros i l Hl. apply list_lookup_imap_Some in Hl as (o & _ & ->). done.
  - unfold cap_stairs. apply Forall_lookup.
    intros i l Hl. apply list_lookup_imap_Some in Hl as (o & _ & ->). done.
Qed.

(** Whatever [x] and [y], a diagram returned by [cups(x, y)] or [caps(x, y)]
    is the staircase on [x]: it has [len(x)] boxes and consumes (produces)
    [x] and the first [len(x)] objects of [y] only. *)
Theorem cups_caps_shape (x y : Ty) (d : Diagram) :
  (Diagram.cups x y = Ok d →
   d = mkDiagram (x ++ y) (drop (length x) y) (cup_stairs x))
  ∧ (Diagram.caps x y = Ok d →
     d = mkDiagram (drop (length x) y) (x ++ y) (cap_stairs x)).
Proof.
  split; intros H.
  - apply cups_loop_shape in H as (Hdom & Hcod & Hlayers);
      [|done|by rewrite Nat.sub_0_r, firstn_all].
    rewrite Nat.sub_0_r, firstn_all in Hlayers.
    destruct d. simpl in *. by subst.
  - apply caps_loop_shape in H as (Hdom & Hcod & Hlayers);
      [|done|by rewrite Nat.sub_0_r, firstn_all].
    rewrite Nat.sub_0_r, firstn_all, app_nil_r in Hlayers.
    destruct d. simpl in *. by subst.
Qed.

Lemma cups_caps_shape_witness :
  ∃ d, Diagram.cups [mkOb "n" 0] [mkOb "n" 1; mkOb "s" 0] = Ok d
       ∧ d = mkDiagram [mkOb "n" 0; mkOb "n" 1; mkOb "s" 0] [mkOb "s" 0]
               [(MkCup (mkOb "n" 0) (mkOb "n" 1), 0%Z)].
Proof.
  eexists. split; [reflexivity|].
  apply (cups_caps_shape [mkOb "n" 0] [mkOb "n" 1; mkOb "s" 0]).
  reflexivity.
Defined.

(** [cups] and [caps] raise nothing but the [AxiomError] and the
    [NotImplementedError] of the elementary constructors: the slices they
    pass have at most one wire, so [ValueError] cannot occur. *)
Theorem cups_caps_raise (x y : Ty) (e : Exception) :
  (Diagram.cups x y = Raise e → e = AxiomError ∨ e = NotImplementedError)
  ∧ (Diagram.caps x y = Raise e → e = AxiomError ∨ e = NotImplementedError).
Proof.
  split; [by apply cups_loop_Raise|by apply caps_loop_Raise].
Qed.

Lemma cups_caps_raise_witness :
  Diagram.cups [mkOb "n" 0] [mkOb "n" 0] = Raise AxiomError
  ∧ (AxiomError = AxiomError ∨ AxiomError = NotImplementedError).
Proof.
  split; [reflexivity|].
  apply (cups_caps_raise [mkOb "n" 0] [mkOb "n" 0] AxiomError).
  reflexivity.
Defined.

(** ** Transposes are always built *)

Lemma tensor_Id_l (t : Ty) (d : Diagram) :
  Diagram.tensor (Id t) d
  = mkDiagram (t ++ dom d) (t ++ cod d)
      (shift_by (Z.of_nat (length t)) <$> layers d).
Proof. reflexivity. Qed.

Lemma tensor_Id_r (d : Diagram) (t : Ty) :
  Diagram.tensor d (Id t) = mkDiagram (dom d ++ t) (cod d ++ t) (layers d).
Proof. unfold Diagram.tensor. simpl. by rewrite app_nil_r. Qed.

(** [f.transpose_r()] never raises: it is the diagram from [f.cod.r] to
    [f.dom.r] made of the caps on [f.dom.r], the boxes of [f] and the cups on
    [f.cod], the last two moved right by the width of [f.dom]; and
    [f.transpose_l()] is the mirror diagram from [f.cod.l] to [f.dom.l]. *)
Theorem transpose_closed_form (f : Diagram) :
  Diagram.transpose_r f
  = Ok (mkDiagram (Ty.r (cod f)) (Ty.r (dom f))
          (cap_stairs (Ty.r (dom f))
           ++ (shift_by (Z.of_nat (length (dom f))) <$> layers f)
           ++ (shift_by (Z.of_nat (length (dom f))) <$> cup_stairs (cod f))))
  ∧ Diagram.transpose_l f
    = Ok (mkDiagram (Ty.l (cod f)) (Ty.l (dom f))
            ((shift_by (Z.of_nat (length (cod f))) <$> cap_stairs (dom f))
             ++ (shift_by (Z.of_nat (length (cod f))) <$> layers f)
             ++ cup_stairs (Ty.l (cod f)))).
Proof.
  split.
  - unfold Diagram.transpose_r.
    pose proof (caps_adjoint (Ty.r (dom f)) []) as Hcaps.
    rewrite Ty_l_r, app_nil_r in Hcaps. rewrite Hcaps.
    pose proof (cups_adjoint (cod f) []) as Hcups.
    rewrite app_nil_r in Hcups. rewrite Hcups.
    cbn [mbind result_bind].
    rewrite !tensor_Id_r, !tensor_Id_l. cbn [dom cod layers].
    unfold Diagram.then_. cbn [dom cod layers].
    rewrite decide_True by (by rewrite <- app_assoc).
    cbn [mbind result_bind dom cod layers].
    rewrite decide_True by (by rewrite <- app_assoc).
    rewrite Ty_r_length, !app_nil_r, <- !app_assoc. reflexivity.
  - unfold Diagram.transpose_l.
    pose proof (caps_adjoint (dom f) []) as Hcaps.
    rewrite app_nil_r in Hcaps. rewrite Hcaps.
    pose proof (cups_adjoint (Ty.l (cod f)) []) as Hcups.
    rewrite Ty_r_l, app_nil_r in Hcups. rewrite Hcups.
    cbn [mbind result_bind].
    rewrite !tensor_Id_r, !tensor_Id_l. cbn [dom cod layers].
    unfold Diagram.then_. cbn [dom cod layers].
    rewrite decide_True by (by rewrite <- ?app_assoc).
    cbn [mbind result_bind dom cod layers].
    rewrite decide_True by (by rewrite <- ?app_assoc).
    rewrite Ty_l_length, ?app_nil_r, <- ?app_assoc. reflexivity.
Qed.

(** ** What [follow_wire] returns *)

Lemma follow_wire_loop_Scan_end (rest : list (Box * Z)) (n i : nat) (j : Z)
    (lo0 ro0 : list nat) (u : nat) (jf : Z) (lo' ro' : list nat) :
  Diagram.follow_wire_loop rest n i j lo0 ro0 = (u, jf, (lo', ro')) →
  n = i + length rest →
  ∃ mid post lo ro,
    rest = mid ++ post ∧ u = i + length mid ∧ Scan i j mid jf lo ro
    ∧ lo' = lo0 ++ lo ∧ ro' = ro0 ++ ro
    ∧ match post with
      | [] => True
      | (box, off) :: _ => (off ≤ jf < off + Diagram.len_dom box)%Z
      end.
Proof.
  revert i j lo0 ro0.
  induction rest as [|[box off] rest IH]; intros i j lo0 ro0; simpl.
  { intros [= <- <- <- <-] ->. exists [], [], [], [].
    rewrite !app_nil_r. simpl. split_and!; first [done | lia | constructor]. }
  intros Hloop Hn.
  destruct (decide (off ≤ j)%Z) as [Hle|Hle];
    [destruct (decide (j < off + Diagram.len_dom box)%Z) as [Hlt|Hlt]|].
  - rewrite !bool_decide_eq_true_2 in Hloop by done. simpl in Hloop.
    injection Hloop as <- <- <- <-.
    exists [], ((box, off) :: rest), [], []. rewrite !app_nil_r. simpl.
    split_and!; first [done | lia | constructor].
  - rewrite (bool_decide_eq_false_2 (j < _)%Z) in Hloop by done.
    rewrite bool_decide_eq_true_2 in Hloop by done. simpl in Hloop.
    apply IH in Hloop as (mid & post & lo & ro & -> & -> & HS & -> & -> & Hp);
      [|lia].
    exists ((box, off) :: mid), post, (i :: lo), ro.
    rewrite <- !app_assoc. simpl. split_and!; try first [done | lia].
    apply Scan_left; [lia|].
    replace (S i) with (i + 1) by lia.
    by replace (j + width_change box)%Z
      with (j + Diagram.len_cod box - Diagram.len_dom box)%Z
      by (unfold width_change; lia).
  - rewrite !(bool_decide_eq_false_2 (off ≤ j)%Z) in Hloop by done.
    simpl in Hloop.
    apply IH in Hloop as (mid & post & lo & ro & -> & -> & HS & -> & -> & Hp);
      [|lia].
    exists ((box, off) :: mid), post, lo, (i :: ro).
    rewrite <- !app_assoc. simpl. split_and!; try first [done | lia].
    apply Scan_right; [lia|]. by replace (S i) with (i + 1) by lia.
Qed.

Lemma Scan_length (i : nat) (j : Z) (mid : list (Box * Z)) (jf : Z)
    (lo ro : list nat) :
  Scan i j mid jf lo ro → length lo + length ro = length mid.
Proof. induction 1; simpl; lia. Qed.

Lemma width_changes_below (ls : list (Box * Z)) (m : nat) (idx : list nat) :
  Forall (λ r, m ≤ r) idx → filter (λ l, l < m) idx = [].
Proof.
  induction 1 as [|r idx Hr _ IH]; [done|].
  rewrite filter_cons_False by lia. done.
Qed.

Lemma Scan_spec (ls : list (Box * Z)) (i : nat) (j : Z) (mid : list (Box * Z))
    (jf : Z) (lo ro : list nat) :
  Scan i j mid jf lo ro →
  (∀ p l, mid !! p = Some l → ls !! (i + p) = Some l) →
  lo ++ ro ≡ₚ seq i (length mid)
  ∧ StronglySorted lt lo ∧ StronglySorted lt ro
  ∧ jf = (j + width_changes ls lo)%Z
  ∧ ∀ m box off, ls !! m = Some (box, off) → i ≤ m < i + length mid →
      let w := (j + width_changes ls (filter (λ l, (l < m)%nat) lo))%Z in
      (m ∈ lo ∧ (off + Diagram.len_dom box ≤ w)%Z) ∨ (m ∈ ro ∧ (w < off)%Z).
Proof.
  induction 1 as [i j | i j box off mid jf lo ro Hoff HS IH
                  | i j box off mid jf lo ro Hoff HS IH]; intros Hls.
  - simpl. split_and!; [done|constructor|constructor|lia|].
    intros m box off _ Hm. lia.
  - pose proof (Scan_bounds _ _ _ _ _ _ HS) as [Hblo Hbro].
    destruct IH as (Hperm & Hslo & Hsro & Hjf & Hall).
    { intros p l Hp. replace (S i + p) with (i + S p) by lia. by apply Hls. }
    pose proof (Hls 0 _ eq_refl) as Hi. rewrite Nat.add_0_r in Hi.
    split_and!.
    + simpl. by rewrite Hperm.
    + constructor; [done|]. eapply Forall_impl; [exact Hblo|]. simpl; lia.
    + done.
    + simpl. rewrite Hi. simpl. lia.
    + intros m b o Hm Hrange. cbn zeta.
      destruct (decide (m = i)) as [->|Hne].
      * rewrite Hi in Hm. injection Hm as <- <-.
        left. split; [by left|].
        rewrite filter_cons_False by lia.
        rewrite (width_changes_below ls); [simpl; lia|].
        eapply Forall_impl; [exact Hblo|]. simpl; lia.
      * rewrite filter_cons_True by lia. simpl. rewrite Hi. simpl.
        destruct (Hall m b o Hm) as [[Hin Hw]|[Hin Hw]]; [simpl in *; lia| |].
        -- left. split; [by right|]. lia.
        -- right. split; [done|]. lia.
  - pose proof (Scan_bounds _ _ _ _ _ _ HS) as [Hblo Hbro].
    destruct IH as (Hperm & Hslo & Hsro & Hjf & Hall).
    { intros p l Hp. replace (S i + p) with (i + S p) by lia. by apply Hls. }
    pose proof (Hls 0 _ eq_refl) as Hi. rewrite Nat.add_0_r in Hi.
    split_and!.
    + simpl. rewrite <- Hperm. by rewrite Permutation_middle.
    + done.
    + constructor; [done|]. eapply Forall_impl; [exact Hbro|]. simpl; lia.
    + done.
    + intros m b o Hm Hrange. cbn zeta.
      destruct (decide (m = i)) as [->|Hne].
      * rewrite Hi in Hm. injection Hm as <- <-.
        right. split; [by left|].
        rewrite (width_changes_below ls); [simpl; lia|].
        eapply Forall_impl; [exact Hblo|]. simpl; lia.
      * destruct (Hall m b o Hm) as [[Hin Hw]|[Hin Hw]]; [simpl in *; lia| |].
        -- left. split; [done|]. lia.
        -- right. split; [by right|]. lia.
Qed.

(** [follow_wire(diagram, i, j)] returns the index [k] of the first box after
    [i] that takes the wire as input, [len(diagram)] when there is none.  The
    two lists of obstructions are increasing and hold, together, every index
    strictly between [i] and [k]; a box is on the left exactly when it ends
    at or before the wire at its level, on the right when it starts after
    it; the offset returned is [j] plus the width changes of the boxes on the
    left, and it lies in the domain of the box at [k]. *)
Theorem follow_wire_spec (d : Diagram) (i : nat) (j : Z) (k : nat) (jf : Z)
    (lo ro : list nat) :
  Diagram.follow_wire d i j = (k, jf, (lo, ro)) →
  k ≤ length (layers d) ∧ (i < length (layers d) → i < k)
  ∧ lo ++ ro ≡ₚ seq (i + 1) (k - (i + 1))
  ∧ StronglySorted lt lo ∧ StronglySorted lt ro
  ∧ jf = (j + width_changes (layers d) lo)%Z
  ∧ (∀ m box off, layers d !! m = Some (box, off) → i < m < k →
       let w := (j + width_changes (layers d) (filter (λ l, (l < m)%nat) lo))%Z in
       (m ∈ lo ∧ (off + Diagram.len_dom box ≤ w)%Z)
       ∨ (m ∈ ro ∧ (w < off)%Z))
  ∧ (∀ box off, layers d !! k = Some (box, off) →
       (off ≤ jf < off + Diagram.len_dom box)%Z).
Proof.
  unfold Diagram.follow_wire. intros Hfw.
  destruct (decide (i + 1 ≤ length (layers d))) as [Hi|Hi].
  - apply follow_wire_loop_Scan_end in Hfw
      as (mid & post & lo' & ro' & Hdrop & -> & HS & -> & -> & Hpost);
      [|rewrite length_drop; lia].
    pose proof (f_equal length Hdrop) as Hlen.
    rewrite length_drop, length_app in Hlen.
    assert (Hls : ∀ p l, mid !! p = Some l → layers d !! (i + 1 + p) = Some l).
    { intros p l Hp. rewrite <- lookup_drop, Hdrop.
      by apply lookup_app_l_Some. }
    destruct (Scan_spec (layers d) _ _ _ _ _ _ HS Hls)
      as (Hperm & Hslo & Hsro & Hjf & Hall).
    simpl. split_and!; try done; try lia.
    + by replace (i + 1 + length mid - (i + 1)) with (length mid) by lia.
    + intros m box off Hm Hrange. apply Hall; [done|lia].
    + intros box off Hk. rewrite <- (Nat.add_0_r (_ + length mid)) in Hk.
      rewrite <- Nat.add_assoc, <- lookup_drop, Hdrop in Hk.
      rewrite lookup_app_r in Hk by lia.
      replace (length mid + 0 - length mid) with 0 in Hk by lia.
      destruct post as [|[b o] post]; [done|]. simpl in Hk. by simplify_eq.
  - rewrite drop_ge in Hfw by lia. simpl in Hfw.
    injection Hfw as <- <- <- <-. simpl.
    split_and!.
    + done.
    + lia.
    + by replace (length (layers d) - (i + 1)) with 0 by lia.
    + constructor.
    + constructor.
    + lia.
    + intros m box off Hm Hr. apply lookup_lt_Some in Hm. lia.
    + intros box off Hk. apply lookup_lt_Some in Hk. lia.
Qed.

Lemma follow_wire_spec_witness :
  [2] ++ [3] ≡ₚ seq 2 2
  ∧ 1%Z = (1 + width_changes (layers doctest_diagram) [2%nat])%Z.
Proof.
  destruct (follow_wire_spec doctest_diagram 1 1 4 1 [2] [3] eq_refl)
    as (_ & _ & Hp & _ & _ & Hj & _).
  split; [exact Hp|exact Hj].
Defined.

(** ** What [find_move] finds, and what it misses *)

(** [find_move] returns the index of a cap and of a cup below it, with the
    obstructions that [follow_wire] lists between the two: the left leg of
    the cap ends on the right leg of the cup for a left snake, the right leg
    of the cap on the left leg of the cup otherwise, and every box between
    the cap and the cup is one of the obstructions. *)
Theorem find_move_sound (d : Diagram) (cup cap : nat) (lo ro : list nat)
    (left_snake : bool) :
  Diagram.find_move d = Some (cup, cap, (lo, ro), left_snake) →
  cap < cup < length (layers d)
  ∧ length lo + length ro = cup - cap - 1
  ∧ ∃ capbox oc cupbox ou,
      layers d !! cap = Some (capbox, oc) ∧ Box.is_Cap capbox = true
      ∧ layers d !! cup = Some (cupbox, ou) ∧ Box.is_Cup cupbox = true
      ∧ Diagram.follow_wire d cap (if left_snake then oc else oc + 1)%Z
        = (cup, (if left_snake then ou + 1 else ou)%Z, (lo, ro)).
Proof.
  intros Hm. apply find_move_loop_Some in Hm
    as (cap' & capbox & oc & ls & Hcap & Hbox & Hleg); [|done].
  apply try_leg_Some in Hleg
    as (cup' & wire & lo' & ro' & cupbox & ou & [= <- <- <- <- <-] & Hfw & Hcup
        & Hlcup & Hcbox & Hwire).
  pose proof (lookup_lt_Some _ _ _ Hcap) as Hlt.
  pose proof (lookup_lt_Some _ _ _ Hlcup) as Hltc.
  pose proof Hfw as Hfw'. unfold Diagram.follow_wire in Hfw'.
  apply follow_wire_loop_Scan_end in Hfw'
    as (mid & post & lo0 & ro0 & _ & Hk & HS & -> & -> & _);
    [|rewrite length_drop; lia].
  apply Scan_length in HS. simpl.
  split_and!; [lia|done|lia|].
  exists capbox, oc, cupbox, ou. split_and!; try done.
  rewrite Hfw. by destruct left_snake; subst wire.
Qed.

Lemma find_move_sound_witness :
  1 < 4 < length (layers doctest_diagram).
Proof.
  destruct (find_move_sound doctest_diagram 4 1 [2] [3] true eq_refl)
    as (H & _).
  exact H.
Defined.

Lemma find_move_loop_spec (d : Diagram) (rest : list (Box * Z)) (cap : nat) :
  drop cap (layers d) = rest →
  match Diagram.find_move_loop d rest cap with
  | None =>
      ∀ c capbox oc ls, cap ≤ c →
        layers d !! c = Some (capbox, oc) → Box.is_Cap capbox = true →
        Diagram.try_leg d c ls (if ls then oc else oc + 1)%Z = None
  | Some m =>
      ∃ c capbox oc ls, cap ≤ c
        ∧ layers d !! c = Some (capbox, oc) ∧ Box.is_Cap capbox = true
        ∧ Diagram.try_leg d c ls (if ls then oc else oc + 1)%Z = Some m
        ∧ (ls = false → Diagram.try_leg d c true oc = None)
        ∧ ∀ c' capbox' oc' ls', cap ≤ c' < c →
            layers d !! c' = Some (capbox', oc') →
            Box.is_Cap capbox' = true →
            Diagram.try_leg d c' ls' (if ls' then oc' else oc' + 1)%Z = None
  end.
Proof.
  revert cap. induction rest as [|[box off] rest IH]; intros cap Hdrop.
  { simpl. intros c capbox oc ls Hc Hl. apply lookup_lt_Some in Hl.
    apply (f_equal length) in Hdrop. rewrite length_drop in Hdrop.
    simpl in Hdrop. lia. }
  assert (Hcap : layers d !! cap = Some (box, off)).
  { rewrite <- (Nat.add_0_r cap), <- lookup_drop. by rewrite Hdrop. }
  assert (Hrest : drop (cap + 1) (layers d) = rest).
  { rewrite Nat.add_1_r. by rewrite (drop_S _ _ _ Hcap) in Hdrop; simplify_eq. }
  specialize (IH (cap + 1) Hrest).
  cbn [Diagram.find_move_loop].
  destruct (Box.is_Cap box) eqn:Hbox; cbn [negb].
  - destruct (Diagram.try_leg d cap true off) as [m1|] eqn:H1.
    { exists cap, box, off, true. split_and!; try done. intros; lia. }
    destruct (Diagram.try_leg d cap false (off + 1)%Z) as [m2|] eqn:H2.
    { exists cap, box, off, false. split_and!; try done. intros; lia. }
    destruct (Diagram.find_move_loop d rest (cap + 1)) as [m|].
    + destruct IH as (c & capbox & oc & ls & Hc & Hl & Hb & Hleg & Hfirst & Hmin).
      exists c, capbox, oc, ls. split_and!; try done; [lia|].
      intros c' capbox' oc' ls' Hc' Hl' Hb'.
      destruct (decide (c' = cap)) as [->|Hne].
      * rewrite Hcap in Hl'. injection Hl' as <- <-. by destruct ls'.
      * apply (Hmin c' capbox'); [lia|done|done].
    + intros c capbox oc ls Hc Hl Hb.
      destruct (decide (c = cap)) as [->|Hne].
      * rewrite Hcap in Hl. injection Hl as <- <-. by destruct ls.
      * apply (IH c capbox); [lia|done|done].
  - destruct (Diagram.find_move_loop d rest (cap + 1)) as [m|].
    + destruct IH as (c & capbox & oc & ls & Hc & Hl & Hb & Hleg & Hfirst & Hmin).
      exists c, capbox, oc, ls. split_and!; try done; [lia|].
      intros c' capbox' oc' ls' Hc' Hl' Hb'.
      destruct (decide (c' = cap)) as [->|Hne].
      * rewrite Hcap in Hl'. injection Hl' as <- <-. congruence.
      * apply (Hmin c' capbox'); [lia|done|done].
    + intros c capbox oc ls Hc Hl Hb.
      destruct (decide (c = cap)) as [->|Hne].
      * rewrite Hcap in Hl. injection Hl as <- <-. congruence.
      * apply (IH c capbox); [lia|done|done].
Qed.

Lemma try_leg_yankable (d : Diagram) (cap : nat) (capbox : Box) (oc : Z)
    (ls : bool) :
  layers d !! cap = Some (capbox, oc) → Box.is_Cap capbox = true →
  Diagram.try_leg d cap ls (if ls then oc else oc + 1)%Z = None
  ↔ ¬ yankable d cap ls.
Proof.
  intros Hl Hb. split.
  - intros Hnone (capbox' & oc' & cup & wire & obs & cupbox & ou & Hl' & _
                  & Hfw & Hlc & Hc & Hw).
    rewrite Hl in Hl'. injection Hl' as <- <-.
    unfold Diagram.try_leg in Hnone. rewrite Hfw, Hlc, Hc in Hnone.
    apply lookup_lt_Some in Hlc. subst wire.
    rewrite bool_decide_eq_false_2 in Hnone by lia.
    destruct ls;
      [rewrite (bool_decide_eq_true_2 ((ou + 1)%Z = (ou + 1)%Z)) in Hnone
         by done
      |rewrite (bool_decide_eq_true_2 (ou = ou)) in Hnone by done];
      simpl in Hnone; done.
  - intros Hny.
    destruct (Diagram.try_leg d cap ls _) as [m|] eqn:Hleg; [|done].
    destruct Hny.
    apply try_leg_Some in Hleg
      as (cup & wire & lo & ro & cupbox & ou & _ & Hfw & _ & Hlc & Hc & Hw).
    exists capbox, oc, cup, wire, (lo, ro), cupbox, ou.
    split_and!; try done. destruct ls; by symmetry.
Qed.

Lemma not_cap_not_yankable (d : Diagram) (cap : nat) (box : Box) (off : Z)
    (ls : bool) :
  layers d !! cap = Some (box, off) → Box.is_Cap box = false →
  ¬ yankable d cap ls.
Proof.
  intros Hl Hb (capbox & oc & _ & _ & _ & _ & _ & Hl' & Hb' & _).
  rewrite Hl in Hl'. injection Hl' as <- <-. congruence.
Qed.

(** [find_move] takes the first cap, from the top, one leg of which runs
    into the matching leg of a cup, and tries the left leg before the right
    one: the pair returned is yankable, no box above the cap returned is a
    cap with such a leg, and neither is the left leg of the cap returned
    with a right snake. *)
Theorem find_move_first (d : Diagram) (cup cap : nat)
    (obstructions : list nat * list nat) (left_snake : bool) :
  Diagram.find_move d = Some (cup, cap, obstructions, left_snake) →
  yankable d cap left_snake
  ∧ (∀ c ls, c < cap → ¬ yankable d c ls)
  ∧ (left_snake = false → ¬ yankable d cap true).
Proof.
  intros Hm. pose proof (find_move_loop_spec d (layers d) 0 eq_refl) as H.
  unfold Diagram.find_move in Hm. rewrite Hm in H.
  destruct H as (c & capbox & oc & ls & _ & Hl & Hb & Hleg & Hfirst & Hmin).
  pose proof Hleg as Hleg'.
  apply try_leg_Some in Hleg'
    as (cup' & wire & lo' & ro' & cupbox & ou & [= <- <- <- <-] & Hfw & _ & Hlc
        & Hc & Hw).
  split_and!.
  - exists capbox, oc, cup, wire, obstructions, cupbox, ou.
    split_and!; try done. destruct left_snake; by symmetry.
  - intros c' ls' Hc'.
    destruct (lookup_lt_is_Some_2 (layers d) c') as [[box off] Hl'].
    { apply lookup_lt_Some in Hl. lia. }
    destruct (Box.is_Cap box) eqn:Hb'.
    + eapply try_leg_yankable; [done|done|]. eapply Hmin; [lia|done|done].
    + by eapply not_cap_not_yankable.
  - intros Hls. eapply try_leg_yankable; [done|done|]. by apply Hfirst.
Qed.

Lemma find_move_first_witness :
  yankable right_snake 0 false ∧ ¬ yankable right_snake 0 true.
Proof.
  destruct (find_move_first right_snake 1 0 ([], []) false eq_refl)
    as (Hy & _ & Hn).
  split; [exact Hy|exact (Hn eq_refl)].
Defined.

(** [find_move] returns [None] exactly when no leg of any cap of the diagram
    runs into the matching leg of a cup. *)
Theorem find_move_None_iff (d : Diagram) :
  Diagram.find_move d = None ↔ ∀ cap left_snake, ¬ yankable d cap left_snake.
Proof.
  pose proof (find_move_loop_spec d (layers d) 0 eq_refl) as H.
  unfold Diagram.find_move. split.
  - intros Hm. rewrite Hm in H. intros cap ls Hy.
    pose proof Hy as (capbox & oc & _ & _ & _ & _ & _ & Hl & Hb & _).
    revert Hy. eapply try_leg_yankable; [done|done|].
    eapply H; [lia|done|done].
  - intros Hall.
    destruct (Diagram.find_move_loop d (layers d) 0) as [m|]; [|done].
    destruct H as (c & capbox & oc & ls & _ & Hl & Hb & Hleg & _).
    destruct (Hall c ls).
    apply try_leg_Some in Hleg
      as (cup & wire & lo & ro & cupbox & ou & _ & Hfw & _ & Hlc & Hc & Hw).
    exists capbox, oc, cup, wire, (lo, ro), cupbox, ou.
    split_and!; try done. destruct ls; by symmetry.
Qed.

(** ** Diagrams without caps or without cups *)

Section NormalizeWithoutSnakes.
Variable moncat_normalize : Diagram → bool → list Diagram.

(** On a diagram without caps, or without cups, [find_move] finds nothing
    and the snake removal yields nothing: the diagrams that [normalize]
    yields are those that the monoidal normaliser yields for the diagram
    itself. *)
Theorem normalize_without_caps_or_cups (d : Diagram) (left : bool) :
  Forall (λ b, Box.is_Cap b = false) (boxes d)
  ∨ Forall (λ b, Box.is_Cup b = false) (boxes d) →
  Diagram.find_move d = None
  ∧ Diagram.yields (Diagram.normalize moncat_normalize d left)
    = moncat_normalize d left.
Proof.
  intros H.
  assert (Hnone : Diagram.find_move d = None).
  { pose proof (find_move_loop_spec d (layers d) 0 eq_refl) as Hspec.
    unfold Diagram.find_move.
    destruct (Diagram.find_move_loop d (layers d) 0) as [m|]; [|done].
    destruct Hspec as (c & capbox & oc & ls & _ & Hl & Hb & Hleg & _).
    destruct H as [Hcaps|Hcups].
    - rewrite Forall_forall in Hcaps.
      rewrite (Hcaps capbox) in Hb; [done|].
      unfold boxes. apply list_elem_of_fmap. exists (capbox, oc).
      split; [done|]. by eapply list_elem_of_lookup_2.
    - apply try_leg_Some in Hleg
        as (cup & wire & lo & ro & cupbox & ou & _ & _ & _ & Hlcup & Hcup & _).
      rewrite Forall_forall in Hcups.
      rewrite (Hcups cupbox) in Hcup; [done|].
      unfold boxes. apply list_elem_of_fmap. exists (cupbox, ou).
      split; [done|]. by eapply list_elem_of_lookup_2. }
  split; [done|].
  unfold Diagram.normalize. cbn [Diagram.snake_loop]. by rewrite Hnone.
Qed.
End NormalizeWithoutSnakes.

Lemma normalize_without_caps_or_cups_witness :
  Diagram.find_move doctest_normal_form = None
  ∧ Diagram.yields (Diagram.normalize idle_normalize doctest_normal_form false)
    = [].
Proof.
  apply (normalize_without_caps_or_cups idle_normalize doctest_normal_form false).
  left. repeat constructor.
Defined.

(** ** Interchange keeps the boxes *)

Lemma interchange_adjacent_boxes (d d' : Diagram) (i : nat) (left : bool) :
  Diagram.interchange_adjacent d i left = Ok d' → boxes d' ≡ₚ boxes d.
Proof.
  unfold Diagram.interchange_adjacent.
  destruct (layers d !! i) as [[box0 off0]|] eqn:H0; [|done].
  destruct (layers d !! (i + 1)) as [[box1 off1]|] eqn:H1; [|done].
  assert (Hls : layers d = take i (layers d)
                  ++ (box0, off0) :: (box1, off1) :: drop (i + 2) (layers d)).
  { rewrite <- (take_drop_middle _ _ _ H0) at 1. f_equal. f_equal.
    rewrite Nat.add_1_r in H1. rewrite (drop_S _ _ _ H1). do 2 f_equal. lia. }
  assert (Hp : ∀ o1 o0,
    fst <$> (take i (layers d) ++ [(box1, o1); (box0, o0)]
             ++ drop (i + 2) (layers d)) ≡ₚ boxes d).
  { intros o1 o0. unfold boxes. rewrite Hls at 3.
    rewrite !fmap_app. simpl. apply Permutation_app_head, Permutation_swap. }
  repeat case_match; intros [= <-]; try done; apply Hp.
Qed.

Lemma interchange_steps_boxes (steps : list nat) (d d' : Diagram)
    (left : bool) :
  Diagram.interchange_steps d steps left = Ok d' → boxes d' ≡ₚ boxes d.
Proof.
  revert d. induction steps as [|p steps IH]; intros d; simpl.
  - by intros [= <-].
  - destruct (Diagram.interchange_adjacent d p left) as [d1|] eqn:H1; [|done].
    simpl. intros H. rewrite (IH _ H). by eapply interchange_adjacent_boxes.
Qed.

Lemma interchange_boxes (d d' : Diagram) (i j : nat) (left : bool) :
  Diagram.interchange d i j left = Ok d' → boxes d' ≡ₚ boxes d.
Proof.
  unfold Diagram.interchange.
  destruct (Diagram.moncat_interchange d i j left) as [d1|] eqn:H1; [|done].
  simpl. intros [= <-]. change (boxes d1 ≡ₚ boxes d).
  revert H1. unfold Diagram.moncat_interchange.
  repeat case_match; try done.
  - by intros [= <-].
  - apply interchange_steps_boxes.
  - apply interchange_steps_boxes.
  - apply interchange_adjacent_boxes.
Qed.

(** ** The diagrams that the loops of [move] yield *)

Lemma interchange_yield_step {B : Type} (d : Diagram) (i j : nat)
    (k : Diagram → Diagram.Gen B) (b : B) :
  Diagram.outcome
    (Diagram.lift (Diagram.interchange d i j false) ≫= λ d',
     Diagram.yield d' ≫= λ _, k d') = Ok b →
  ∃ d1, Diagram.interchange d i j false = Ok d1
    ∧ Diagram.yields
        (Diagram.lift (Diagram.interchange d i j false) ≫= λ d',
         Diagram.yield d' ≫= λ _, k d') = d1 :: Diagram.yields (k d1)
    ∧ Diagram.outcome (k d1) = Ok b.
Proof.
  destruct (Diagram.interchange d i j false) as [d1|e] eqn:Hi; [|done].
  unfold mbind, Diagram.Gen_bind. simpl. intros H. exists d1.
  by destruct (k d1) as [ys []]; simplify_eq/=.
Qed.

Lemma trace_of_nil (d : Diagram) : trace_of d 0 [] d.
Proof. by split_and!. Qed.

Lemma trace_of_cons (d d1 d' : Diagram) (n : nat) (ys : list Diagram) :
  boxes d1 ≡ₚ boxes d → same_type d d1 →
  trace_of d1 n ys d' → trace_of d (S n) (d1 :: ys) d'.
Proof.
  intros Hb Ht (Hlen & Hlast & Hall). split_and!.
  - simpl. by rewrite Hlen.
  - rewrite last_cons. by destruct (last ys).

  - constructor; [done|]. eapply Forall_impl; [exact Hall|]. simpl.
    intros y [Hy Hty]. split; [by rewrite Hy|by eapply same_type_trans].
Qed.

Lemma trace_of_app (d d1 d2 : Diagram) (n1 n2 : nat) (ys1 ys2 : list Diagram) :
  trace_of d n1 ys1 d1 → trace_of d1 n2 ys2 d2 →
  trace_of d (n1 + n2) (ys1 ++ ys2) d2.
Proof.
  revert d n1. induction ys1 as [|y ys1 IH]; intros d n1.
  - intros (<- & <- & _). done.
  - intros (<- & Hlast & Hall) H2. apply Forall_cons in Hall as [[Hy Hty] Hall].
    simpl. apply trace_of_cons; [done|done|]. apply IH; [|done].
    split_and!; [done| |].
    + rewrite last_cons in Hlast. by destruct (last ys1).
    + eapply Forall_impl; [exact Hall|]. simpl. intros y' [Hy' Hty'].
      split; [by rewrite Hy', Hy|].
      destruct Hty as [? ?], Hty' as [? ?]. split; congruence.
Qed.

Lemma trace_of_boxes (d d' : Diagram) (n : nat) (ys : list Diagram) :
  trace_of d n ys d' → boxes d' ≡ₚ boxes d ∧ same_type d d'.
Proof.
  intros (_ & Hlast & Hall). destruct (last ys) as [y|] eqn:Hy.
  - simpl in Hlast. subst y. apply last_Some_elem_of in Hy.
    rewrite Forall_forall in Hall. by apply Hall.
  - simpl in Hlast. by subst d'.
Qed.

Ltac trace_step IH :=
  let d1 := fresh "d1" in
  let Hi := fresh "Hi" in
  let Hy := fresh "Hy" in
  let Ho := fresh "Ho" in
  intros (d1 & Hi & Hy & Ho)%interchange_yield_step;
  rewrite Hy; apply trace_of_cons;
  [by eapply interchange_boxes|by eapply interchange_same_type|by apply IH].

Lemma move_left_snake_left_trace (lo ro : list nat) (d : Diagram) (cap : nat)
    (r : Diagram * nat * list nat) :
  Diagram.outcome (Diagram.move_left_snake_left d cap lo ro) = Ok r →
  trace_of d (length lo)
    (Diagram.yields (Diagram.move_left_snake_left d cap lo ro)) r.1.1
  ∧ length r.2 = length ro.
Proof.
  revert d cap ro. induction lo as [|box lo IH]; intros d cap ro;
    cbn [Diagram.move_left_snake_left].
  - intros [= <-]. split; [apply trace_of_nil|done].
  - intros (d1 & Hi & Hy & Ho)%interchange_yield_step.
    rewrite Hy. apply IH in Ho as [Ho Hlen]. split.
    + apply trace_of_cons;
        [by eapply interchange_boxes|by eapply interchange_same_type|done].
    + by rewrite Hlen, length_fmap.
Qed.

Lemma move_right_snake_left_trace (lo ro : list nat) (d : Diagram) (cup : nat)
    (r : Diagram * nat * list nat) :
  Diagram.outcome (Diagram.move_right_snake_left d cup lo ro) = Ok r →
  trace_of d (length lo)
    (Diagram.yields (Diagram.move_right_snake_left d cup lo ro)) r.1.1
  ∧ length r.2 = length ro.
Proof.
  revert d cup ro. induction lo as [|box lo IH]; intros d cup ro;
    cbn [Diagram.move_right_snake_left].
  - intros [= <-]. split; [apply trace_of_nil|done].
  - intros (d1 & Hi & Hy & Ho)%interchange_yield_step.
    rewrite Hy. apply IH in Ho as [Ho Hlen]. split.
    + apply trace_of_cons;
        [by eapply interchange_boxes|by eapply interchange_same_type|done].
    + by rewrite Hlen, length_fmap.
Qed.

Lemma move_left_snake_right_trace (ro : list nat) (d : Diagram) (cup : nat)
    (r : Diagram * nat) :
  Diagram.outcome (Diagram.move_left_snake_right d cup ro) = Ok r →
  trace_of d (length ro)
    (Diagram.yields (Diagram.move_left_snake_right d cup ro)) r.1.
Proof.
  revert d cup. induction ro as [|box ro IH]; intros d cup;
    cbn [Diagram.move_left_snake_right].
  - intros [= <-]. apply trace_of_nil.
  - trace_step IH.
Qed.

Lemma move_right_snake_right_trace (ro : list nat) (d : Diagram) (cap : nat)
    (r : Diagram * nat) :
  Diagram.outcome (Diagram.move_right_snake_right d cap ro) = Ok r →
  trace_of d (length ro)
    (Diagram.yields (Diagram.move_right_snake_right d cap ro)) r.1.
Proof.
  revert d cap. induction ro as [|box ro IH]; intros d cap;
    cbn [Diagram.move_right_snake_right].
  - intros [= <-]. apply trace_of_nil.
  - trace_step IH.
Qed.

Lemma move_loops_trace (d : Diagram) (cup cap : nat) (lo ro : list nat)
    (left_snake : bool) (r : Diagram * nat * nat) :
  Diagram.outcome (move_loops d cup cap lo ro left_snake) = Ok r →
  trace_of d (length lo + length ro)
    (Diagram.yields (move_loops d cup cap lo ro left_snake)) r.1.1.
Proof.
  unfold move_loops. destruct left_snake.
  - intros ([[d1 cap1] ro1] & H1 & H)%Gen_bind_outcome.
    rewrite (Gen_bind_Ok _ _ _ H1). cbn [Diagram.yields].
    apply Gen_bind_outcome in H as ([d2 cup2] & H2 & H).
    rewrite (Gen_bind_Ok _ _ _ H2). cbn [Diagram.yields]. simpl in H.
    injection H as <-. simpl. rewrite app_nil_r.
    apply move_left_snake_left_trace in H1 as [H1 Hlen].
    apply move_left_snake_right_trace in H2.
    rewrite length_reverse in H2. simpl in *. rewrite Hlen in H2.
    by eapply trace_of_app.
  - intros ([[d1 cup1] ro1] & H1 & H)%Gen_bind_outcome.
    rewrite (Gen_bind_Ok _ _ _ H1). cbn [Diagram.yields].
    apply Gen_bind_outcome in H as ([d2 cap2] & H2 & H).
    rewrite (Gen_bind_Ok _ _ _ H2). cbn [Diagram.yields]. simpl in H.
    injection H as <-. simpl. rewrite app_nil_r.
    apply move_right_snake_left_trace in H1 as [H1 Hlen].
    apply move_right_snake_right_trace in H2.
    rewrite length_reverse in H1. simpl in *. rewrite Hlen in H2.
    by eapply trace_of_app.
Qed.

Lemma move_unfold (d : Diagram) (cup cap : nat) (lo ro : list nat)
    (left_snake : bool) :
  Diagram.move d (cup, cap, (lo, ro), left_snake)
  = move_loops d cup cap lo ro left_snake ≫= λ '(diagram, cup, cap),
      let result :=
        mkDiagram (dom diagram) (cod diagram)
          (take cap (layers diagram) ++ drop (cup + 1) (layers diagram)) in
      Diagram.yield result ≫= λ _, mret result.
Proof. reflexivity. Qed.

(** ** [move] brings the cup right below the cap *)

Lemma move_loops_find_move (d : Diagram) (cup cap : nat) (lo ro : list nat)
    (left_snake : bool) :
  Diagram.find_move d = Some (cup, cap, (lo, ro), left_snake) →
  ∃ A capbox oc0 oc cupbox ou0 ou B,
    Diagram.outcome (move_loops d cup cap lo ro left_snake)
    = Ok (mkDiagram (dom d) (cod d)
            (A ++ (capbox, oc) :: (cupbox, ou) :: B),
          length A + 1, length A)
    ∧ layers d !! cap = Some (capbox, oc0)
    ∧ layers d !! cup = Some (cupbox, ou0)
    ∧ Box.is_Cap capbox = true ∧ Box.is_Cup cupbox = true
    ∧ (if left_snake then ou + 1 = oc else ou = oc + 1)%Z
    ∧ length lo + length ro = cup - cap - 1
    ∧ cap < cup.
Proof.
  intros (pre & capbox & oc & mid & cupbox & ou & post & lo' & ro' & ls
          & wire & Hlayers & [= -> -> -> -> ->] & Hcap & Hcup & HS & Hwire)
    %find_move_Some.
  destruct d as [dm cd layers0]. cbn [layers dom cod] in *. subst layers0.
  assert (Hlen : length lo' + length ro' = length mid).
  { clear -HS. induction HS; simpl in *; lia. }
  pose proof Hcap as Hcap'. pose proof Hcup as Hcup'.
  apply is_Cap_widths in Hcap as [Hcapdom Hcapcod].
  apply is_Cup_widths in Hcup as [Hcupdom Hcupcod].
  assert (Hlcap : (pre ++ (capbox, oc) :: mid ++ (cupbox, ou) :: post)
                  !! length pre = Some (capbox, oc)).
  { by rewrite list_lookup_middle. }
  assert (Hlcup : (pre ++ (capbox, oc) :: mid ++ (cupbox, ou) :: post)
                  !! (length pre + 1 + length mid) = Some (cupbox, ou)).
  { change (pre ++ (capbox, oc) :: mid ++ (cupbox, ou) :: post)
      with (pre ++ ((capbox, oc) :: mid) ++ (cupbox, ou) :: post).
    rewrite app_assoc. apply list_lookup_middle.
    rewrite !length_app. simpl. lia. }
  unfold move_loops. destruct ls.
  - destruct (move_left_snake_left_outcome lo' dm cd capbox
                ((cupbox, ou) :: post) wire pre oc mid ro' HS)
      as (pre' & mid' & H1 & Hall & Hlen').
    pose proof (move_left_snake_right_outcome mid' dm cd
                  (pre' ++ [(capbox, wire)]) cupbox ou post) as H2.
    rewrite length_app, <- !app_assoc in H2. cbn [length app] in H2.
    exists pre', capbox, oc, wire, cupbox, ou, ou,
      ((shift_by (width_change cupbox) <$> mid') ++ post).
    split_and!; try done; try lia.
    apply Gen_bind_outcome. eexists. split; [exact H1|].
    cbn beta iota. apply Gen_bind_outcome. eexists.
    split.
    { replace (length pre + 1 + length mid)
        with (length pre' + 1 + length mid') by lia.
      rewrite Nat.add_1_r. rewrite Nat.add_1_r in H2. apply H2.
      eapply Forall_impl; [exact Hall|]. simpl. intros; lia. }
    rewrite Nat.add_1_r. reflexivity.
  - destruct (move_right_snake_left_outcome lo' dm cd
                (pre ++ [(capbox, oc)]) cupbox (oc + 1)%Z ltac:(lia)
                mid ro' wire post) as (mid' & post' & H1 & Hall & Hlen').
    { rewrite length_app. simpl. by rewrite Nat.add_1_r. }
    subst wire. rewrite length_app, <- !app_assoc in H1.
    cbn [length app] in H1.
    pose proof (move_right_snake_right_outcome mid' dm cd capbox oc
                  ((cupbox, (oc + 1)%Z) :: post') pre) as H2.
    exists (pre ++ (shift_by (- width_change capbox) <$> mid')), capbox, oc, oc,
      cupbox, ou, (oc + 1)%Z, post'.
    split_and!; try done; try lia.
    apply Gen_bind_outcome. eexists. split; [exact H1|].
    cbn beta iota. apply Gen_bind_outcome. eexists.
    split.
    { rewrite Nat.add_1_r. apply H2.
      eapply Forall_impl; [exact Hall|]. simpl. intros x Hx.
      pose proof (len_dom_nonneg x.1). lia. }
    rewrite <- app_assoc, length_app, length_fmap.
    replace (length pre + length mid' + 1) with (length pre + 1 + length mid')
      by lia.
    reflexivity.
Qed.



(** Called on what [find_move] returns, [move] does not raise.  Its
    [cup - cap - 1] interchanges bring the cup right below the cap, the leg
    that joins them being one wire apart from the other two, and the last
    diagram yielded, which is returned, is that diagram without the two
    boxes: the input loses its cap and its cup, and nothing else. *)
Theorem move_contracts_snake (d : Diagram) (cup cap : nat) (lo ro : list nat)
    (left_snake : bool) :
  Diagram.find_move d = Some (cup, cap, (lo, ro), left_snake) →
  ∃ ys A capbox oc cupbox ou B,
    Diagram.yields (Diagram.move d (cup, cap, (lo, ro), left_snake))
    = ys ++ [mkDiagram (dom d) (cod d) (A ++ B)]
    ∧ Diagram.outcome (Diagram.move d (cup, cap, (lo, ro), left_snake))
      = Ok (mkDiagram (dom d) (cod d) (A ++ B))
    ∧ length ys = cup - cap - 1
    ∧ layers (default d (last ys)) = A ++ (capbox, oc) :: (cupbox, ou) :: B
    ∧ boxes d !! cap = Some capbox ∧ boxes d !! cup = Some cupbox
    ∧ Box.is_Cap capbox = true ∧ Box.is_Cup cupbox = true
    ∧ (if left_snake then ou + 1 = oc else ou = oc + 1)%Z
    ∧ boxes d ≡ₚ capbox :: cupbox :: (fst <$> A ++ B).
Proof.
  intros (A & capbox & oc0 & oc & cupbox & ou0 & ou & B & Hout & Hlcap & Hlcup
          & Hcap & Hcup & Hoff & Hlen & Hlt)%move_loops_find_move.
  pose proof (move_loops_trace _ _ _ _ _ _ _ Hout) as Htrace.
  pose proof (trace_of_boxes _ _ _ _ Htrace) as [Hboxes _].
  destruct Htrace as (Hn & Hlast & _). cbn [fst] in *.
  exists (Diagram.yields (move_loops d cup cap lo ro left_snake)),
    A, capbox, oc, cupbox, ou, B.
  rewrite move_unfold, (Gen_bind_Ok _ _ _ Hout).
  cbn [Diagram.yields Diagram.outcome].
  assert (Hres : take (length A) (A ++ (capbox, oc) :: (cupbox, ou) :: B)
                 ++ drop (length A + 1 + 1)
                      (A ++ (capbox, oc) :: (cupbox, ou) :: B) = A ++ B).
  { rewrite take_app_length. f_equal.
    rewrite <- Nat.add_assoc, drop_app_add'; done. }
  split_and!.
  - simpl. by rewrite Hres.
  - simpl. by rewrite Hres.
  - lia.
  - by rewrite Hlast.
  - unfold boxes. by rewrite list_lookup_fmap, Hlcap.
  - unfold boxes. by rewrite list_lookup_fmap, Hlcup.
  - done.
  - done.
  - done.
  - rewrite <- Hboxes. unfold boxes. cbn [layers].
    rewrite !fmap_app, !fmap_cons. cbn [fst].
    by rewrite <- !Permutation_middle.
Qed.

Lemma move_contracts_snake_witness :
  ∃ ys A capbox oc cupbox ou B,
    Diagram.yields (Diagram.move doctest_diagram (4, 1, ([2], [3]), true))
    = ys ++ [mkDiagram (dom doctest_diagram) (cod doctest_diagram) (A ++ B)]
    ∧ length ys = 2
    ∧ layers (default doctest_diagram (last ys))
      = A ++ (capbox, oc) :: (cupbox, ou) :: B.
Proof.
  destruct (move_contracts_snake doctest_diagram 4 1 [2] [3] true eq_refl)
    as (ys & A & capbox & oc & cupbox & ou & B & Hys & _ & Hlen & Hlast & _).
  exists ys, A, capbox, oc, cupbox, ou, B.
  split; [exact Hys|]. split; [exact Hlen|exact Hlast].
Defined.

(** ** What the snake removal keeps *)

Lemma move_removes_pair (d : Diagram) (cup cap : nat) (lo ro : list nat)
    (left_snake : bool) :
  Diagram.find_move d = Some (cup, cap, (lo, ro), left_snake) →
  ∃ d' capbox cupbox,
    Diagram.outcome (Diagram.move d (cup, cap, (lo, ro), left_snake)) = Ok d'
    ∧ last (Diagram.yields (Diagram.move d (cup, cap, (lo, ro), left_snake)))
      = Some d'
    ∧ length (Diagram.yields (Diagram.move d (cup, cap, (lo, ro), left_snake)))
      < length (layers d)
    ∧ dom d' = dom d ∧ cod d' = cod d
    ∧ Box.is_Cap capbox = true ∧ Box.is_Cup cupbox = true
    ∧ boxes d ≡ₚ capbox :: cupbox :: boxes d'.
Proof.
  intros (A & capbox & oc0 & oc & cupbox & ou0 & ou & B & Hout & Hlcap & Hlcup
          & Hcap & Hcup & Hoff & Hlen & Hlt)%move_loops_find_move.
  pose proof (move_loops_trace _ _ _ _ _ _ _ Hout) as Htrace.
  pose proof (trace_of_boxes _ _ _ _ Htrace) as [Hboxes _].
  destruct Htrace as (Hn & _ & _). cbn [fst] in *.
  apply lookup_lt_Some in Hlcup.
  exists (mkDiagram (dom d) (cod d) (A ++ B)), capbox, cupbox.
  rewrite move_unfold, (Gen_bind_Ok _ _ _ Hout).
  cbn [Diagram.yields Diagram.outcome].
  assert (Hres : take (length A) (A ++ (capbox, oc) :: (cupbox, ou) :: B)
                 ++ drop (length A + 1 + 1)
                      (A ++ (capbox, oc) :: (cupbox, ou) :: B) = A ++ B).
  { rewrite take_app_length. f_equal.
    rewrite <- Nat.add_assoc, drop_app_add'; done. }
  split_and!; try done.
  - simpl. by rewrite Hres.
  - simpl. by rewrite Hres, last_snoc.
  - rewrite length_app, Hn. simpl. lia.
  - rewrite <- Hboxes. unfold boxes. cbn [layers].
    rewrite !fmap_app, !fmap_cons. cbn [fst].
    by rewrite <- !Permutation_middle.
Qed.

Lemma snake_loop_removes_pairs (fuel : nat) (d : Diagram) :
  length (layers d) < fuel →
  ∃ d' (removed : list (Box * Box)),
    Diagram.outcome (Diagram.snake_loop fuel d) = Ok d'
    ∧ default d (last (Diagram.yields (Diagram.snake_loop fuel d))) = d'
    ∧ Diagram.find_move d' = None
    ∧ boxes d ≡ₚ removed.*1 ++ removed.*2 ++ boxes d'
    ∧ Forall (λ p, Box.is_Cap p.1 = true ∧ Box.is_Cup p.2 = true) removed
    ∧ 4 * length (Diagram.yields (Diagram.snake_loop fuel d))
      ≤ length (layers d) * length (layers d).
Proof.
  revert d. induction fuel as [|fuel IH]; intros d Hfuel; [lia|].
  cbn [Diagram.snake_loop].
  destruct (Diagram.find_move d) as [[[[cup cap] [lo ro]] ls]|] eqn:Hfind.
  2:{ exists d, []. simpl. split_and!; try done. lia. }
  destruct (move_removes_pair d cup cap lo ro ls Hfind)
    as (d1 & capbox & cupbox & Hout & Hlast & Hlen & _ & _ & Hcap & Hcup
        & Hperm).
  pose proof (Permutation_length Hperm) as Hplen.
  unfold boxes in Hplen. rewrite !length_fmap in Hplen. simpl in Hplen.
  rewrite length_fmap in Hplen.
  destruct (IH d1)
    as (d' & removed & Hout' & Hlast' & Hnone & Hperm' & Hall & Hcount).
  { lia. }
  exists d', ((capbox, cupbox) :: removed).
  rewrite (Gen_bind_Ok _ _ _ Hout). cbn [Diagram.outcome Diagram.yields].
  split_and!.
  - done.
  - rewrite last_app.
    destruct (last (Diagram.yields (Diagram.snake_loop fuel _))); [done|].
    by rewrite Hlast.
  - done.
  - rewrite Hperm, Hperm'. simpl. f_equal.
    by rewrite <- !Permutation_middle.
  - by constructor.
  - rewrite length_app. nia.
Qed.

Section NormalizeRemovesPairs.
Variable moncat_normalize : Diagram → bool → list Diagram.

(** [normalize] first yields the diagrams of the snake removal, then those of
    the monoidal normaliser, run on the last of them (on the input when there
    is none), which has no yankable pair.  The snake removal deletes caps and
    cups only, one cup for each cap, and keeps every other box; on [n] boxes
    it yields at most [n * n / 4] diagrams. *)
Theorem normalize_removes_pairs (d : Diagram) (left : bool) :
  ∃ ys d' (removed : list (Box * Box)),
    Diagram.yields (Diagram.normalize moncat_normalize d left)
    = ys ++ moncat_normalize d' left
    ∧ d' = default d (last ys)
    ∧ Diagram.find_move d' = None
    ∧ boxes d ≡ₚ removed.*1 ++ removed.*2 ++ boxes d'
    ∧ Forall (λ p, Box.is_Cap p.1 = true ∧ Box.is_Cup p.2 = true) removed
    ∧ 4 * length ys ≤ length (layers d) * length (layers d).
Proof.
  destruct (snake_loop_removes_pairs (S (length (layers d))) d ltac:(lia))
    as (d' & removed & Hout & Hlast & Hnone & Hperm & Hall & Hcount).
  exists (Diagram.yields (Diagram.snake_loop (S (length (layers d))) d)),
    d', removed.
  unfold Diagram.normalize. rewrite (Gen_bind_Ok _ _ _ Hout).
  cbn [Diagram.yields]. by split_and!.
Qed.
End NormalizeRemovesPairs.

(** ** Transposing a box twice *)

Lemma transpose_r_box (f : Box) (a b : Ob) :
  Box.dom f = [a] → Box.cod f = [b] →
  Diagram.transpose_r (box_diagram f)
  = Ok (mkDiagram [Ob.r b] [Ob.r a]
          [(MkCap (Ob.r a) a, 0%Z); (f, 1%Z); (MkCup b (Ob.r b), 1%Z)]).
Proof.
  intros Hdom Hcod. unfold Diagram.transpose_r, box_diagram.
  cbn [dom cod]. rewrite Hdom, Hcod, !Ty_r_singleton.
  pose proof (caps_singleton (Ob.r a)) as Hcaps. rewrite Ob_l_r in Hcaps.
  rewrite Hcaps, cups_singleton. cbn [mbind result_bind].
  unfold Diagram.then_. simpl. rewrite decide_True by done. simpl.
  by rewrite decide_True.
Qed.

Lemma transpose_l_box (f : Box) (a b : Ob) :
  Box.dom f = [a] → Box.cod f = [b] →
  Diagram.transpose_l (box_diagram f)
  = Ok (mkDiagram [Ob.l b] [Ob.l a]
          [(MkCap a (Ob.l a), 1%Z); (f, 1%Z); (MkCup (Ob.l b) b, 0%Z)]).
Proof.
  intros Hdom Hcod. unfold Diagram.transpose_l, box_diagram.
  cbn [dom cod]. rewrite Hdom, Hcod, !Ty_l_singleton.
  pose proof (cups_singleton (Ob.l b)) as Hcups. rewrite Ob_r_l in Hcups.
  rewrite Hcups, caps_singleton. cbn [mbind result_bind].
  unfold Diagram.then_. simpl. rewrite decide_True by done. simpl.
  by rewrite decide_True.
Qed.

Lemma transpose_r_l_box (nm : string) (a b : Ob) (data : option string)
    (dg : bool) :
  let f := MkBox nm [a] [b] data dg in
  (r ← Diagram.transpose_r (box_diagram f); Diagram.transpose_l r)
  = Ok (mkDiagram [a] [b]
          [(MkCap (Ob.r b) b, 1%Z); (MkCap (Ob.r a) a, 1%Z); (f, 2%Z);
           (MkCup b (Ob.r b), 2%Z); (MkCup a (Ob.r a), 0%Z)]).
Proof.
  intros f. rewrite (transpose_r_box f a b) by done. cbn [mbind result_bind].
  unfold Diagram.transpose_l. cbn [dom cod]. rewrite !Ty_l_singleton.
  pose proof (caps_singleton (Ob.r b)) as Hcaps. rewrite Ob_l_r in Hcaps.
  pose proof (cups_singleton (Ob.l (Ob.r a))) as Hcups.
  rewrite Ob_r_l, Ob_l_r in Hcups.
  rewrite !Ob_l_r, Hcaps, Hcups. cbn [mbind result_bind].
  unfold Diagram.then_. simpl. rewrite decide_True by done. simpl.
  by rewrite decide_True.
Qed.

Lemma transpose_l_r_box (nm : string) (a b : Ob) (data : option string)
    (dg : bool) :
  let f := MkBox nm [a] [b] data dg in
  (r ← Diagram.transpose_l (box_diagram f); Diagram.transpose_r r)
  = Ok (mkDiagram [a] [b]
          [(MkCap b (Ob.l b), 0%Z); (MkCap a (Ob.l a), 2%Z); (f, 2%Z);
           (MkCup (Ob.l b) b, 1%Z); (MkCup (Ob.l a) a, 1%Z)]).
Proof.
  intros f. rewrite (transpose_l_box f a b) by done. cbn [mbind result_bind].
  unfold Diagram.transpose_r. cbn [dom cod]. rewrite !Ty_r_singleton.
  pose proof (caps_singleton (Ob.r (Ob.l b))) as Hcaps.
  rewrite Ob_l_r, Ob_r_l in Hcaps.
  pose proof (cups_singleton (Ob.l a)) as Hcups. rewrite Ob_r_l in Hcups.
  rewrite !Ob_r_l, Hcaps, Hcups. cbn [mbind result_bind].
  unfold Diagram.then_. simpl. rewrite decide_True by done. simpl.
  by rewrite decide_True.
Qed.

Section TransposeTwice.
Variable moncat_normalize : Diagram → bool → list Diagram.

(** For a box [f] with one input and one output wire, the snake removal of
    [normalize] brings [f.transpose_r().transpose_l()] and
    [f.transpose_l().transpose_r()] back to [f] in five steps: the last
    diagram yielded before the monoidal normaliser takes over is [f]
    itself. *)
Theorem transpose_twice (f : Box) (a b : Ob) (left : bool) :
  Box.dom f = [a] → Box.cod f = [b] →
  (∃ t ys,
     (r ← Diagram.transpose_r (box_diagram f); Diagram.transpose_l r) = Ok t
     ∧ Diagram.yields (Diagram.normalize moncat_normalize t left)
       = ys ++ moncat_normalize (box_diagram f) left
     ∧ last ys = Some (box_diagram f) ∧ length ys = 5)
  ∧ (∃ t ys,
       (r ← Diagram.transpose_l (box_diagram f); Diagram.transpose_r r) = Ok t
       ∧ Diagram.yields (Diagram.normalize moncat_normalize t left)
         = ys ++ moncat_normalize (box_diagram f) left
       ∧ last ys = Some (box_diagram f) ∧ length ys = 5).
Proof.
  intros Hdom Hcod.
  destruct f as [nm bdom bcod data dg| |]; try done.
  simpl in Hdom, Hcod. subst bdom bcod.
  split.
  - eexists _, (Diagram.yields (Diagram.snake_loop 6 _)).
    split; [apply transpose_r_l_box|].
    unfold Diagram.normalize. cbn [layers length].
    erewrite Gen_bind_Ok by (vm_compute; reflexivity).
    cbn [Diagram.yields]. split_and!; [reflexivity| |];
      vm_compute; reflexivity.
  - eexists _, (Diagram.yields (Diagram.snake_loop 6 _)).
    split; [apply transpose_l_r_box|].
    unfold Diagram.normalize. cbn [layers length].
    erewrite Gen_bind_Ok by (vm_compute; reflexivity).
    cbn [Diagram.yields]. split_and!; [reflexivity| |];
      vm_compute; reflexivity.
Qed.
End TransposeTwice.

Lemma transpose_twice_witness :
  let f := MkBox "f" [mkOb "a" 0] [mkOb "b" 0] None false in
  ∃ t ys,
    (r ← Diagram.transpose_r (box_diagram f); Diagram.transpose_l r) = Ok t
    ∧ Diagram.yields (Diagram.normalize idle_normalize t false)
      = ys ++ idle_normalize (box_diagram f) false
    ∧ last ys = Some (box_diagram f) ∧ length ys = 5.
Proof.
  intros f.
  destruct (transpose_twice idle_normalize f (mkOb "a" 0) (mkOb "b" 0) false
              eq_refl eq_refl) as [H _].
  exact H.
Defined.

(** ** Functors preserve adjoints and tensors *)

Lemma adjoints_0 (t : Ty) : adjoints 0 t = t.
Proof.
  unfold adjoints. simpl. etrans; [|apply list_fmap_id].
  apply list_fmap_ext. intros _ [nm k] _. simpl. f_equal. lia.
Qed.

Lemma Ty_r_adjoints (k : Z) (t : Ty) :
  Ty.r (adjoints k t) = adjoints (k + 1) t.
Proof.
  unfold Ty.r, adjoints. rewrite <- fmap_reverse, <- list_fmap_compose.
  replace (reverse (if Z.even k then t else reverse t))
    with (if Z.even (k + 1) then t else reverse t).
  - apply list_fmap_ext. intros _ [nm w] _. unfold Ob.r. simpl. f_equal. lia.
  - rewrite Z.even_add. simpl. destruct (Z.even k); simpl; [done|].
    by rewrite reverse_involutive.
Qed.

Lemma Ty_l_adjoints (k : Z) (t : Ty) :
  Ty.l (adjoints k t) = adjoints (k - 1) t.
Proof.
  unfold Ty.l, adjoints. rewrite <- fmap_reverse, <- list_fmap_compose.
  replace (reverse (if Z.even k then t else reverse t))
    with (if Z.even (k - 1) then t else reverse t).
  - apply list_fmap_ext. intros _ [nm w] _. unfold Ob.l. simpl. f_equal. lia.
  - rewrite Z.even_sub. simpl. destruct (Z.even k); simpl; [done|].
    by rewrite reverse_involutive.
Qed.

Lemma iter_Ty_r (n : nat) (t : Ty) :
  Nat.iter n Ty.r t = adjoints (Z.of_nat n) t.
Proof.
  induction n as [|n IH]; [by rewrite adjoints_0|].
  rewrite Nat.iter_succ, IH, Ty_r_adjoints. f_equal. lia.
Qed.

Lemma iter_Ty_l (n : nat) (t : Ty) :
  Nat.iter n Ty.l t = adjoints (- Z.of_nat n) t.
Proof.
  induction n as [|n IH]; [by rewrite adjoints_0|].
  rewrite Nat.iter_succ, IH, Ty_l_adjoints. f_equal. lia.
Qed.

Lemma call_Ob_adjoints (F : RigidFunctor) (o : Ob) :
  RigidFunctor.call_Ob F o
  = match ob F !! [mkOb (name o) 0] with
    | Some t => Ok (adjoints (z o) t)
    | None => Raise KeyError
    end.
Proof.
  unfold RigidFunctor.call_Ob. destruct (ob F !! _) as [t|]; [|done].
  repeat case_bool_decide.
  - rewrite iter_Ty_l. do 2 f_equal. lia.
  - rewrite iter_Ty_r. do 2 f_equal. lia.
  - replace (z o) with 0%Z by lia. by rewrite adjoints_0.
Qed.

(** Applied to an object, a functor looks up the object of the same name and
    winding number [0], whatever the winding number [z] of the object: a
    missing key raises [KeyError], and the image is otherwise that of the
    base object with every winding number moved by [z], in reversed order
    when [z] is odd.  So [F(o.r) == F(o).r] and [F(o.l) == F(o).l]. *)
Theorem call_Ob_closed_form (F : RigidFunctor) (o : Ob) :
  RigidFunctor.call_Ob F o
  = match ob F !! [mkOb (name o) 0] with
    | Some t => Ok (adjoints (z o) t)
    | None => Raise KeyError
    end
  ∧ RigidFunctor.call_Ob F (Ob.r o)
    = (t ← RigidFunctor.call_Ob F o; Ok (Ty.r t))
  ∧ RigidFunctor.call_Ob F (Ob.l o)
    = (t ← RigidFunctor.call_Ob F o; Ok (Ty.l t)).
Proof.
  rewrite !call_Ob_adjoints. cbn [Ob.r Ob.l name z].
  destruct (ob F !! _) as [t|]; [|done]. cbn [mbind result_bind].
  by rewrite Ty_r_adjoints, Ty_l_adjoints.
Qed.

Lemma foldl_tensor (acc : Ty) (images : list Ty) :
  foldl Ty.tensor acc images = acc ++ concat images.
Proof.
  revert acc. induction images as [|t images IH]; intros acc; simpl.
  - by rewrite app_nil_r.
  - rewrite IH. unfold Ty.tensor. by rewrite app_assoc.
Qed.

Lemma call_Ty_nil (F : RigidFunctor) : RigidFunctor.call_Ty F [] = Ok [].
Proof. reflexivity. Qed.

Lemma call_Ty_cons (F : RigidFunctor) (o : Ob) (t : Ty) :
  RigidFunctor.call_Ty F (o :: t)
  = (a ← RigidFunctor.call_Ob F o; b ← RigidFunctor.call_Ty F t; Ok (a ++ b)).
Proof.
  unfold RigidFunctor.call_Ty. simpl.
  destruct (RigidFunctor.call_Ob F o) as [a|e]; [|done]. simpl.
  destruct (mapM (RigidFunctor.call_Ob F) t) as [images|e]; [|done]. simpl.
  by rewrite !foldl_tensor.
Qed.

Lemma call_Ty_KeyError (F : RigidFunctor) (t : Ty) (e : Exception) :
  RigidFunctor.call_Ty F t = Raise e → e = KeyError.
Proof.
  revert e. induction t as [|o t IH]; intros e; [done|].
  rewrite call_Ty_cons.
  destruct (RigidFunctor.call_Ob F o) as [a|e1] eqn:Ho; simpl.
  - destruct (RigidFunctor.call_Ty F t) as [b|e2]; simpl; [done|].
    intros [= <-]. by apply IH.
  - intros [= <-]. by eapply call_Ob_KeyError.
Qed.

Lemma call_Ty_app (F : RigidFunctor) (t u : Ty) :
  RigidFunctor.call_Ty F (t ++ u)
  = (a ← RigidFunctor.call_Ty F t; b ← RigidFunctor.call_Ty F u; Ok (a ++ b)).
Proof.
  induction t as [|o t IH].
  - rewrite app_nil_l, call_Ty_nil. simpl.
    by destruct (RigidFunctor.call_Ty F u).
  - rewrite <- app_comm_cons, !call_Ty_cons, IH.
    destruct (RigidFunctor.call_Ob F o) as [a|e]; [|done]. simpl.
    destruct (RigidFunctor.call_Ty F t) as [b|e]; [|done]. simpl.
    destruct (RigidFunctor.call_Ty F u) as [c|e]; [|done]. simpl.
    by rewrite app_assoc.
Qed.

Lemma Ty_r_app (x y : Ty) : Ty.r (x ++ y) = Ty.r y ++ Ty.r x.
Proof. unfold Ty.r. by rewrite reverse_app, fmap_app. Qed.

Lemma Ty_l_app (x y : Ty) : Ty.l (x ++ y) = Ty.l y ++ Ty.l x.
Proof. unfold Ty.l. by rewrite reverse_app, fmap_app. Qed.

Lemma call_Ty_singleton (F : RigidFunctor) (o : Ob) :
  RigidFunctor.call_Ty F [o] = RigidFunctor.call_Ob F o.
Proof.
  rewrite call_Ty_cons, call_Ty_nil.
  destruct (RigidFunctor.call_Ob F o); simpl; [|done]. by rewrite app_nil_r.
Qed.

Lemma call_Ty_adjoint (F : RigidFunctor) (adj : Ob → Ob) (Adj : Ty → Ty)
    (t : Ty) :
  (∀ o, RigidFunctor.call_Ob F (adj o)
        = (a ← RigidFunctor.call_Ob F o; Ok (Adj a))) →
  (∀ x y, Adj (x ++ y) = Adj y ++ Adj x) → Adj [] = [] →
  RigidFunctor.call_Ty F (adj <$> reverse t)
  = (a ← RigidFunctor.call_Ty F t; Ok (Adj a)).
Proof.
  intros Hadj Happ Hnil. induction t as [|o t IH].
  { simpl. by rewrite Hnil. }
  rewrite reverse_cons, fmap_app, call_Ty_app, IH. simpl.
  rewrite call_Ty_singleton, Hadj, call_Ty_cons.
  destruct (RigidFunctor.call_Ty F t) as [b|e2] eqn:Ht;
    destruct (RigidFunctor.call_Ob F o) as [a|e1] eqn:Ho; simpl; try done.
  - by rewrite Happ.
  - f_equal. apply call_Ty_KeyError in Ht. apply call_Ob_KeyError in Ho.
    congruence.
Qed.

(** Applied to a type, a functor is monoidal and preserves adjoints:
    [F(Ty()) == Ty()], [F(t @ u) == F(t) @ F(u)], [F(t.r) == F(t).r] and
    [F(t.l) == F(t).l], the two sides failing together; and it fails with
    [KeyError] only. *)
Theorem call_Ty_monoidal (F : RigidFunctor) (t u : Ty) :
  RigidFunctor.call_Ty F [] = Ok []
  ∧ RigidFunctor.call_Ty F (Ty.tensor t u)
    = (a ← RigidFunctor.call_Ty F t; b ← RigidFunctor.call_Ty F u;
       Ok (Ty.tensor a b))
  ∧ RigidFunctor.call_Ty F (Ty.r t)
    = (a ← RigidFunctor.call_Ty F t; Ok (Ty.r a))
  ∧ RigidFunctor.call_Ty F (Ty.l t)
    = (a ← RigidFunctor.call_Ty F t; Ok (Ty.l a))
  ∧ ∀ e, RigidFunctor.call_Ty F t = Raise e → e = KeyError.
Proof.
  split_and!.
  - done.
  - apply call_Ty_app.
  - apply call_Ty_adjoint; [|apply Ty_r_app|done].
    intros o. rewrite !call_Ob_adjoints. cbn [Ob.r name z].
    destruct (ob F !! _); [|done]. simpl. by rewrite Ty_r_adjoints.
  - apply call_Ty_adjoint; [|apply Ty_l_app|done].
    intros o. rewrite !call_Ob_adjoints. cbn [Ob.l name z].
    destruct (ob F !! _); [|done]. simpl. by rewrite Ty_l_adjoints.
  - apply call_Ty_KeyError.
Qed.

Section FunctorStaircase.
Variable MonoidalFunctor_call : RigidFunctor → FunctorArg → result FunctorRes.

(** A functor sends a cup on the wire [x0] to the staircase of cups on
    [F(x0)], and a cap to the staircase of caps: the call raises [KeyError]
    when the name of [x0] is not mapped, and nothing else. *)
Theorem call_Cup_Cap_staircase (F : RigidFunctor) (x y : Ty) (box : Box) :
  (Cup x y = Ok box →
   ∃ x0, x = [x0]
     ∧ RigidFunctor.call MonoidalFunctor_call F (ArgBox box)
       = (fx ← RigidFunctor.call_Ob F x0;
          Ok (ResDiagram (mkDiagram (fx ++ Ty.r fx) [] (cup_stairs fx)))))
  ∧ (Cap x y = Ok box →
     ∃ x0, x = [x0]
       ∧ RigidFunctor.call MonoidalFunctor_call F (ArgBox box)
         = (fx ← RigidFunctor.call_Ob F x0;
            Ok (ResDiagram (mkDiagram [] (fx ++ Ty.l fx) (cap_stairs fx))))).
Proof.
  split.
  - intros (x0 & -> & -> & ->)%Cup_Ok_iff. exists x0. split; [done|].
    simpl. rewrite (call_Ob_adjoints F (Ob.r x0)), (call_Ob_adjoints F x0).
    cbn [Ob.r name z]. destruct (ob F !! _) as [t|]; [|done].
    cbn [mbind result_bind]. rewrite <- Ty_r_adjoints.
    pose proof (cups_adjoint (adjoints (z x0) t) []) as H.
    rewrite app_nil_r in H. by rewrite H.
  - intros (x0 & -> & -> & ->)%Cap_Ok_iff. exists x0. split; [done|].
    simpl. rewrite (call_Ob_adjoints F (Ob.l x0)), (call_Ob_adjoints F x0).
    cbn [Ob.l name z]. destruct (ob F !! _) as [t|]; [|done].
    cbn [mbind result_bind]. rewrite <- Ty_l_adjoints.
    pose proof (caps_adjoint (adjoints (z x0) t) []) as H.
    rewrite app_nil_r in H. by rewrite H.
Qed.
End FunctorStaircase.

Lemma call_Cup_Cap_staircase_witness :
  RigidFunctor.call no_inherited_call n_to_m
    (ArgBox (MkCup (mkOb "n" 0) (mkOb "n" 1)))
  = Ok (ResDiagram
          (mkDiagram [mkOb "m" 0; mkOb "m" 1] []
             [(MkCup (mkOb "m" 0) (mkOb "m" 1), 0%Z)])).
Proof.
  destruct (call_Cup_Cap_staircase no_inherited_call n_to_m
              [mkOb "n" 0] [mkOb "n" 1] (MkCup (mkOb "n" 0) (mkOb "n" 1)))
    as [H _].
  destruct (H eq_refl) as (x0 & [= <-] & Hcall).
  exact Hcall.
Defined.

(** ** How objects are printed *)

Lemma string_app_cons (c : Ascii.ascii) (s1 s2 : string) :
  String c s1 +:+ s2 = String c (s1 +:+ s2).
Proof. reflexivity. Qed.

Lemma string_app_assoc (s1 s2 s3 : string) :
  (s1 +:+ s2) +:+ s3 = s1 +:+ (s2 +:+ s3).
Proof.
  induction s1 as [|c s1 IH]; [done|]. by rewrite !string_app_cons, IH.
Qed.

Lemma string_app_nil_r (s : string) : s +:+ "" = s.
Proof. induction s as [|c s IH]; [done|]. by rewrite string_app_cons, IH. Qed.

Lemma string_length_app (s1 s2 : string) :
  String.length (s1 +:+ s2) = String.length s1 + String.length s2.
Proof.
  induction s1 as [|c s1 IH]; [done|]. rewrite string_app_cons. simpl.
  by rewrite IH.
Qed.

Lemma str_mul_snoc (n : nat) (s : string) :
  str_mul (S n) s = str_mul n s +:+ s.
Proof.
  induction n as [|n IH]; [simpl; by rewrite string_app_nil_r|].
  change (str_mul (S (S n)) s) with (s +:+ str_mul (S n) s).
  rewrite IH at 1.
  change (str_mul (S n) s) with (s +:+ str_mul n s).
  by rewrite string_app_assoc.
Qed.

Lemma str_mul_length (n : nat) (s : string) :
  String.length (str_mul n s) = n * String.length s.
Proof.
  induction n as [|n IH]; simpl; [done|]. by rewrite string_length_app, IH.
Qed.

(** An object prints as its name followed by one [.r] for each right adjoint
    taken, or one [.l] for each left adjoint: taking an adjoint away from
    winding number [0] appends the suffix, and the printed form takes two
    characters for each unit of the winding number.  It does not tell
    objects apart: the object named by the printed form of [o] prints like
    [o], and is [o] only when the winding number of [o] is [0]. *)
Theorem Ob_str_adjoints (o : Ob) :
  (z o = 0%Z → Ob_str o = name o)
  ∧ ((0 ≤ z o)%Z → Ob_str (Ob.r o) = Ob_str o +:+ ".r")
  ∧ ((z o ≤ 0)%Z → Ob_str (Ob.l o) = Ob_str o +:+ ".l")
  ∧ String.length (Ob_str o)
    = String.length (name o) + 2 * Z.to_nat (Z.abs (z o))
  ∧ Ob_str (mkOb (Ob_str o) 0) = Ob_str o
  ∧ (mkOb (Ob_str o) 0 = o ↔ z o = 0%Z).
Proof.
  destruct o as [nm k]. unfold Ob_str, Ob.r, Ob.l. cbn [name z].
  split_and!.
  - intros ->. simpl. apply string_app_nil_r.
  - intros Hk. rewrite !bool_decide_eq_false_2 by lia.
    replace (Z.to_nat (k + 1)) with (S (Z.to_nat k)) by lia.
    by rewrite str_mul_snoc, string_app_assoc.
  - intros Hk. destruct (decide (k = 0%Z)) as [->|Hne].
    + simpl. by rewrite !string_app_nil_r.
    + rewrite !bool_decide_eq_true_2 by lia.
      replace (Z.to_nat (- (k - 1))) with (S (Z.to_nat (- k))) by lia.
      by rewrite str_mul_snoc, string_app_assoc.
  - rewrite string_length_app. case_bool_decide; rewrite str_mul_length; simpl;
      lia.
  - simpl. apply string_app_nil_r.
  - split.
    + by intros [= _ <-].
    + intros ->. simpl. by rewrite string_app_nil_r.
Qed.

Lemma Ob_str_adjoints_witness :
  Ob_str (Ob.r (mkOb "n" 0)) = "n.r"
  ∧ Ob_str (Ob.l (Ob.l (mkOb "n" 0))) = "n.l.l"
  ∧ mkOb "n.r" 0 ≠ Ob.r (mkOb "n" 0)
  ∧ mkOb (Ob_str (Ob.r (Ob.l (mkOb "n" 0)))) 0 = Ob.r (Ob.l (mkOb "n" 0)).
Proof.
  destruct (Ob_str_adjoints (mkOb "n" 0)) as (_ & Hr & _ & _ & _ & _).
  destruct (Ob_str_adjoints (Ob.l (mkOb "n" 0))) as (_ & _ & Hl & _).
  destruct (Ob_str_adjoints (Ob.r (mkOb "n" 0))) as (_ & _ & _ & _ & _ & Hne).
  destruct (Ob_str_adjoints (Ob.r (Ob.l (mkOb "n" 0))))
    as (_ & _ & _ & _ & _ & Heq).
  split; [exact (Hr ltac:(done))|].
  split; [exact (Hl ltac:(done))|].
  split; [|exact (proj2 Heq eq_refl)].
  intros H. apply (proj1 Hne) in H. discriminate H.
Defined.
